(** * Car simulator: request matching, script helpers and UDS dispatch

    A shallow embedding of the request-matching engine
    ([request_byte_tree_node.h], [ecu_lua_script.cpp]), of the script
    helpers ([toByteResponse], [createHash], ...), of the J1939 PGN parser
    ([j1939_simulator.cpp]) and of the UDS dispatcher ([uds_receiver.cpp]),
    followed by the properties established about them.

    Conventions.
    - A [std::string] is a [list ascii]; [uint8_t], [uint32_t], [int] and
      [long] values are [Z] with the conversions written out.
    - A [shared_ptr<RequestByteTreeNode<T>>] is an index into a store of
      nodes; a heap is the store together with the set of the nodes that
      have been deleted.  The order that [std::set<shared_ptr<...>>]
      iterates in is the order of the raw pointers, which the program does
      not control, so it is a parameter of the matching functions.
    - The builder code runs in a monad over the heap.  An outcome is a
      result, an exception, or undefined behaviour: the use of a deleted
      node, or its second deletion.  A node created before a [throw] stays
      in the tree, as it does in the source.
    - A member that the constructor leaves uninitialised reads as some
      value that the program does not control, a parameter of the builder
      code.
    - The matching functions are given on a store, as functions of the
      nodes alone, and on a heap, with every member access checked against
      the deletions. *)

From Stdlib Require Import ZArith Lia List Ascii String Bool.
From stdpp Require Import base option list gmap.

Local Open Scope Z_scope.

(** ** C strings and [strtol] *)

Definition str (s : string) : list ascii := list_ascii_of_string s.

Definition NUL : ascii := "000"%char.

(** What a [const char*] consumer sees of a [std::string]: the characters
    before the first NUL. *)
Fixpoint c_str (s : list ascii) : list ascii :=
  match s with
  | [] => []
  | c :: s' => if Ascii.eqb c NUL then [] else c :: c_str s'
  end.

Definition code (c : ascii) : Z := Z.of_nat (nat_of_ascii c).

(** [isspace] in the "C" locale. *)
Definition isspace (c : ascii) : bool :=
  (code c =? 32) || ((9 <=? code c) && (code c <=? 13)).

Fixpoint skipSpaces (s : list ascii) : list ascii :=
  match s with
  | [] => []
  | c :: s' => if isspace c then skipSpaces s' else s
  end.

(** Value of a character as a digit, for bases up to 36. *)
Definition digitValue (c : ascii) : option Z :=
  let n := code c in
  if (48 <=? n) && (n <=? 57) then Some (n - 48)
  else if (65 <=? n) && (n <=? 90) then Some (n - 55)
  else if (97 <=? n) && (n <=? 122) then Some (n - 87)
  else None.

Fixpoint strtol_digits (base acc : Z) (s : list ascii) : Z :=
  match s with
  | [] => acc
  | c :: s' =>
      match digitValue c with
      | Some d => if d <? base then strtol_digits base (acc * base + d) s' else acc
      | None => acc
      end
  end.

Definition LONG_MAX : Z := 2 ^ 63 - 1.
Definition LONG_MIN : Z := - 2 ^ 63.

Definition clampLong (v : Z) : Z :=
  if v >? LONG_MAX then LONG_MAX else if v <? LONG_MIN then LONG_MIN else v.

(** [strtol(s, NULL, base)] for [base] 10 or 16 (64-bit [long]): leading
    white space, an optional sign, for base 16 an optional [0x] prefix, then
    the longest run of digits; no digits give 0, overflow saturates. *)
Definition strtol (s : list ascii) (base : Z) : Z :=
  let s0 := skipSpaces (c_str s) in
  let '(neg, s1) :=
    match s0 with
    | "-"%char :: t => (true, t)
    | "+"%char :: t => (false, t)
    | _ => (false, s0)
    end in
  let s2 :=
    if base =? 16 then
      match s1 with
      | "0"%char :: x :: t =>
          if Ascii.eqb x "x"%char || Ascii.eqb x "X"%char then t else s1
      | _ => s1
      end
    else s1 in
  let v := strtol_digits base 0 s2 in
  clampLong (if neg then - v else v).

Definition uint8 (v : Z) : Z := v mod 256.
Definition uint16 (v : Z) : Z := v mod 65536.
Definition uint32 (v : Z) : Z := v mod 4294967296.

(** ** [EcuLuaScript::literalHexStrToBytes] *)

(** [tmpStr.erase(remove(tmpStr.begin(), tmpStr.end(), ' '), tmpStr.end())] *)
Fixpoint removeSpaces (s : list ascii) : list ascii :=
  match s with
  | [] => []
  | c :: s' => if Ascii.eqb c " "%char then removeSpaces s' else c :: removeSpaces s'
  end.

(** The loop [for (i = 0; i < tmpStr.length(); i += 2)] over
    [tmpStr.substr(i, 2)]; a trailing single character is a unit of its
    own. *)
Fixpoint bytesOfPairs (s : list ascii) : list Z :=
  match s with
  | [] => []
  | [c] => [uint8 (strtol [c] 16)]
  | c1 :: c2 :: rest => uint8 (strtol [c1; c2] 16) :: bytesOfPairs rest
  end.

Definition literalHexStrToBytes (hexString : list ascii) : list Z :=
  bytesOfPairs (removeSpaces hexString).

(** ** Hexadecimal rendering *)

Definition HEX_LUT : list ascii := str "0123456789ABCDEF".

Definition hexDigit (k : Z) : ascii := nth (Z.to_nat k) HEX_LUT NUL.

(** [EcuLuaScript::intToHexString] *)
Fixpoint intToHexString (buffer : list Z) : list ascii :=
  match buffer with
  | [] => []
  | [b] => [hexDigit (b / 16); hexDigit (b mod 16)]
  | b :: rest => hexDigit (b / 16) :: hexDigit (b mod 16) :: " "%char :: intToHexString rest
  end.

(** ** [EcuLuaScript::toByteResponse] *)

Definition MAX_UDS_SIZE : Z := 4096.
Definition CHAR_SP : Z := 3.

(** [n] rounds of the loop body
    [str[i] = HEX_LUT[(value >> j) & 0x0F];
     str[i + 1] = HEX_LUT[(value >> (j - 4)) & 0x0F]; str[i + 2] = ' ';]
    with [i += CHAR_SP, j -= 8]. *)
Fixpoint hexGroups (n : nat) (value j : Z) : list ascii :=
  match n with
  | O => []
  | S n' =>
      hexDigit (Z.land (Z.shiftr value j) 15)
        :: hexDigit (Z.land (Z.shiftr value (j - 4)) 15)
        :: " "%char :: hexGroups n' value (j - 8)
  end.

(** [n] rounds of the zero-fill loop. *)
Fixpoint zeroGroups (n : nat) : list ascii :=
  match n with
  | O => []
  | S n' => "0"%char :: "0"%char :: " "%char :: zeroGroups n'
  end.

(** [str[space - 1] = '\0'; return str;]: the buffer becomes a
    [std::string] up to its first NUL. *)
Definition terminateAt (space : Z) (buf : list ascii) : list ascii :=
  c_str (<[Z.to_nat (space - 1) := NUL]> buf).

(** [value] and [len] are [uint32_t].  For [len = 0] the source writes
    [str[-1]]; the model returns the empty string there. *)
Definition toByteResponse (value len : Z) : list ascii :=
  let len := if len >? MAX_UDS_SIZE then MAX_UDS_SIZE else len in
  let zeroFill := len - 4 in
  if zeroFill <? 0 then
    let space := len * CHAR_SP in
    terminateAt space (hexGroups (Z.to_nat len) value ((len * 2 - 1) * 4))
  else
    let space := (4 + zeroFill) * CHAR_SP in
    terminateAt space
      (zeroGroups (Z.to_nat zeroFill) ++ hexGroups 4 value ((4 * 2 - 1) * 4)).

(** ** The received-data accumulator: [getDataBytes] and [createHash] *)

(** Modelled from the spec: [libcrc/crcccitt.c] is not among the sources.
    [crc_ccitt_ffff] is CRC-CCITT with polynomial 0x1021 and start value
    0xFFFF, most significant bit first, without a final xor. *)
Fixpoint crc_shift (n : nat) (crc : Z) : Z :=
  match n with
  | O => crc
  | S n' =>
      crc_shift n'
        (if Z.testbit crc 15
         then uint16 (Z.lxor (Z.shiftl crc 1) 4129)
         else uint16 (Z.shiftl crc 1))
  end.

Definition crc_update (crc byte : Z) : Z :=
  crc_shift 8 (Z.lxor crc (Z.shiftl byte 8)).

Definition crc_ccitt_ffff (input : list Z) : Z :=
  fold_left crc_update input 65535.

(** [printf("%X", v)] for [v >= 0]: upper-case digits, no padding. *)
Fixpoint hexUpper (fuel : nat) (v : Z) (acc : list ascii) : list ascii :=
  match fuel with
  | O => acc
  | S f =>
      let acc' := hexDigit (v mod 16) :: acc in
      if v / 16 =? 0 then acc' else hexUpper f (v / 16) acc'
  end.

(** [snprintf(buf, size, "%X", v)] read back as a string: at most
    [size - 1] characters are stored. *)
Definition snprintfX (size : nat) (v : Z) : list ascii :=
  take (size - 1) (hexUpper 16 v []).

(** [EcuLuaScript::getDataBytes] on the file-scope [receivedDataBytes].
    [answer.substr(4, ...)] throws when fewer than four characters are
    left; the function is [noexcept], so the process ends ([None]). *)
Definition getDataBytes (msg : list ascii) (receivedDataBytes : list ascii)
  : option (list ascii) :=
  let answer := removeSpaces msg in
  if (4 <=? length answer)%nat
  then Some (receivedDataBytes ++ drop 4 answer)
  else None.

(** The text that [createHash] makes of the checksum:
    [snprintf(hash, 5, "%X", crc2)], with a ["0"] in front when the number
    of digits is odd. *)
Definition hashOfCrc (crc2 : Z) : list ascii :=
  let answer := snprintfX 5 crc2 in
  if negb (length answer mod 2 =? 0)%nat then "0"%char :: answer else answer.

(** [EcuLuaScript::createHash]: the returned string and the new value of
    [receivedDataBytes]. *)
Definition createHash (receivedDataBytes : list ascii)
  : list ascii * list ascii :=
  let resp := literalHexStrToBytes receivedDataBytes in
  let crc2 := crc_ccitt_ffff resp in
  let answer := hashOfCrc crc2 in
  (answer, []).

(** ** [J1939Simulator::parsePGN] *)

Definition strnlen (s : list ascii) (maxlen : Z) : Z :=
  Z.min (Z.of_nat (length (c_str s))) maxlen.

(** The loop [for (int i = size - 1; i >= 0; i--)
    { pgnNum = pgnNum << 8; pgnNum |= pgnBytes[i] & 0xffu; }] *)
Definition littleEndianBytes (pgnBytes : list Z) : Z :=
  fold_left (fun pgnNum b => Z.lor (uint32 (Z.shiftl pgnNum 8)) (Z.land b 255))
            (rev pgnBytes) 0.

Definition parsePGN (pgn : list ascii) : Z :=
  let pgnNum := if strnlen pgn 6 <? 6 then uint32 (strtol pgn 10) else 0 in
  if (pgnNum =? 0) || (pgnNum >? 99999) then
    let pgnBytes := literalHexStrToBytes pgn in
    if (length pgnBytes <=? 3)%nat then littleEndianBytes pgnBytes else 0
  else pgnNum.

(** ** [EcuLuaScript::cleanupString] *)

Definition separators : list ascii := str "_.,; #" ++ ["009"%char].

Definition isSeparator (c : ascii) : bool :=
  existsb (Ascii.eqb c) separators.

Fixpoint cleanupString (rawString : list ascii) : list ascii :=
  match rawString with
  | [] => []
  | c :: s' => if isSeparator c then cleanupString s' else c :: cleanupString s'
  end.

(** ** [RequestByteTreeNode]: the tree nodes and their lifetime *)

(** A [shared_ptr<RequestByteTreeNode<T>>]: the position of the node in the
    store.  A position is never used twice, so that a pointer to a deleted
    node stays apart from every later node: the use of such a pointer is
    undefined whether or not the memory has been handed out again. *)
Abbreviation ptr := nat (only parsing).

(** *** Exceptions and undefined behaviour *)

(** Every [throw exception()] of the tree code, told apart by the message
    written to [cerr] just before it. *)
Inductive exn : Type :=
| NotAHexNumber          (* "... is not a hex number." *)
| OddNumberOfDigits      (* "... has odd number of digits." *)
| WildcardAlreadyExists. (* "Same request with Wildcard already exists" *)

(** What the language leaves undefined: a member access through a pointer
    to a deleted node, and the deletion of a node that is deleted
    already. *)
Inductive undefined : Type :=
| UseAfterDelete
| DoubleDelete.

Inductive outcome (A : Type) : Type :=
| Returned (a : A)
| Thrown (e : exn)
| Undefined (u : undefined).

Arguments Returned {A} a.
Arguments Thrown {A} e.
Arguments Undefined {A} u.

Section Tree.
Context {T : Type}.

Record RequestByteTreeNode : Type := mkNode {
  subsequentByte : gmap Z ptr;
  subsequentPlaceholder : option ptr;
  subsequentWildcard : option ptr;
  luaResponse : option T;
  placeholderCount : Z;
  requestLength : Z;
  wildcard : bool
}.

(** The store: every node allocated so far, in the order of allocation. *)
Local Abbreviation store := (list RequestByteTreeNode) (only parsing).

(** The constructor [RequestByteTreeNode(placeholderCount, requestLength)].
    Its initialiser list names [luaResponse], [placeholderCount] and
    [requestLength]; the maps and pointers are empty by their own
    constructors; [wildcard] is not initialised and holds what the memory
    held before ([indeterminate]) until [appendWildcard] writes it. *)
Definition newNode (indeterminate : bool) (placeholderCount requestLength : Z)
  : RequestByteTreeNode :=
  {| subsequentByte := ∅;
     subsequentPlaceholder := None;
     subsequentWildcard := None;
     luaResponse := None;
     placeholderCount := placeholderCount;
     requestLength := requestLength;
     wildcard := indeterminate |}.

Definition deref (h : store) (p : ptr) : RequestByteTreeNode :=
  default (newNode false 0 0) (h !! p).

(** *** The heap *)

(** The nodes together with the set of those that have been deleted.  The
    contents of a deleted node are no longer there; the store keeps what
    was last written, and nothing defined reads it. *)
Record Heap : Type := {
  nodes : store;
  deleted : gset ptr
}.

Definition M (A : Type) : Type := Heap -> Heap * outcome A.

Definition ret {A} (a : A) : M A := fun H => (H, Returned a).

Definition throw {A} (e : exn) : M A := fun H => (H, Thrown e).

Definition bind {A B} (m : M A) (k : A -> M B) : M B :=
  fun H =>
    match m H with
    | (H', Returned a) => k a H'
    | (H', Thrown e) => (H', Thrown e)
    | (H', Undefined u) => (H', Undefined u)
    end.

(** [try { m } catch (exception &e) { handler(e) }]: undefined behaviour is
    not an exception. *)
Definition try_catch {A} (m : M A) (handler : exn -> M A) : M A :=
  fun H =>
    match m H with
    | (H', Returned a) => (H', Returned a)
    | (H', Thrown e) => handler e H'
    | (H', Undefined u) => (H', Undefined u)
    end.

(** A member access [p->...]. *)
Definition load (p : ptr) : M RequestByteTreeNode :=
  fun H =>
    if bool_decide (p ∈ deleted H) then (H, Undefined UseAfterDelete)
    else (H, Returned (deref (nodes H) p)).

(** A write to the members of the node just accessed. *)
Definition storeNode (p : ptr) (n : RequestByteTreeNode) : M unit :=
  fun H => ({| nodes := <[p := n]> (nodes H); deleted := deleted H |}, Returned tt).

(** The nodes that a node owns through its member pointers. *)
Definition children (n : RequestByteTreeNode) : list ptr :=
  match subsequentWildcard n with Some c => [c] | None => [] end
  ++ match subsequentPlaceholder n with Some c => [c] | None => [] end
  ++ map snd (map_to_list (subsequentByte n)).

(** The nodes that go when [p] is deleted: the destructor of a node
    releases its member pointers, each the only owner of a child, which
    deletes the child in turn.  The number of nodes bounds the depth,
    since a child is allocated after its parent. *)
Fixpoint owned (fuel : nat) (h : store) (p : ptr) : list ptr :=
  match fuel with
  | O => []
  | S fuel' => p :: concat (map (owned fuel' h) (children (deref h p)))
  end.

(** The end of the last [shared_ptr] of a control block that owns [p]:
    [delete p].  Deleting a node again is undefined. *)
Definition dropOwner (p : ptr) : M unit :=
  fun H =>
    let doomed := owned (S (length (nodes H))) (nodes H) p in
    if existsb (fun x => bool_decide (x ∈ deleted H)) doomed
    then (H, Undefined DoubleDelete)
    else ({| nodes := nodes H; deleted := deleted H ∪ list_to_set doomed |},
          Returned tt).

(** *** Builder methods *)

Definition withSubsequentByte (n : RequestByteTreeNode) (b : Z) (c : ptr) :=
  {| subsequentByte := <[b := c]> (subsequentByte n);
     subsequentPlaceholder := subsequentPlaceholder n;
     subsequentWildcard := subsequentWildcard n;
     luaResponse := luaResponse n;
     placeholderCount := placeholderCount n;
     requestLength := requestLength n;
     wildcard := wildcard n |}.

Definition withSubsequentPlaceholder (n : RequestByteTreeNode) (c : ptr) :=
  {| subsequentByte := subsequentByte n;
     subsequentPlaceholder := Some c;
     subsequentWildcard := subsequentWildcard n;
     luaResponse := luaResponse n;
     placeholderCount := placeholderCount n;
     requestLength := requestLength n;
     wildcard := wildcard n |}.

Definition withSubsequentWildcard (n : RequestByteTreeNode) (c : ptr) :=
  {| subsequentByte := subsequentByte n;
     subsequentPlaceholder := subsequentPlaceholder n;
     subsequentWildcard := Some c;
     luaResponse := luaResponse n;
     placeholderCount := placeholderCount n;
     requestLength := requestLength n;
     wildcard := wildcard n |}.

Definition withLuaResponse (n : RequestByteTreeNode) (r : T) :=
  {| subsequentByte := subsequentByte n;
     subsequentPlaceholder := subsequentPlaceholder n;
     subsequentWildcard := subsequentWildcard n;
     luaResponse := Some r;
     placeholderCount := placeholderCount n;
     requestLength := requestLength n;
     wildcard := wildcard n |}.

Definition withPlaceholderCount (n : RequestByteTreeNode) (k : Z) :=
  {| subsequentByte := subsequentByte n;
     subsequentPlaceholder := subsequentPlaceholder n;
     subsequentWildcard := subsequentWildcard n;
     luaResponse := luaResponse n;
     placeholderCount := k;
     requestLength := requestLength n;
     wildcard := wildcard n |}.

Definition withWildcard (n : RequestByteTreeNode) (w : bool) :=
  {| subsequentByte := subsequentByte n;
     subsequentPlaceholder := subsequentPlaceholder n;
     subsequentWildcard := subsequentWildcard n;
     luaResponse := luaResponse n;
     placeholderCount := placeholderCount n;
     requestLength := requestLength n;
     wildcard := w |}.

Section Building.
(** What the [wildcard] member of a node allocated at a position holds
    before it is written. *)
Variable uninitialised : ptr -> bool.

(** [new RequestByteTreeNode<T>(placeholderCount, requestLength)] *)
Definition alloc (placeholderCount requestLength : Z) : M ptr :=
  fun H =>
    let c := length (nodes H) in
    ({| nodes := nodes H ++ [newNode (uninitialised c) placeholderCount requestLength];
        deleted := deleted H |},
     Returned c).

(** [appendByte]: [emplace] leaves an entry that is already there alone
    (the node built for it is dropped at once); the result is
    [subsequentByte[requestByte]] either way. *)
Definition appendByte (this : ptr) (requestByte : Z) : M ptr :=
  bind (load this) (fun n =>
  match subsequentByte n !! requestByte with
  | Some c => ret c
  | None =>
      bind (alloc (placeholderCount n) (requestLength n + 1)) (fun c =>
      bind (storeNode this (withSubsequentByte n requestByte c)) (fun _ =>
      ret c))
  end).

Definition appendWildcard (this : ptr) : M ptr :=
  bind (load this) (fun n =>
  match subsequentWildcard n with
  | Some _ => throw WildcardAlreadyExists
  | None =>
      bind (alloc (placeholderCount n) (requestLength n + 1)) (fun c =>
      bind (storeNode this (withSubsequentWildcard n c)) (fun _ =>
      bind (load c) (fun nextElement =>
      bind (storeNode c (withWildcard nextElement true)) (fun _ =>
      ret c))))
  end).

Definition appendPlaceholder (this : ptr) : M ptr :=
  bind (load this) (fun n =>
  bind (match subsequentPlaceholder n with
        | Some c => ret c
        | None =>
            bind (alloc (placeholderCount n + 1) (requestLength n + 1)) (fun c =>
            bind (storeNode this (withSubsequentPlaceholder n c)) (fun _ =>
            ret c))
        end) (fun c =>
  bind (load c) (fun nextElement =>
  bind (storeNode c (withPlaceholderCount nextElement (placeholderCount n + 1))) (fun _ =>
  ret c)))).

(** [setLuaResponse]: the response is stored in the node, and
    [shared_ptr<RequestByteTreeNode<T>>(this)] is returned: a new owner of
    the node with a control block of its own, apart from the owner in the
    parent. *)
Definition setLuaResponse (this : ptr) (response : T) : M ptr :=
  bind (load this) (fun n =>
  bind (storeNode this (withLuaResponse n response)) (fun _ =>
  ret this)).

(** *** [EcuLuaScript::addRequestToTree] *)

Definition lower (c : ascii) : ascii :=
  if (65 <=? code c) && (code c <=? 90)
  then ascii_of_nat (nat_of_ascii c + 32) else c.

(** [strncasecmp(requestByteString.c_str(), "XX", 2) == 0] for a two
    character [requestByteString] *)
Definition isPlaceholder (c1 c2 : ascii) : bool :=
  Ascii.eqb (lower c1) "x"%char && Ascii.eqb (lower c2) "x"%char.

(** The loop [for (i = 0; i + 1 < requestString.length(); i += 2)]. *)
Fixpoint addRequestBytes (requestString : list ascii) (position : ptr) : M ptr :=
  match requestString with
  | c1 :: c2 :: rest =>
      bind (if isPlaceholder c1 c2 then appendPlaceholder position
            else
              match literalHexStrToBytes [c1; c2] with
              | requestByte :: _ => appendByte position requestByte
              | [] => throw NotAHexNumber          (* [.at(0)] out of range *)
              end) (fun position' =>
      addRequestBytes rest position')
  | _ => ret position
  end.

Definition addRequestToTree (requestByteTree : ptr) (requestString : list ascii)
  : M ptr :=
  bind (addRequestBytes requestString requestByteTree) (fun position =>
  if negb (length requestString mod 2 =? 0)%nat then
    match last requestString with
    | Some c =>
        if Ascii.eqb c "*"%char then appendWildcard position
        else throw OddNumberOfDigits
    | None => throw OddNumberOfDigits
    end
  else ret position).

(** *** [EcuLuaScript::buildRequestByteTree] *)

(** One round of the loop over [requestKeys]; the result tells whether the
    key was ignored, and why.  The statement
    [requestByteLeaf->setLuaResponse(response);] drops the pointer that
    [setLuaResponse] returns: this owner ends at once, and the leaf is
    deleted while its parent still points to it. *)
Definition addKey (mappingFunction : list ascii -> T) (root : ptr)
    (requestStringRaw : list ascii) : M (option exn) :=
  let requestString := cleanupString requestStringRaw in
  try_catch
    (let response := mappingFunction requestStringRaw in
     bind (addRequestToTree root requestString) (fun requestByteLeaf =>
     bind (setLuaResponse requestByteLeaf response) (fun returned =>
     bind (dropOwner returned) (fun _ =>
     ret None))))
    (fun e => ret (Some e)).

(** The loop; it returns the keys reported on [cerr] as ignored. *)
Fixpoint addKeys (mappingFunction : list ascii -> T) (root : ptr)
    (requestKeys : list (list ascii)) : M (list (list ascii * exn)) :=
  match requestKeys with
  | [] => ret []
  | k :: keys =>
      bind (addKey mappingFunction root k) (fun r =>
      bind (addKeys mappingFunction root keys) (fun ignored =>
      ret (match r with
           | Some e => (k, e) :: ignored
           | None => ignored
           end)))
  end.

Definition buildRequestByteTree (requestKeys : list (list ascii))
    (mappingFunction : list ascii -> T) : M (ptr * list (list ascii * exn)) :=
  bind (alloc 0 0) (fun requestByteTree =>
  bind (addKeys mappingFunction requestByteTree requestKeys) (fun ignored =>
  ret (requestByteTree, ignored))).
End Building.

(** *** [EcuLuaScript::getValueFromTree] *)

Section Matching.
(** The strict order of [std::less] on the raw pointers, by which a
    [std::set<shared_ptr<...>>] is sorted and iterated. *)
Variable ptr_lt : ptr -> ptr -> bool.

(** [std::set::insert] *)
Fixpoint set_insert (x : ptr) (s : list ptr) : list ptr :=
  match s with
  | [] => [x]
  | y :: s' =>
      if Nat.eqb x y then s
      else if ptr_lt x y then x :: s
      else y :: set_insert x s'
  end.

Definition insertIfPresent (o : option ptr) (s : list ptr) : list ptr :=
  match o with
  | Some c => set_insert c s
  | None => s
  end.

Definition findAndAddMatchesForNextByte (h : store) (matchingNodes : list ptr)
    (currentByte : ptr) (nextByte : Z) : list ptr :=
  let n := deref h currentByte in
  let matchingNodes := insertIfPresent (subsequentByte n !! nextByte) matchingNodes in
  let matchingNodes := insertIfPresent (subsequentPlaceholder n) matchingNodes in
  insertIfPresent (subsequentWildcard n) matchingNodes.

(** The inner loop over [potentiallyMatchingRequests]. *)
Definition nextCandidates (h : store) (potentiallyMatchingRequests : list ptr)
    (nextByte : Z) : list ptr :=
  fold_left
    (fun matchingNodes crntRequestByte =>
       if wildcard (deref h crntRequestByte)
       then set_insert crntRequestByte matchingNodes
       else findAndAddMatchesForNextByte h matchingNodes crntRequestByte nextByte)
    potentiallyMatchingRequests [].

(** The outer loop over [payload], with its [break]. *)
Fixpoint candidatesAfter (h : store) (potentiallyMatchingRequests : list ptr)
    (payload : list Z) : list ptr :=
  match payload with
  | [] => potentiallyMatchingRequests
  | nextByte :: payload' =>
      match potentiallyMatchingRequests with
      | [] => []
      | _ => candidatesAfter h (nextCandidates h potentiallyMatchingRequests nextByte)
                             payload'
      end
  end.

Definition getThisOrNextWildcardWithResponse (h : store) (requestByteNode : ptr)
  : ptr :=
  match luaResponse (deref h requestByteNode) with
  | None =>
      match subsequentWildcard (deref h requestByteNode) with
      | Some w => w
      | None => requestByteNode
      end
  | Some _ => requestByteNode
  end.

(** One round of the loop of [findBestMatchingRequest]. *)
Definition betterMatch (h : store) (bestMatchingRequest : option ptr)
    (matchingRequestItem : ptr) : option ptr :=
  let matchingRequest := getThisOrNextWildcardWithResponse h matchingRequestItem in
  let m := deref h matchingRequest in
  match luaResponse m with
  | None => bestMatchingRequest
  | Some _ =>
      match bestMatchingRequest with
      | None => Some matchingRequest
      | Some best =>
          let b := deref h best in
          if wildcard b && negb (wildcard m) then Some matchingRequest
          else if wildcard m && (requestLength m >? requestLength b)
               then Some matchingRequest
          else if placeholderCount m <? placeholderCount b
               then Some matchingRequest
          else Some best
      end
  end.

Definition findBestMatchingRequest (h : store)
    (potentiallyMatchingRequests : list ptr) : option ptr :=
  fold_left (betterMatch h) potentiallyMatchingRequests None.

Definition getValueFromTree (h : store) (requestByteTree : ptr) (payload : list Z)
  : option T :=
  let potentiallyMatchingRequests := candidatesAfter h [requestByteTree] payload in
  match findBestMatchingRequest h potentiallyMatchingRequests with
  | Some bestMatchingRequest => luaResponse (deref h bestMatchingRequest)
  | None => None
  end.

(** *** The lookup on a heap

    The same loops with every member access checked.  In the tree that
    loading leaves, a parent still points to a leaf that was deleted. *)

Definition live (H : Heap) (p : ptr) : bool :=
  negb (bool_decide (p ∈ deleted H)).

(** The inner loop; it reads [crntRequestByte->isWildcard()] of every
    candidate. *)
Definition nextCandidatesOnHeap (H : Heap) (potentiallyMatchingRequests : list ptr)
    (nextByte : Z) : undefined + list ptr :=
  fold_left
    (fun acc crntRequestByte =>
       match acc with
       | inl u => inl u
       | inr matchingNodes =>
           if live H crntRequestByte then
             inr (if wildcard (deref (nodes H) crntRequestByte)
                  then set_insert crntRequestByte matchingNodes
                  else findAndAddMatchesForNextByte (nodes H) matchingNodes
                         crntRequestByte nextByte)
           else inl UseAfterDelete
       end)
    potentiallyMatchingRequests (inr []).

Fixpoint candidatesAfterOnHeap (H : Heap) (potentiallyMatchingRequests : list ptr)
    (payload : list Z) : undefined + list ptr :=
  match payload with
  | [] => inr potentiallyMatchingRequests
  | nextByte :: payload' =>
      match potentiallyMatchingRequests with
      | [] => inr []
      | _ =>
          match nextCandidatesOnHeap H potentiallyMatchingRequests nextByte with
          | inl u => inl u
          | inr matchingNodes => candidatesAfterOnHeap H matchingNodes payload'
          end
      end
  end.

(** One round of the loop of [findBestMatchingRequest]: the candidate is
    read by [getThisOrNextWildcardWithResponse], then the node that this
    returns (the candidate or its wildcard child) is read; the best so far
    is a node read in an earlier round. *)
Definition betterMatchOnHeap (H : Heap) (bestMatchingRequest : undefined + option ptr)
    (matchingRequestItem : ptr) : undefined + option ptr :=
  match bestMatchingRequest with
  | inl u => inl u
  | inr best =>
      if live H matchingRequestItem then
        if live H (getThisOrNextWildcardWithResponse (nodes H) matchingRequestItem)
        then inr (betterMatch (nodes H) best matchingRequestItem)
        else inl UseAfterDelete
      else inl UseAfterDelete
  end.

Definition findBestMatchingRequestOnHeap (H : Heap)
    (potentiallyMatchingRequests : list ptr) : undefined + option ptr :=
  fold_left (betterMatchOnHeap H) potentiallyMatchingRequests (inr None).

Definition getValueFromTreeOnHeap (H : Heap) (requestByteTree : ptr)
    (payload : list Z) : undefined + option T :=
  match candidatesAfterOnHeap H [requestByteTree] payload with
  | inl u => inl u
  | inr potentiallyMatchingRequests =>
      match findBestMatchingRequestOnHeap H potentiallyMatchingRequests with
      | inl u => inl u
      | inr (Some bestMatchingRequest) =>
          inr (luaResponse (deref (nodes H) bestMatchingRequest))
      | inr None => inr None
      end
  end.
End Matching.
End Tree.

Arguments RequestByteTreeNode : clear implicits.
Arguments Heap : clear implicits.
Abbreviation store T := (list (RequestByteTreeNode T)) (only parsing).
Arguments M : clear implicits.

(** ** The script as the dispatchers see it *)

(** A [sel::Selector] holding a table entry: a value, read through
    [toString()], or a Lua function of the request string. *)
Inductive Selector : Type :=
| LuaString (s : list ascii)
| LuaFunction (f : list ascii -> list ascii).

(** The tables of the ECU in the Lua state that the UDS services read. *)
Record LuaState : Type := {
  luaSeed : Z -> option (list ascii);
  luaReadDataByIdentifier : list ascii -> option Selector;
  luaSessionReadDataByIdentifier : list ascii -> list ascii -> option Selector
}.

Definition callOrValue (val : option Selector) (arg : list ascii) : list ascii :=
  match val with
  | Some (LuaFunction f) => f arg
  | Some (LuaString s) => s
  | None => []
  end.

(** [EcuLuaScript::getSeed] *)
Definition getSeed (lua : LuaState) (seed_level : Z) : list ascii :=
  match luaSeed lua seed_level with
  | Some val => val
  | None => []
  end.

(** [EcuLuaScript::getDataByIdentifier], both overloads *)
Definition getDataByIdentifier (lua : LuaState) (identifier : list ascii) : list ascii :=
  callOrValue (luaReadDataByIdentifier lua identifier) identifier.

Definition getDataByIdentifierIn (lua : LuaState) (identifier session : list ascii)
  : list ascii :=
  callOrValue (luaSessionReadDataByIdentifier lua session identifier) identifier.

(** [EcuLuaScript::getRawResponse] *)
Definition getRawResponse (ptr_lt : ptr -> ptr -> bool) (h : store Selector)
    (requestByteTree : ptr) (payload : list Z) : option (list ascii) :=
  match getValueFromTree ptr_lt h requestByteTree payload with
  | Some (LuaFunction f) => Some (f (intToHexString payload))
  | Some (LuaString s) => Some s
  | None => None
  end.

(** ** [UdsReceiver] *)

(** Modelled from the spec: [service_identifier.h] is not among the sources;
    the service identifiers and response codes are the ones of sections 4.4
    and 4.7. *)
Definition ERROR : Z := 0x7F.
Definition SERVICE_NOT_SUPPORTED : Z := 0x11.
Definition READ_DATA_BY_IDENTIFIER_REQ : Z := 0x22.
Definition READ_DATA_BY_IDENTIFIER_RES : Z := 0x62.
Definition DIAGNOSTIC_SESSION_CONTROL_REQ : Z := 0x10.
Definition DIAGNOSTIC_SESSION_CONTROL_RES : Z := 0x50.
Definition SECURITY_ACCESS_REQ : Z := 0x27.
Definition SECURITY_ACCESS_RES : Z := 0x67.

Inductive UdsSession : Type := DEFAULT | PROGRAMMING | EXTENDED.

(** The part of [SessionController] that the receiver calls.  The class is
    not among the sources, so the receiver is stated over any
    implementation of it. *)
Class SessionController (SC : Type) : Type := {
  getCurrentUdsSession : SC -> UdsSession;
  setCurrentUdsSession : UdsSession -> SC -> SC;
  start : Z -> SC -> SC;
  reset : SC -> SC
}.

Section UdsReceiver.
Context {SC : Type} `{SessionController SC}.

(** The script, the tree built from its [Raw] table, the pointer order
    and the [SESSION_TIME] constant do not change while requests are
    served. *)
Variable lua : LuaState.
Variable ptr_lt : ptr -> ptr -> bool.
Variable requestByteTreeStore : store Selector.
Variable requestByteTree : ptr.
Variable SESSION_TIME : Z.

(** The mutable state: the session controller, [securityAccessType_] (a
    byte) and the messages handed to [IsoTpSender::sendData], oldest
    first. *)
Record UdsReceiver : Type := {
  pSessionCtrl : SC;
  securityAccessType : Z;
  isoTpSent : list (list Z)
}.

Definition sendData (resp : list Z) (u : UdsReceiver) : UdsReceiver :=
  {| pSessionCtrl := pSessionCtrl u;
     securityAccessType := securityAccessType u;
     isoTpSent := isoTpSent u ++ [resp] |}.

Definition onSessionCtrl (f : SC -> SC) (u : UdsReceiver) : UdsReceiver :=
  {| pSessionCtrl := f (pSessionCtrl u);
     securityAccessType := securityAccessType u;
     isoTpSent := isoTpSent u |}.

Definition withSecurityAccessType (t : Z) (u : UdsReceiver) : UdsReceiver :=
  {| pSessionCtrl := pSessionCtrl u;
     securityAccessType := t;
     isoTpSent := isoTpSent u |}.

(** [buffer[i]]; the transport layer pads short requests with zero
    bytes. *)
Definition at_ (buffer : list Z) (i : nat) : Z := nth i buffer 0.

Definition readDataByIdentifier (buffer : list Z) (u : UdsReceiver) : UdsReceiver :=
  let dataIdentifier := uint16 (Z.shiftl (at_ buffer 1) 8 + at_ buffer 2) in
  let data :=
    match getCurrentUdsSession (pSessionCtrl u) with
    | PROGRAMMING =>
        getDataByIdentifierIn lua (toByteResponse dataIdentifier 2) (str "Programming")
    | EXTENDED =>
        getDataByIdentifierIn lua (toByteResponse dataIdentifier 2) (str "Extended")
    | DEFAULT => getDataByIdentifier lua (toByteResponse dataIdentifier 2)
    end in
  match data with
  | _ :: _ =>
      sendData ([READ_DATA_BY_IDENTIFIER_RES; at_ buffer 1; at_ buffer 2]
                  ++ map code data) u
  | [] => sendData [ERROR; 0x22; SERVICE_NOT_SUPPORTED] u
  end.

Definition diagnosticSessionControl (buffer : list Z) (u : UdsReceiver) : UdsReceiver :=
  let sessionId := at_ buffer 1 in
  let u :=
    if sessionId =? 0x01 then onSessionCtrl (setCurrentUdsSession DEFAULT) u
    else if sessionId =? 0x02 then
      onSessionCtrl (start SESSION_TIME)
        (onSessionCtrl (setCurrentUdsSession PROGRAMMING) u)
    else if sessionId =? 0x03 then
      onSessionCtrl (start SESSION_TIME)
        (onSessionCtrl (setCurrentUdsSession EXTENDED) u)
    else u                                   (* "Invalid session ID!" *)
  in
  sendData [DIAGNOSTIC_SESSION_CONTROL_RES; sessionId] u.

(** [securityAccess]; the seed is copied without its last character. *)
Definition securityAccess (buffer : list Z) (u : UdsReceiver) : UdsReceiver :=
  let seedId := at_ buffer 1 in
  let seed := getSeed lua seedId in
  match seed with
  | _ :: _ =>
      withSecurityAccessType (uint8 (seedId + 0x01))
        (sendData ([SECURITY_ACCESS_REQ; seedId] ++ map code (removelast seed)) u)
  | [] =>
      if securityAccessType u =? seedId then
        withSecurityAccessType 0x00 (sendData [SECURITY_ACCESS_RES] u)
      else sendData [ERROR; 0x27; SERVICE_NOT_SUPPORTED] u
  end.

(** [UdsReceiver::proceedReceivedData].  In the [SECURITY_ACCESS_REQ] case
    the call of [securityAccess] is commented out in the source, and the
    case ends with [break].  The call of the base class
    [IsoTpReceiver::proceedReceivedData], which is not among the sources,
    is taken to leave the receiver's state alone. *)
Definition proceedReceivedData (buffer : list Z) (u : UdsReceiver) : UdsReceiver :=
  let udsServiceIdentifier := at_ buffer 0 in
  match getRawResponse ptr_lt requestByteTreeStore requestByteTree buffer with
  | Some response =>
      let raw := literalHexStrToBytes response in
      onSessionCtrl reset (sendData raw u)
  | None =>
      if udsServiceIdentifier =? READ_DATA_BY_IDENTIFIER_REQ then
        onSessionCtrl reset (readDataByIdentifier buffer u)
      else if udsServiceIdentifier =? DIAGNOSTIC_SESSION_CONTROL_REQ then
        diagnosticSessionControl buffer u
      else if udsServiceIdentifier =? SECURITY_ACCESS_REQ then
        u
      else
        sendData [ERROR; udsServiceIdentifier; SERVICE_NOT_SUPPORTED] u
  end.
End UdsReceiver.

Arguments UdsReceiver : clear implicits.

(** ** Notions used in the statements *)

(** A byte sequence read as a big-endian, resp. little-endian, number. *)
Definition bigEndianValue (bytes : list Z) : Z :=
  fold_left (fun acc b => acc * 256 + b) bytes 0.

Fixpoint littleEndianValue (bytes : list Z) : Z :=
  match bytes with
  | [] => 0
  | b :: rest => b + 256 * littleEndianValue rest
  end.

(** Byte [i] of [v], byte 0 being the least significant one. *)
Definition byteOf (v : Z) (i : Z) : Z := (v / 2 ^ (8 * i)) mod 256.

(** PGN parsing in the words of section 4.6 of the specification: decimal
    when the string has fewer than six non-separator characters and reads
    as a positive decimal number below 100000, little-endian hex bytes (up
    to three) otherwise. *)
Definition parsePGN_spec (s : list ascii) : Z :=
  if (length (cleanupString s) <? 6)%nat
     && (0 <? strtol s 10) && (strtol s 10 <? 100000)
  then strtol s 10
  else littleEndianValue (take 3 (literalHexStrToBytes s)).

(** The node that [findBestMatchingRequest] considers for a candidate. *)
Definition matchedNode {T} (h : store T) (c : ptr) : RequestByteTreeNode T :=
  deref h (getThisOrNextWildcardWithResponse h c).

(** [best] is a choice with the fewest placeholders among the candidates
    [seen] that carry a response, and no choice only if none carries
    one. *)
Definition fewestPlaceholders {T} (h : store T) (seen : list ptr) (best : option ptr)
  : Prop :=
  match best with
  | Some b =>
      (exists c, In c seen /\ b = getThisOrNextWildcardWithResponse h c
                 /\ is_Some (luaResponse (matchedNode h c)))
      /\ forall c, In c seen -> is_Some (luaResponse (matchedNode h c)) ->
                   placeholderCount (deref h b) <= placeholderCount (matchedNode h c)
  | None => forall c, In c seen -> luaResponse (matchedNode h c) = None
  end.

(** A cleaned key that ends in the multi-byte wildcard: an odd number of
    characters, the last one [*]. *)
Definition wildcardTerminated (requestString : list ascii) : Prop :=
  (length requestString mod 2)%nat <> 0%nat /\ last requestString = Some "*"%char.

(** ** Example scripts and environments *)

(** A Lua table given by its entries, in the order [getKeys()] lists
    them. *)
Definition scriptTable {T} (entries : list (string * T)) (missing : T)
    (key : list ascii) : T :=
  match List.find (fun e => String.eqb (fst e) (string_of_list_ascii key)) entries with
  | Some e => snd e
  | None => missing
  end.

Definition keysOf {T} (entries : list (string * T)) : list (list ascii) :=
  map (fun e => str (fst e)) entries.

(** The heap before the first allocation. *)
Definition emptyHeap {T} : Heap T := {| nodes := []; deleted := ∅ |}.

(** Memory that reads as zero wherever a node is allocated. *)
Definition zeroed : ptr -> bool := fun _ => false.

Definition buildFrom {T} (uninitialised : ptr -> bool) (entries : list (string * T))
    (missing : T) : Heap T * outcome (ptr * list (list ascii * exn)) :=
  buildRequestByteTree uninitialised (keysOf entries) (scriptTable entries missing)
    emptyHeap.

Definition matchIn {T} (ptr_lt : ptr -> ptr -> bool)
    (built : Heap T * outcome (ptr * list (list ascii * exn)))
    (payload : list Z) : undefined + option T :=
  match built with
  | (H, Returned (root, _)) => getValueFromTreeOnHeap ptr_lt H root payload
  | (_, Thrown _) => inr None
  | (_, Undefined u) => inl u
  end.

(** A tree with its responses in place, as the matching functions take
    it: below the root the node of the pattern [01] with the response
    ["B"] and the node of the pattern [XX] with the response ["A"]. *)
Definition answeringTree : store string :=
  [ {| subsequentByte := {[ 0x01 := 1%nat ]};
       subsequentPlaceholder := Some 2%nat;
       subsequentWildcard := None;
       luaResponse := None;
       placeholderCount := 0;
       requestLength := 0;
       wildcard := false |};
    {| subsequentByte := ∅;
       subsequentPlaceholder := None;
       subsequentWildcard := None;
       luaResponse := Some "B"%string;
       placeholderCount := 0;
       requestLength := 1;
       wildcard := false |};
    {| subsequentByte := ∅;
       subsequentPlaceholder := None;
       subsequentWildcard := None;
       luaResponse := Some "A"%string;
       placeholderCount := 1;
       requestLength := 1;
       wildcard := false |} ].

(** Pointer orders: nodes allocated later lie at higher addresses, or at
    lower ones. *)
Definition allocationOrder : ptr -> ptr -> bool := Nat.ltb.
Definition reverseAllocationOrder : ptr -> ptr -> bool := fun a b => Nat.ltb b a.

(** Modelled from the spec: [session_controller.h] is not among the
    sources.  The controller holds the current session and the
    session-timeout timer (section 4.4: Programming and Extended start the
    timer; section 5: a matched response resets it). *)
Record SessionCtl : Type := {
  currentSession : UdsSession;
  timer : option Z
}.

#[export] Instance SessionCtl_controller : SessionController SessionCtl := {|
  getCurrentUdsSession := currentSession;
  setCurrentUdsSession := fun s c => {| currentSession := s; timer := timer c |};
  start := fun t c => {| currentSession := currentSession c; timer := Some t |};
  reset := fun c => c
|}.

Definition noTables : LuaState := {|
  luaSeed := fun _ => None;
  luaReadDataByIdentifier := fun _ => None;
  luaSessionReadDataByIdentifier := fun _ _ => None
|}.

(** A script whose only table is [Seed = { [1] = "AB CD" }]. *)
Definition seedScript : LuaState := {|
  luaSeed := fun level => if level =? 1 then Some (str "AB CD") else None;
  luaReadDataByIdentifier := fun _ => None;
  luaSessionReadDataByIdentifier := fun _ _ => None
|}.

(** The tree of an empty [Raw] table: the root alone, its flag reading
    as unset. *)
Definition emptyTree : store Selector := [newNode false 0 0].

Definition idleReceiver : UdsReceiver SessionCtl := {|
  pSessionCtrl := {| currentSession := DEFAULT; timer := None |};
  securityAccessType := 0;
  isoTpSent := []
|}.

(** ** Further script helpers *)

(** [EcuLuaScript::ascii] (named [ascii_] here, [ascii] being the type of
    characters). *)
Fixpoint asciiGroups (utf8_str : list ascii) : list ascii :=
  match utf8_str with
  | [] => []
  | c :: rest =>
      " "%char :: hexDigit (Z.shiftr (code c) 4) :: hexDigit (Z.land (code c) 15)
        :: asciiGroups rest
  end.

Definition ascii_ (utf8_str : list ascii) : list ascii :=
  match utf8_str with
  | [] => []
  | _ => asciiGroups utf8_str ++ [" "%char]
  end.

(** [std::string::substr(pos, n)]: [None] stands for [std::out_of_range],
    thrown when [pos] lies behind the end. *)
Definition substr (s : list ascii) (pos n : nat) : option (list ascii) :=
  if (pos <=? length s)%nat then Some (take n (drop pos s)) else None.

(** [EcuLuaScript::getCounterByte].  The function is [noexcept]: when
    [substr] throws, the process ends ([None]). *)
Definition getCounterByte (msg : list ascii) : option (list ascii) :=
  let answer := removeSpaces msg in
  substr answer 2 2.

(** ** [J1939Simulator]: acknowledgements and the dispatch of a datagram *)

(** The three bytes [(uint8_t)(pgn >> 0)], [(uint8_t)(pgn >> 8)],
    [(uint8_t)(pgn >> 16)]. *)
Definition pgnBytes (pgn : Z) : list Z :=
  [uint8 (Z.shiftr pgn 0); uint8 (Z.shiftr pgn 8); uint8 (Z.shiftr pgn 16)].

(** [J1939Simulator::assembleACK] *)
Definition assembleACK (ackInfoByteString : list ascii) (targetAddress pgn : Z)
  : list Z :=
  let ackInfo := literalHexStrToBytes ackInfoByteString in
  [nth 0 ackInfo 0x00; nth 1 ackInfo 0x00; 0xFF; 0xFF; targetAddress] ++ pgnBytes pgn.

(** [s.find_first_of('#')] with the two substrings around the position. *)
Fixpoint splitAtHash (s : list ascii) : option (list ascii * list ascii) :=
  match s with
  | [] => None
  | c :: rest =>
      if Ascii.eqb c "#"%char then Some ([], rest)
      else match splitAtHash rest with
           | Some (before, after) => Some (c :: before, after)
           | None => None
           end
  end.

(** A call of [sendJ1939Message]: the destination address and the PGN of
    the socket address, and the payload. *)
Record J1939Message : Type := {
  destination : Z;
  messagePgn : Z;
  messagePayload : list Z
}.

Section J1939Simulator.
(** [getJ1939PGNData(pgnString, payload).payload] and
    [getJ1939PGNData(pgn).payload]: these overloads of the script are not
    among the sources, so the dispatch is stated over any two lookups. *)
Variable payloadMatchedData : list ascii -> list ascii -> list ascii.
Variable requestedData : list ascii -> list ascii.

(** [J1939Simulator::processReceivedData]: the messages it sends. *)
Definition processReceivedData (buffer : list Z) (sourceAddress pgn : Z)
  : list J1939Message :=
  let pgnString := intToHexString (pgnBytes pgn) ++ str " #" in
  let pgnRequestPayload := intToHexString buffer in
  let pgnResponse := payloadMatchedData pgnString pgnRequestPayload in
  match pgnResponse with
  | _ :: _ =>
      match splitAtHash pgnResponse with
      | Some (before, after) =>
          [{| destination := sourceAddress;
              messagePgn := parsePGN before;
              messagePayload := literalHexStrToBytes after |}]
      | None =>
          if bool_decide (take 3 pgnResponse = str "ACK") then
            [{| destination := 0xFF;
                messagePgn := 0xE800;
                messagePayload := assembleACK (drop 3 pgnResponse) sourceAddress pgn |}]
          else
            [{| destination := sourceAddress;
                messagePgn := pgn;
                messagePayload := literalHexStrToBytes pgnResponse |}]
      end
  | [] =>
      if pgn =? 0xEA00 then
        [{| destination := sourceAddress;
            messagePgn := parsePGN pgnRequestPayload;
            messagePayload := literalHexStrToBytes (requestedData pgnRequestPayload) |}]
      else []
  end.
End J1939Simulator.

(** ** [DoIPSimulator] and [DoIPSimServer] *)

(** A [DoIPSimulator]: its logical address (an [unsigned short]) and the
    tree of the [Raw] table of its script. *)
Record DoIPSimulator : Type := {
  logicalEcuAddress : Z;
  doipTreeStore : store Selector;
  doipTree : ptr
}.

(** What the server hands to the DoIP connection. *)
Inductive DoIPOutput : Type :=
| DiagnosticPayload (sourceAddress : Z) (data : list Z)
| DiagnosticAck (targetAddress : Z) (positive : bool) (ackCode : Z).

Section DoIP.
Variable ptr_lt : ptr -> ptr -> bool.

(** [DoIPSimulator::proceedDoIPData] *)
Definition proceedDoIPData (ecu : DoIPSimulator) (buffer : list Z) : list Z :=
  match getRawResponse ptr_lt (doipTreeStore ecu) (doipTree ecu) buffer with
  | Some response => literalHexStrToBytes response
  | None =>
      [ERROR; match buffer with b :: _ => b | [] => 0x00 end; SERVICE_NOT_SUPPORTED]
  end.

(** The loop of [DoIPSimServer::findECU], from index [i] on. *)
Fixpoint findECUFrom (ecus : list DoIPSimulator) (logicalAddress : Z) (i : Z) : Z :=
  match ecus with
  | [] => -1
  | ecu :: rest =>
      if logicalEcuAddress ecu =? logicalAddress then i
      else findECUFrom rest logicalAddress (i + 1)
  end.

Definition findECU (ecus : list DoIPSimulator) (logicalAddress : Z) : Z :=
  findECUFrom ecus logicalAddress 0.

(** [DoIPSimServer::receiveFromLibrary]: what is passed to
    [sendDiagnosticResponse]. *)
Definition receiveFromLibrary (ecus : list DoIPSimulator) (address : Z)
    (data : list Z) : list DoIPOutput :=
  let index := findECU ecus address in
  if negb (index =? -1) then
    match ecus !! Z.to_nat index with
    | Some ecu =>
        let response := proceedDoIPData ecu data in
        match response with
        | _ :: _ => [DiagnosticPayload (logicalEcuAddress ecu) response]
        | [] => []
        end
    | None => []                       (* [ecus.at(index)] is in range *)
    end
  else [].

(** [DoIPSimServer::diagnosticMessageReceived]: the acknowledgement sent
    and the value returned. *)
Definition diagnosticMessageReceived (ecus : list DoIPSimulator) (targetAddress : Z)
  : list DoIPOutput * bool :=
  if findECU ecus targetAddress =? -1
  then ([DiagnosticAck targetAddress false 0x03], false)
  else ([DiagnosticAck targetAddress true 0x00], true).
End DoIP.

(** ** Further notions used in the statements *)

(** The [m] low bytes of [v], most significant first. *)
Fixpoint bigEndianBytes (v : Z) (m : nat) : list Z :=
  match m with
  | O => []
  | S m' => byteOf v (Z.of_nat m') :: bigEndianBytes v m'
  end.

(** The two upper-case hex digits of each byte, without blanks. *)
Fixpoint hexPairs (bytes : list Z) : list ascii :=
  match bytes with
  | [] => []
  | b :: rest => hexDigit (b / 16) :: hexDigit (b mod 16) :: hexPairs rest
  end.

Definition isByte (b : Z) : Prop := 0 <= b < 256.

(** ** Patterns, and the walk of the matching loop *)

(** The elements of a request pattern. *)
Inductive PatternElement : Type :=
| ByteElement (b : Z)
| PlaceholderElement
| WildcardElement.

(** The elements that [addRequestToTree] reads from a cleaned key: pairs
    of characters from the left, each a placeholder or the byte that
    [literalHexStrToBytes] makes of it, and a trailing [*]. *)
Fixpoint elementsOf (requestString : list ascii) : list PatternElement :=
  match requestString with
  | c1 :: c2 :: rest =>
      (if isPlaceholder c1 c2 then PlaceholderElement
       else ByteElement (nth 0 (literalHexStrToBytes [c1; c2]) 0))
        :: elementsOf rest
  | [c] => if Ascii.eqb c "*"%char then [WildcardElement] else []
  | [] => []
  end.

(** A request is an instance of a pattern: bytes agree, a placeholder
    stands for one byte, and a wildcard for the rest of the request, which
    may be empty. *)
Fixpoint patternMatches (pattern : list PatternElement) (payload : list Z) : bool :=
  match pattern with
  | [] => match payload with [] => true | _ :: _ => false end
  | WildcardElement :: _ => true
  | ByteElement b :: pattern' =>
      match payload with
      | x :: payload' => (x =? b) && patternMatches pattern' payload'
      | [] => false
      end
  | PlaceholderElement :: pattern' =>
      match payload with
      | _ :: payload' => patternMatches pattern' payload'
      | [] => false
      end
  end.

(** The child of a node for an element. *)
Definition edge {T} (n : RequestByteTreeNode T) (e : PatternElement) : option ptr :=
  match e with
  | ByteElement b => subsequentByte n !! b
  | PlaceholderElement => subsequentPlaceholder n
  | WildcardElement => subsequentWildcard n
  end.

(** One round of the matching loop for one candidate: a wildcard node
    stays, any other node is replaced by its children for the byte, the
    placeholder and the wildcard. *)
Definition step {T} (h : store T) (p : ptr) (nextByte : Z) (q : ptr) : Prop :=
  if wildcard (deref h p) then q = p
  else edge (deref h p) (ByteElement nextByte) = Some q
       \/ edge (deref h p) PlaceholderElement = Some q
       \/ edge (deref h p) WildcardElement = Some q.

Inductive walk {T} (h : store T) : ptr -> list Z -> ptr -> Prop :=
| walk_nil (p : ptr) : walk h p [] p
| walk_cons (p m q : ptr) (nextByte : Z) (payload : list Z) :
    step h p nextByte m -> walk h m payload q -> walk h p (nextByte :: payload) q.

(** ** The tree that loading builds *)

Fixpoint placeholdersIn (pattern : list PatternElement) : Z :=
  match pattern with
  | [] => 0
  | PlaceholderElement :: pattern' => 1 + placeholdersIn pattern'
  | _ :: pattern' => placeholdersIn pattern'
  end.

Definition endsInWildcard (pattern : list PatternElement) : bool :=
  match last pattern with
  | Some WildcardElement => true
  | _ => false
  end.

(** The node reached from [p] along the edges for the elements. *)
Fixpoint descend {T} (h : store T) (p : ptr) (pattern : list PatternElement)
  : option ptr :=
  match pattern with
  | [] => Some p
  | e :: pattern' =>
      match edge (deref h p) e with
      | Some c => descend h c pattern'
      | None => None
      end
  end.

Definition isWildcardElement (e : PatternElement) : bool :=
  match e with
  | WildcardElement => true
  | _ => false
  end.

(** A node with a new child for an element. *)
Definition withEdge {T} (n : RequestByteTreeNode T) (e : PatternElement) (c : ptr)
  : RequestByteTreeNode T :=
  match e with
  | ByteElement b => withSubsequentByte n b c
  | PlaceholderElement => withSubsequentPlaceholder n c
  | WildcardElement => withSubsequentWildcard n c
  end.

(** The elements of the pairs of characters alone, as the loop of
    [addRequestToTree] reads them. *)
Fixpoint pairElements (requestString : list ascii) : list PatternElement :=
  match requestString with
  | c1 :: c2 :: rest =>
      (if isPlaceholder c1 c2 then PlaceholderElement
       else ByteElement (nth 0 (literalHexStrToBytes [c1; c2]) 0))
        :: pairElements rest
  | _ => []
  end.

(** What the builder methods maintain on a heap, as long as nothing
    undefined happens: a child is allocated after its parent; a node that
    was given a response has been deleted; a deleted node has its children
    deleted with it; the node behind a placeholder edge counts one
    placeholder more than its parent; and where the memory of the nodes
    reads as zero before it is written, the [wildcard] flag is set on the
    nodes behind wildcard edges and on no others. *)
Record treeOk {T} (uninitialised : ptr -> bool) (root : ptr) (H : Heap T)
  : Prop := {
  ok_root : (root < length (nodes H))%nat;
  ok_ordered : forall p e c,
    edge (deref (nodes H) p) e = Some c -> (p < c < length (nodes H))%nat;
  ok_deleted : forall p, p ∈ deleted H -> (p < length (nodes H))%nat;
  ok_answered : forall p,
    is_Some (luaResponse (deref (nodes H) p)) -> p ∈ deleted H;
  ok_closed : forall p e c,
    p ∈ deleted H -> edge (deref (nodes H) p) e = Some c -> c ∈ deleted H;
  ok_placeholder : forall p c,
    subsequentPlaceholder (deref (nodes H) p) = Some c ->
    placeholderCount (deref (nodes H) c) = placeholderCount (deref (nodes H) p) + 1;
  ok_flags : (forall p, uninitialised p = false) ->
    wildcard (deref (nodes H) root) = false
    /\ forall p e c, edge (deref (nodes H) p) e = Some c ->
         wildcard (deref (nodes H) c) = isWildcardElement e
}.

(** Between two keys of the loading loop, moreover, every node behind a
    wildcard edge has been deleted (it was a leaf when it was made), and
    its parent has not. *)
Definition settled {T} (H : Heap T) : Prop :=
  forall p w, subsequentWildcard (deref (nodes H) p) = Some w ->
              w ∈ deleted H /\ (p ∉ deleted H).

(** Edges and deletions that are there stay. *)
Definition keeps {T} (H H' : Heap T) : Prop :=
  (length (nodes H) <= length (nodes H'))%nat
  /\ deleted H ⊆ deleted H'
  /\ forall p e c,
       edge (deref (nodes H) p) e = Some c -> edge (deref (nodes H') p) e = Some c.

(** [H'] is [H] with the child [c] of the live node [this] for the element
    [e], and with no other new edge. *)
Definition extendedBy {T} (H H' : Heap T) (this : ptr) (e : PatternElement) (c : ptr)
  : Prop :=
  (this ∉ deleted H)
  /\ deleted H' = deleted H
  /\ edge (deref (nodes H') this) e = Some c
  /\ keeps H H'
  /\ forall p e' x, edge (deref (nodes H') p) e' = Some x ->
        edge (deref (nodes H) p) e' = Some x \/ (p = this /\ e' = e /\ x = c).

(** What a walk for the elements [pattern] from [p] to [q] leaves: the
    path is in the tree, nothing was deleted, and every node of the path
    before [q] is live. *)
Definition walked {T} (H H' : Heap T) (p : ptr) (pattern : list PatternElement)
    (q : ptr) : Prop :=
  keeps H H' /\ deleted H' = deleted H
  /\ descend (nodes H') p pattern = Some q
  /\ (q < length (nodes H'))%nat
  /\ forall path1 path2 x, pattern = path1 ++ path2 -> path2 <> [] ->
        descend (nodes H') p path1 = Some x -> x ∉ deleted H'.

(** The leaf of a key: the node of its pattern is in the tree and has
    been deleted. *)
Definition leafDeleted {T} (H : Heap T) (root : ptr) (key : list ascii) : Prop :=
  exists q, descend (nodes H) root (elementsOf (cleanupString key)) = Some q
            /\ q ∈ deleted H.

(** Why the loader ignores a key. *)
Definition ignoredFor (k : list ascii) (ex : exn) : Prop :=
  (ex = OddNumberOfDigits /\ (length (cleanupString k) mod 2)%nat <> 0%nat
   /\ last (cleanupString k) <> Some "*"%char)
  \/ (ex = WildcardAlreadyExists /\ wildcardTerminated (cleanupString k)).

(** The heap on which the loop over the keys starts: the root alone. *)
Definition rootOnly {T} (uninitialised : ptr -> bool) : Heap T :=
  {| nodes := [newNode (uninitialised 0%nat) 0 0]; deleted := ∅ |}.

(** ** The J1939 lookups of the script *)

(** [x.find('#') != string::npos] *)
Definition containsHash (key : list ascii) : bool :=
  existsb (Ascii.eqb "#"%char) key.

(** [EcuLuaScript::buildRequestByteTreeFromPGNTable]: the keys of the
    [PGNs] table that hold a [#], in the order [getKeys()] lists them. *)
Definition buildRequestByteTreeFromPGNTable (uninitialised : ptr -> bool)
    (pgnKeys : list (list ascii)) (pgnTable : list ascii -> Selector)
  : M Selector (ptr * list (list ascii * exn)) :=
  buildRequestByteTree uninitialised (List.filter containsHash pgnKeys) pgnTable.

(** [EcuLuaScript::getJ1939Response]: the tree is asked for the three
    bytes of the PGN, least significant first, followed by the payload; a
    function entry is called with the hex text of the payload alone. *)
Definition getJ1939Response (ptr_lt : ptr -> ptr -> bool) (h : store Selector)
    (requestByteTree : ptr) (pgn : Z) (payload : list Z) : list ascii :=
  let lookupPayload := pgnBytes pgn ++ payload in
  match getValueFromTree ptr_lt h requestByteTree lookupPayload with
  | Some (LuaFunction f) => f (intToHexString payload)
  | Some (LuaString s) => s
  | None => []
  end.

(** The same on a heap. *)
Definition getJ1939ResponseOnHeap (ptr_lt : ptr -> ptr -> bool) (H : Heap Selector)
    (requestByteTree : ptr) (pgn : Z) (payload : list Z) : undefined + list ascii :=
  let lookupPayload := pgnBytes pgn ++ payload in
  match getValueFromTreeOnHeap ptr_lt H requestByteTree lookupPayload with
  | inl u => inl u
  | inr (Some (LuaFunction f)) => inr (f (intToHexString payload))
  | inr (Some (LuaString s)) => inr s
  | inr None => inr []
  end.

(** An entry of the [PGNs] table as [getJ1939RequestPGNData] reads it: a
    function (called without arguments, [result] is the string returned),
    a table with the optional fields [payload] (the string it holds or
    returns) and [cycleTime], or a plain value. *)
Inductive PGNEntry : Type :=
| PGNFunction (result : list ascii)
| PGNTable (tablePayload : option (list ascii)) (tableCycleTime : option Z)
| PGNValue (s : list ascii).

Record J1939PGNData : Type := {
  cycleTime : Z;
  payload : list ascii
}.

(** [std::map::insert]: an entry that is there already is kept. *)
Definition mapInsert {V} (key : list ascii) (v : V) (m : gmap (list ascii) V)
  : gmap (list ascii) V :=
  match m !! key with
  | Some _ => m
  | None => <[key := v]> m
  end.

(** [EcuLuaScript::buildRequestPGNMap] *)
Definition buildRequestPGNMap (pgnKeys : list (list ascii))
    (pgnTable : list ascii -> PGNEntry) : gmap (list ascii) PGNEntry :=
  fold_left
    (fun pgnMap pgnKey =>
       if negb (containsHash pgnKey)
       then mapInsert (cleanupString pgnKey) (pgnTable pgnKey) pgnMap
       else pgnMap)
    (List.filter (fun x => negb (containsHash x)) pgnKeys) ∅.

(** What [getJ1939RequestPGNData] makes of an entry; [cycleTime] is an
    [unsigned int]. *)
Definition pgnDataOf (val : PGNEntry) : J1939PGNData :=
  match val with
  | PGNFunction result => {| cycleTime := 0; payload := result |}
  | PGNTable tablePayload tableCycleTime =>
      {| cycleTime := match tableCycleTime with Some c => uint32 c | None => 0 end;
         payload := match tablePayload with Some p => p | None => [] end |}
  | PGNValue s => {| cycleTime := 0; payload := s |}
  end.

(** [EcuLuaScript::getJ1939RequestPGNData] *)
Definition getJ1939RequestPGNData (pgnMap : gmap (list ascii) PGNEntry)
    (pgn : list ascii) : J1939PGNData :=
  match pgnMap !! cleanupString pgn with
  | Some val => pgnDataOf val
  | None => {| cycleTime := 0; payload := [] |}
  end.

(** * Properties *)

(** ** The UDS dispatcher *)

Section UdsReceiverFacts.
Context {SC : Type} `{SessionController SC}.
Variable lua : LuaState.
Variable ptr_lt : ptr -> ptr -> bool.
Variable h : store Selector.
Variable root : ptr.
Variable SESSION_TIME : Z.

Lemma diagnosticSessionControl_sends (buffer : list Z) (u : UdsReceiver SC) :
  isoTpSent (diagnosticSessionControl SESSION_TIME buffer u)
  = isoTpSent u ++ [[0x50; at_ buffer 1]].
Proof.
  unfold diagnosticSessionControl.
  repeat match goal with |- context [if ?c then _ else _] => destruct c end;
    reflexivity.
Qed.

Lemma diagnosticSessionControl_invalid (buffer : list Z) (u : UdsReceiver SC) :
  at_ buffer 1 <> 0x01 -> at_ buffer 1 <> 0x02 -> at_ buffer 1 <> 0x03 ->
  pSessionCtrl (diagnosticSessionControl SESSION_TIME buffer u) = pSessionCtrl u
  /\ securityAccessType (diagnosticSessionControl SESSION_TIME buffer u)
     = securityAccessType u.
Proof.
  intros H1 H2 H3. unfold diagnosticSessionControl.
  apply Z.eqb_neq in H1, H2, H3. rewrite H1, H2, H3. split; reflexivity.
Qed.

(** C10.  A request of at least two bytes that starts with 0x10 and is not
    matched by the Raw tree is answered with [0x50, sub], [sub] being its
    second byte, whatever [sub] is; when [sub] is none of 0x01, 0x02,
    0x03 the session controller (current session and timer) is left as it
    was. *)
Theorem session_control_always_positive (buffer : list Z) (u : UdsReceiver SC) :
  (2 <= length buffer)%nat ->
  nth 0 buffer 0 = 0x10 ->
  getRawResponse ptr_lt h root buffer = None ->
  let sub := nth 1 buffer 0 in
  let u' := proceedReceivedData lua ptr_lt h root SESSION_TIME buffer u in
  isoTpSent u' = isoTpSent u ++ [[0x50; sub]]
  /\ (sub <> 0x01 -> sub <> 0x02 -> sub <> 0x03 -> pSessionCtrl u' = pSessionCtrl u).
Proof.
  intros _ Hsid Hraw sub u'. subst sub u'. unfold proceedReceivedData.
  rewrite Hraw. change (at_ buffer 0) with (nth 0 buffer 0). rewrite Hsid.
  change (16 =? READ_DATA_BY_IDENTIFIER_REQ) with false.
  change (16 =? DIAGNOSTIC_SESSION_CONTROL_REQ) with true. cbn iota.
  split.
  - apply diagnosticSessionControl_sends.
  - intros H1 H2 H3. now apply diagnosticSessionControl_invalid.
Qed.

(** C4, as the code has it.  A request that starts with 0x27 and is not
    matched by the Raw tree changes nothing: no message is sent, and the
    session controller and the security-access counter keep their
    values. *)
Theorem security_access_request_unanswered (buffer : list Z) (u : UdsReceiver SC) :
  nth 0 buffer 0 = 0x27 ->
  getRawResponse ptr_lt h root buffer = None ->
  proceedReceivedData lua ptr_lt h root SESSION_TIME buffer u = u.
Proof.
  intros Hsid Hraw. unfold proceedReceivedData. rewrite Hraw.
  unfold at_. rewrite Hsid. reflexivity.
Qed.
End UdsReceiverFacts.

(** What the [securityAccess] handler does when it is called. *)
Lemma securityAccess_handler {SC : Type} (lua : LuaState) (buffer : list Z)
    (u : UdsReceiver SC) :
  let sub := nth 1 buffer 0 in
  let seed := getSeed lua sub in
  let u' := securityAccess lua buffer u in
  (seed <> [] ->
   isoTpSent u' = isoTpSent u ++ [[0x27; sub] ++ map code (removelast seed)]
   /\ securityAccessType u' = (sub + 1) mod 256)
  /\ (seed = [] -> securityAccessType u = sub ->
      isoTpSent u' = isoTpSent u ++ [[0x67]] /\ securityAccessType u' = 0)
  /\ (seed = [] -> securityAccessType u <> sub ->
      isoTpSent u' = isoTpSent u ++ [[0x7F; 0x27; 0x11]]
      /\ securityAccessType u' = securityAccessType u).
Proof.
  cbv zeta. unfold securityAccess, at_.
  destruct (getSeed lua (nth 1 buffer 0)) as [| a seed].
  - split; [congruence |]. split; intros _ Hsub.
    + apply Z.eqb_eq in Hsub. rewrite Hsub. split; reflexivity.
    + apply Z.eqb_neq in Hsub. rewrite Hsub. split; reflexivity.
  - split; [intros _; split; reflexivity |]. split; discriminate.
Qed.

Lemma session_control_always_positive_witness :
  let u' := proceedReceivedData noTables allocationOrder emptyTree 0%nat 5000
              [0x10; 0x05] idleReceiver in
  isoTpSent u' = [[0x50; 0x05]]
  /\ (0x05 <> 0x01 -> 0x05 <> 0x02 -> 0x05 <> 0x03 ->
      pSessionCtrl u' = pSessionCtrl idleReceiver).
Proof.
  apply (session_control_always_positive noTables allocationOrder emptyTree 0%nat
           5000 [0x10; 0x05] idleReceiver).
  - simpl. lia.
  - reflexivity.
  - vm_compute. reflexivity.
Defined.

Lemma security_access_request_unanswered_witness :
  proceedReceivedData seedScript allocationOrder emptyTree 0%nat 5000
    [0x27; 0x01] idleReceiver = idleReceiver.
Proof.
  apply (security_access_request_unanswered seedScript allocationOrder emptyTree
           0%nat 5000 [0x27; 0x01] idleReceiver).
  - reflexivity.
  - vm_compute. reflexivity.
Defined.

(** Scenario 4 of the specification: [0x10, 0x02] is answered with
    [0x50, 0x02] and starts the Programming session; [0x22, 0xDE, 0xAD]
    without an entry for the identifier is then refused. *)
Example scenario_session_then_unknown_identifier :
  let serve := proceedReceivedData noTables allocationOrder emptyTree 0%nat 5000 in
  let u1 := serve [0x10; 0x02] idleReceiver in
  let u2 := serve [0x22; 0xDE; 0xAD] u1 in
  isoTpSent u1 = [[0x50; 0x02]]
  /\ currentSession (pSessionCtrl u1) = PROGRAMMING
  /\ isoTpSent u2 = [[0x50; 0x02]; [0x7F; 0x22; 0x11]].
Proof. repeat split; vm_compute; reflexivity. Qed.

(** The request [0x27, 0x01] with [Seed[1]] set and nothing in the Raw
    table: the handshake would have [0x27, 0x01, seed...] sent, and some
    reply in any case; the dispatcher sends nothing. *)
Lemma security_access_no_reply :
  nth 0 [0x27; 0x01] 0 = 0x27
  /\ getRawResponse allocationOrder emptyTree 0%nat [0x27; 0x01] = None
  /\ getSeed seedScript 0x01 <> []
  /\ isoTpSent (proceedReceivedData seedScript allocationOrder emptyTree 0%nat 5000
                  [0x27; 0x01] idleReceiver) = []
  /\ securityAccessType
       (proceedReceivedData seedScript allocationOrder emptyTree 0%nat 5000
          [0x27; 0x01] idleReceiver) <> 0x01 + 1.
Proof.
  repeat split; try (vm_compute; reflexivity); vm_compute; discriminate.
Qed.

(** ** The tie-break among candidates without wildcard *)

Section TieBreak.
Context {T : Type}.
Variable h : store T.

Lemma betterMatch_fewestPlaceholders (seen : list ptr) (best : option ptr) (c : ptr) :
  (forall c', In c' (seen ++ [c]) -> is_Some (luaResponse (matchedNode h c')) ->
              wildcard (matchedNode h c') = false) ->
  fewestPlaceholders h seen best ->
  fewestPlaceholders h (seen ++ [c]) (betterMatch h best c).
Proof.
  intros Hnw Hseen.
  assert (Hold : forall c', In c' seen -> In c' (seen ++ [c]))
    by (intros; apply in_or_app; now left).
  assert (Hnew : In c (seen ++ [c])) by (apply in_or_app; right; now left).
  assert (Hsplit : forall c', In c' (seen ++ [c]) -> In c' seen \/ c' = c).
  { intros c' Hin. apply in_app_or in Hin as [Hin | [<- | []]]; auto. }
  unfold betterMatch. fold (matchedNode h c).
  destruct (luaResponse (matchedNode h c)) as [r |] eqn:Hr.
  - assert (Hresp : is_Some (luaResponse (matchedNode h c))) by (rewrite Hr; eauto).
    pose proof (Hnw c Hnew Hresp) as Hc.
    destruct best as [b |]; cbn [fewestPlaceholders] in *.
    + destruct Hseen as [(c0 & Hin0 & -> & Hresp0) Hmin].
      fold (matchedNode h c0) in *.
      rewrite (Hnw c0 (Hold _ Hin0) Hresp0), Hc. cbn [andb negb].
      destruct (Z.ltb_spec (placeholderCount (matchedNode h c))
                           (placeholderCount (matchedNode h c0))) as [Hlt | Hge].
      * split; [exists c; auto |].
        intros c' Hin' Hresp'. fold (matchedNode h c).
        destruct (Hsplit c' Hin') as [Hin | ->]; [| lia].
        specialize (Hmin c' Hin Hresp'). lia.
      * split; [exists c0; auto |].
        intros c' Hin' Hresp'. fold (matchedNode h c0).
        destruct (Hsplit c' Hin') as [Hin | ->]; [| lia].
        specialize (Hmin c' Hin Hresp'). lia.
    + split; [exists c; auto |].
      intros c' Hin' Hresp'. fold (matchedNode h c).
      destruct (Hsplit c' Hin') as [Hin | ->]; [| lia].
      rewrite (Hseen c' Hin) in Hresp'. destruct Hresp' as [? [=]].
  - destruct best as [b |]; cbn [fewestPlaceholders] in *.
    + destruct Hseen as [(c0 & Hin0 & Hb & Hresp0) Hmin]. split; [exists c0; auto |].
      intros c' Hin' Hresp'.
      destruct (Hsplit c' Hin') as [Hin | ->]; [now apply Hmin |].
      rewrite Hr in Hresp'. destruct Hresp' as [? [=]].
    + intros c' Hin'. destruct (Hsplit c' Hin') as [Hin | ->]; auto.
Qed.

(** X25.  On every tree: when no candidate that carries a response is a
    wildcard node, the loop of [findBestMatchingRequest] returns a
    candidate with the fewest placeholders among those that carry a
    response, and it returns nothing only if no candidate carries one. *)
Theorem fewest_placeholders_without_wildcards (cands : list ptr) :
  (forall c, In c cands -> is_Some (luaResponse (matchedNode h c)) ->
             wildcard (matchedNode h c) = false) ->
  fewestPlaceholders h cands (findBestMatchingRequest h cands).
Proof.
  unfold findBestMatchingRequest.
  assert (Hgen : forall rest seen best,
    (forall c, In c (seen ++ rest) -> is_Some (luaResponse (matchedNode h c)) ->
               wildcard (matchedNode h c) = false) ->
    fewestPlaceholders h seen best ->
    fewestPlaceholders h (seen ++ rest) (fold_left (betterMatch h) rest best)).
  { induction rest as [| c rest IH]; intros seen best Hnw Hseen.
    - rewrite app_nil_r. exact Hseen.
    - cbn [fold_left].
      replace (seen ++ c :: rest) with ((seen ++ [c]) ++ rest) in *
        by (now rewrite <- app_assoc).
      apply IH; [exact Hnw |].
      apply betterMatch_fewestPlaceholders; [| exact Hseen].
      intros c' Hin. apply Hnw. apply in_or_app. now left. }
  intros Hnw. apply (Hgen cands [] None); [exact Hnw |]. intros c [].
Qed.
End TieBreak.

Lemma fewest_placeholders_without_wildcards_witness :
  fewestPlaceholders answeringTree [1%nat; 2%nat]
    (findBestMatchingRequest answeringTree [1%nat; 2%nat]).
Proof.
  apply fewest_placeholders_without_wildcards.
  intros c [<- | [<- | []]] _; reflexivity.
Defined.

(** ** [createHash] *)

Lemma createHash_clears (receivedDataBytes : list ascii) :
  snd (createHash receivedDataBytes) = [].
Proof. reflexivity. Qed.

Lemma hexDigit_not_zero (k : Z) : 1 <= k < 16 -> hexDigit k <> "0"%char.
Proof.
  intros Hk.
  assert (Hc : k = 1 \/ k = 2 \/ k = 3 \/ k = 4 \/ k = 5 \/ k = 6 \/ k = 7 \/ k = 8 \/
               k = 9 \/ k = 10 \/ k = 11 \/ k = 12 \/ k = 13 \/ k = 14 \/ k = 15) by lia.
  repeat (destruct Hc as [-> | Hc]); [.. | subst k]; vm_compute; discriminate.
Qed.

(** Whatever 16-bit checksum comes out, its text is not "0000": [%X] prints
    no leading zeros, so a checksum of 0 reads "00". *)
Lemma hashOfCrc_never_0000 (crc2 : Z) :
  0 <= crc2 < 65536 -> hashOfCrc crc2 <> str "0000".
Proof.
  intros Hrange. unfold hashOfCrc, snprintfX.
  change (5 - 1)%nat with 4%nat.
  set (d := fun k => hexDigit (k mod 16)).
  assert (Hd : forall k, 0 <= k -> k / 16 = 0 -> 1 <= k -> d k <> "0"%char).
  { intros k H0 Hq H1. apply hexDigit_not_zero. Z.div_mod_to_equations. lia. }
  change (hexUpper 16 crc2 []) with
    (if crc2 / 16 =? 0 then [d crc2]
     else if crc2 / 16 / 16 =? 0 then [d (crc2 / 16); d crc2]
     else if crc2 / 16 / 16 / 16 =? 0 then [d (crc2 / 16 / 16); d (crc2 / 16); d crc2]
     else if crc2 / 16 / 16 / 16 / 16 =? 0
          then [d (crc2 / 16 / 16 / 16); d (crc2 / 16 / 16); d (crc2 / 16); d crc2]
     else hexUpper 12 (crc2 / 16 / 16 / 16 / 16)
            [d (crc2 / 16 / 16 / 16); d (crc2 / 16 / 16); d (crc2 / 16); d crc2]).
  destruct (Z.eqb_spec (crc2 / 16) 0) as [E1 | N1]; [cbn; discriminate |].
  destruct (Z.eqb_spec (crc2 / 16 / 16) 0) as [E2 | N2]; [cbn; discriminate |].
  destruct (Z.eqb_spec (crc2 / 16 / 16 / 16) 0) as [E3 | N3].
  { cbn. intros [= H _ _]. revert H.
    apply Hd; [| exact E3 |]; Z.div_mod_to_equations; lia. }
  destruct (Z.eqb_spec (crc2 / 16 / 16 / 16 / 16) 0) as [E4 | N4].
  { cbn. intros [= H _ _ _]. revert H.
    apply Hd; [| exact E4 |]; Z.div_mod_to_equations; lia. }
  exfalso. apply N4. Z.div_mod_to_equations. lia.
Qed.

(** On the empty accumulator the CRC is its start value, so the hash is
    "FFFF" and not "0000". *)
Lemma createHash_empty_not_0000 :
  fst (createHash []) = str "FFFF" /\ fst (createHash []) <> str "0000".
Proof. split; [vm_compute; reflexivity | vm_compute; discriminate]. Qed.

(** C7, as the code has it.  On the empty accumulator [createHash] returns
    "FFFF"; after every call the accumulator is empty, so that a second
    call right after the first returns "FFFF" again and leaves it empty. *)
Theorem createHash_empty_and_reset (receivedDataBytes : list ascii) :
  createHash [] = (str "FFFF", [])
  /\ snd (createHash receivedDataBytes) = []
  /\ createHash (snd (createHash receivedDataBytes)) = createHash [].
Proof.
  split; [vm_compute; reflexivity |].
  split; [apply createHash_clears |].
  now rewrite createHash_clears.
Qed.

(** ** [parsePGN] *)

Lemma c_str_length (s : list ascii) : (length (c_str s) <= length s)%nat.
Proof.
  induction s as [| c s IH]; simpl; [lia |].
  destruct (Ascii.eqb c NUL); simpl; lia.
Qed.

Lemma skipSpaces_length (s : list ascii) : (length (skipSpaces s) <= length s)%nat.
Proof.
  induction s as [| c s IH]; simpl; [lia |].
  destruct (isspace c); simpl; lia.
Qed.

Lemma digitValue_nonneg (c : ascii) (d : Z) : digitValue c = Some d -> 0 <= d.
Proof.
  unfold digitValue. intros Hd.
  repeat match type of Hd with
         | (if ?b then _ else _) = _ => destruct b eqn:?
         end; inversion Hd; subst; lia.
Qed.

(** A run of at most [length s] decimal digits stays below the matching
    power of ten. *)
Lemma strtol_digits_decimal_bound (s : list ascii) (acc : Z) :
  0 <= acc ->
  acc <= strtol_digits 10 acc s < (acc + 1) * 10 ^ Z.of_nat (length s).
Proof.
  revert acc. induction s as [| c s IH]; intros acc Hacc.
  - simpl. lia.
  - cbn [strtol_digits length].
    assert (Hpow : 10 ^ Z.of_nat (S (length s)) = 10 * 10 ^ Z.of_nat (length s)).
    { rewrite Nat2Z.inj_succ, Z.pow_succ_r by lia. reflexivity. }
    assert (Hpos : 0 < 10 ^ Z.of_nat (length s)) by (apply Z.pow_pos_nonneg; lia).
    rewrite Hpow.
    destruct (digitValue c) as [d |] eqn:Hd; [| nia].
    pose proof (digitValue_nonneg _ _ Hd) as Hd0.
    destruct (d <? 10) eqn:Hlt; [| nia].
    apply Z.ltb_lt in Hlt.
    specialize (IH (acc * 10 + d) ltac:(nia)). nia.
Qed.

(** For a string of fewer than six characters, [strtol] in base 10 yields
    fewer than six digits. *)
Lemma strtol_decimal_short (s : list ascii) :
  (length (c_str s) < 6)%nat -> -100000 < strtol s 10 < 100000.
Proof.
  intros Hlen. unfold strtol.
  pose proof (skipSpaces_length (c_str s)) as Hsk.
  set (s0 := skipSpaces (c_str s)) in *.
  assert (Hdig : forall t, (length t <= 5)%nat ->
                           0 <= strtol_digits 10 0 t < 100000).
  { intros t Ht. pose proof (strtol_digits_decimal_bound t 0 ltac:(lia)) as Hb.
    assert (10 ^ Z.of_nat (length t) <= 10 ^ 5)
      by (apply Z.pow_le_mono_r; lia).
    lia. }
  assert (Hclamp : forall v, -100000 < v < 100000 -> clampLong v = v).
  { intros v Hv. unfold clampLong, LONG_MAX, LONG_MIN.
    destruct (v >? 2 ^ 63 - 1) eqn:E1; [apply Z.gtb_lt in E1; lia |].
    destruct (v <? - 2 ^ 63) eqn:E2; [apply Z.ltb_lt in E2; lia |]. reflexivity. }
  change (10 =? 16) with false. cbn iota.
  assert (Hcase : forall (neg : bool) (t : list ascii), (length t <= 5)%nat ->
            -100000 <
            clampLong (if neg then - strtol_digits 10 0 t else strtol_digits 10 0 t)
            < 100000).
  { intros neg t Ht. specialize (Hdig t Ht).
    destruct neg; rewrite Hclamp; lia. }
  destruct s0 as [| c t] eqn:Es0.
  - apply (Hcase false []). simpl. lia.
  - assert (Ht : (length t <= 5)%nat) by (simpl in Hsk; lia).
    assert (Hct : (length (c :: t) <= 5)%nat) by (simpl in *; lia).
    destruct (Ascii.ascii_dec c "-"%char) as [-> | Hm].
    { apply (Hcase true t Ht). }
    destruct (Ascii.ascii_dec c "+"%char) as [-> | Hp].
    { apply (Hcase false t Ht). }
    assert (Hshape :
      (match c :: t with
       | "-"%char :: t0 => (true, t0)
       | "+"%char :: t0 => (false, t0)
       | _ => (false, c :: t)
       end) = (false, c :: t)).
    { destruct c as [[] [] [] [] [] [] [] []]; try reflexivity; congruence. }
    rewrite Hshape. apply (Hcase false (c :: t) Hct).
Qed.

Lemma bytesOfPairs_range (s : list ascii) :
  Forall (fun b => 0 <= b < 256) (bytesOfPairs s).
Proof.
  assert (Hgen : forall n s, (length s <= n)%nat ->
                             Forall (fun b => 0 <= b < 256) (bytesOfPairs s)).
  { intros n. induction n as [| n IH]; intros [| c1 [| c2 rest]] Hlen;
      simpl in *; try lia; repeat constructor;
      try (unfold uint8; apply Z.mod_pos_bound; lia).
    apply IH. lia. }
  apply (Hgen (length s)). lia.
Qed.

Lemma literalHexStrToBytes_range (s : list ascii) :
  Forall (fun b => 0 <= b < 256) (literalHexStrToBytes s).
Proof. apply bytesOfPairs_range. Qed.

Lemma lor_shiftl_byte (x b : Z) :
  0 <= x -> 0 <= b < 256 -> Z.lor (Z.shiftl x 8) b = 256 * x + b.
Proof.
  intros Hx Hb.
  assert (Hland : Z.land (Z.shiftl x 8) b = 0).
  { apply Z.bits_inj'. intros n Hn. rewrite Z.land_spec, Z.bits_0.
    destruct (Z.ltb_spec n 8) as [Hlt | Hge].
    - rewrite Z.shiftl_spec_low by lia. reflexivity.
    - replace b with (b mod 2 ^ 8) by (apply Z.mod_small; lia).
      rewrite Z.mod_pow2_bits_high by lia. apply andb_false_r. }
  rewrite <- Z.lxor_lor by exact Hland.
  rewrite <- Z.add_nocarry_lxor by exact Hland.
  rewrite Z.shiftl_mul_pow2 by lia. lia.
Qed.

Lemma littleEndianValue_bound (bytes : list Z) :
  Forall (fun b => 0 <= b < 256) bytes ->
  0 <= littleEndianValue bytes < 256 ^ Z.of_nat (length bytes).
Proof.
  induction 1 as [| b rest Hb _ IH]; [simpl; lia |].
  cbn [littleEndianValue length].
  rewrite Nat2Z.inj_succ, Z.pow_succ_r by lia. lia.
Qed.

(** The shift-and-or loop on a [uint32_t] computes the little-endian value
    of up to four bytes. *)
Lemma littleEndianBytes_value (bytes : list Z) :
  Forall (fun b => 0 <= b < 256) bytes ->
  (length bytes <= 4)%nat ->
  littleEndianBytes bytes = littleEndianValue bytes.
Proof.
  unfold littleEndianBytes.
  induction 1 as [| b rest Hb Hrest IH]; intros Hlen; [reflexivity |].
  cbn [rev littleEndianValue length] in *.
  rewrite fold_left_app. cbn [fold_left].
  rewrite IH by lia.
  pose proof (littleEndianValue_bound rest Hrest) as Hbound.
  assert (Hpow : 256 ^ Z.of_nat (length rest) <= 256 ^ 3)
    by (apply Z.pow_le_mono_r; lia).
  change 255 with (Z.ones 8). rewrite Z.land_ones by lia.
  rewrite (Z.mod_small b) by (change (2 ^ 8) with 256; lia).
  rewrite Z.shiftl_mul_pow2 by lia.
  unfold uint32. rewrite Z.mod_small by lia.
  rewrite <- Z.shiftl_mul_pow2 by lia.
  rewrite lor_shiftl_byte by lia. lia.
Qed.

(** C9, as the code has it.  [parsePGN] returns what [strtol] reads from
    the string in base 10 exactly when the string has fewer than six
    characters, separators included, and that number is positive (it is
    then below 100000).  Otherwise it returns the little-endian value of
    the hex bytes of the string when there are at most three, and 0 when
    there are more. *)
Theorem parsePGN_decimal_or_hex (s : list ascii) :
  parsePGN s =
    if (length (c_str s) <? 6)%nat && (0 <? strtol s 10) then strtol s 10
    else if (length (literalHexStrToBytes s) <=? 3)%nat
         then littleEndianValue (literalHexStrToBytes s)
         else 0.
Proof.
  unfold parsePGN, strnlen.
  assert (Hhex :
    (if (length (literalHexStrToBytes s) <=? 3)%nat
     then littleEndianBytes (literalHexStrToBytes s) else 0)
    = (if (length (literalHexStrToBytes s) <=? 3)%nat
       then littleEndianValue (literalHexStrToBytes s) else 0)).
  { destruct (Nat.leb_spec (length (literalHexStrToBytes s)) 3); [| reflexivity].
    apply littleEndianBytes_value; [apply literalHexStrToBytes_range | lia]. }
  destruct (Nat.ltb_spec (length (c_str s)) 6) as [Hshort | Hlong].
  - replace (Z.min (Z.of_nat (length (c_str s))) 6 <? 6) with true
      by (symmetry; apply Z.ltb_lt; lia).
    pose proof (strtol_decimal_short s Hshort) as Hv.
    cbn [andb]. unfold uint32.
    destruct (Z.ltb_spec 0 (strtol s 10)) as [Hpos | Hneg].
    + rewrite Z.mod_small by lia.
      replace (strtol s 10 =? 0) with false by (symmetry; apply Z.eqb_neq; lia).
      replace (strtol s 10 >? 99999) with false
        by (symmetry; rewrite Z.gtb_ltb; apply Z.ltb_ge; lia).
      reflexivity.
    + replace ((strtol s 10 mod 4294967296 =? 0)
               || (strtol s 10 mod 4294967296 >? 99999)) with true; [exact Hhex |].
      symmetry. apply orb_true_iff.
      destruct (Z.eq_dec (strtol s 10) 0) as [-> | Hnz]; [left; reflexivity |].
      right. apply Z.gtb_lt.
      rewrite <- (Z.mod_add _ 1) by lia.
      rewrite Z.mod_small by lia. lia.
  - replace (Z.min (Z.of_nat (length (c_str s))) 6 <? 6) with false
      by (symmetry; apply Z.ltb_ge; lia).
    cbn [andb Z.eqb orb]. exact Hhex.
Qed.

(** The text before [#] in the response ["65226 # 01 02"]: five digits and
    a blank.  It has fewer than six non-separator characters and reads as
    the decimal number 65226, but [parsePGN] takes the hex branch. *)
Lemma parsePGN_trailing_blank :
  parsePGN (str "65226 ") = 402021
  /\ parsePGN_spec (str "65226 ") = 65226
  /\ parsePGN (str "65226 ") <> parsePGN_spec (str "65226 ").
Proof.
  split; [vm_compute; reflexivity |].
  split; [vm_compute; reflexivity | vm_compute; discriminate].
Qed.

(** ** [toByteResponse] *)

Ltac cases16 a H :=
  let Hc := fresh "Hc" in
  assert (Hc : a = 0 \/ a = 1 \/ a = 2 \/ a = 3 \/ a = 4 \/ a = 5 \/ a = 6 \/ a = 7 \/
               a = 8 \/ a = 9 \/ a = 10 \/ a = 11 \/ a = 12 \/ a = 13 \/ a = 14 \/
               a = 15) by lia;
  clear H;
  repeat (destruct Hc as [-> | Hc]); [.. | subst a].

Lemma hexDigit_plain (a : Z) :
  0 <= a < 16 -> hexDigit a <> NUL /\ hexDigit a <> " "%char.
Proof.
  intros Ha. cases16 a Ha; split; vm_compute; discriminate.
Qed.

Lemma strtol_hex_pair (a b : Z) :
  0 <= a < 16 -> 0 <= b < 16 ->
  uint8 (strtol [hexDigit a; hexDigit b] 16) = 16 * a + b.
Proof.
  intros Ha Hb. cases16 a Ha; cases16 b Hb; vm_compute; reflexivity.
Qed.

Lemma nibble_range (x : Z) : 0 <= Z.land x 15 < 16.
Proof. change 15 with (Z.ones 4). rewrite Z.land_ones by lia. apply Z.mod_pos_bound. lia. Qed.

Lemma c_str_snoc_NUL (pre : list ascii) :
  Forall (fun c => c <> NUL) pre -> c_str (pre ++ [NUL]) = pre.
Proof.
  induction 1 as [| c pre Hc _ IH]; [reflexivity |].
  simpl. destruct (Ascii.eqb_spec c NUL); [contradiction |]. now rewrite IH.
Qed.

Lemma terminateAt_snoc (pre : list ascii) (c : ascii) (space : Z) :
  Forall (fun c => c <> NUL) pre ->
  space = Z.of_nat (length pre) + 1 ->
  terminateAt space (pre ++ [c]) = pre.
Proof.
  intros Hpre ->. unfold terminateAt.
  replace (Z.to_nat (Z.of_nat (length pre) + 1 - 1)) with (length pre + 0)%nat by lia.
  rewrite insert_app_r. simpl. now apply c_str_snoc_NUL.
Qed.

Lemma removeSpaces_app (s t : list ascii) :
  removeSpaces (s ++ t) = removeSpaces s ++ removeSpaces t.
Proof.
  induction s as [| c s IH]; [reflexivity |]. simpl.
  destruct (Ascii.eqb c " "%char); simpl; now rewrite IH.
Qed.

Lemma hex_pair_byte (v hi lo : Z) :
  0 <= lo -> hi = lo + 4 ->
  uint8 (strtol [hexDigit (Z.land (Z.shiftr v hi) 15);
                 hexDigit (Z.land (Z.shiftr v lo) 15)] 16)
  = (v / 2 ^ lo) mod 256.
Proof.
  intros Hlo ->. rewrite strtol_hex_pair by apply nibble_range.
  change 15 with (Z.ones 4). rewrite !Z.land_ones by lia.
  rewrite !Z.shiftr_div_pow2 by lia.
  rewrite Z.pow_add_r by lia.
  assert (Hp : 0 < 2 ^ lo) by (apply Z.pow_pos_nonneg; lia).
  rewrite <- Z.div_div by lia.
  generalize (v / 2 ^ lo). intros w. change (2 ^ 4) with 16.
  Z.div_mod_to_equations. lia.
Qed.

Lemma zeroGroups_noNUL (z : nat) : Forall (fun c => c <> NUL) (zeroGroups z).
Proof. induction z; simpl; repeat constructor; try discriminate; assumption. Qed.

Lemma bytes_zeroGroups (z : nat) (rest : list ascii) :
  bytesOfPairs (removeSpaces (zeroGroups z) ++ rest) = repeat 0 z ++ bytesOfPairs rest.
Proof.
  induction z as [| z IH]; [reflexivity |].
  cbn [zeroGroups]. cbn -[bytesOfPairs]. cbn [bytesOfPairs app repeat].
  rewrite IH. reflexivity.
Qed.

Lemma bigEndianValue_zeros (z : nat) (l : list Z) :
  bigEndianValue (repeat 0 z ++ l) = bigEndianValue l.
Proof.
  unfold bigEndianValue. induction z as [| z IH]; [reflexivity |]. simpl. exact IH.
Qed.

Lemma toByteResponse_padded (v : Z) (z : nat) :
  literalHexStrToBytes
    (terminateAt ((4 + Z.of_nat z) * CHAR_SP)
                 (zeroGroups z ++ hexGroups 4 v ((4 * 2 - 1) * 4)))
  = repeat 0 z ++ [byteOf v 3; byteOf v 2; byteOf v 1; byteOf v 0].
Proof.
  pose proof (fun j => proj1 (hexDigit_plain _ (nibble_range (Z.shiftr v j)))) as HN.
  pose proof (fun j => proj2 (hexDigit_plain _ (nibble_range (Z.shiftr v j)))) as HS.
  set (d := fun j => hexDigit (Z.land (Z.shiftr v j) 15)) in *.
  change (hexGroups 4 v ((4 * 2 - 1) * 4))
    with ([d 28; d 24; " "%char; d 20; d 16; " "%char; d 12; d 8; " "%char; d 4; d 0]
            ++ [" "%char]).
  rewrite app_assoc.
  rewrite terminateAt_snoc.
  - unfold literalHexStrToBytes. rewrite removeSpaces_app, bytes_zeroGroups.
    f_equal. cbn [removeSpaces].
    repeat match goal with
           | |- context [Ascii.eqb (d ?j) " "%char] =>
               destruct (Ascii.eqb_spec (d j) " "%char) as [E | _];
               [exfalso; exact (HS j E) |]
           end.
    cbn [Ascii.eqb Bool.eqb bytesOfPairs]. subst d. cbn beta.
    rewrite (hex_pair_byte v 28 24), (hex_pair_byte v 20 16),
      (hex_pair_byte v 12 8), (hex_pair_byte v 4 0) by lia.
    reflexivity.
  - apply Forall_app. split; [apply zeroGroups_noNUL |].
    repeat constructor; try discriminate; apply HN.
  - rewrite length_app. 
    assert (length (zeroGroups z) = (3 * z)%nat) by (induction z; simpl; lia).
    unfold CHAR_SP. simpl length. lia.
Qed.

(** The three lengths below four: the low bytes of the value, most
    significant first. *)
Lemma toByteResponse_truncated (v : Z) :
  literalHexStrToBytes (toByteResponse v 1) = [byteOf v 0]
  /\ literalHexStrToBytes (toByteResponse v 2) = [byteOf v 1; byteOf v 0]
  /\ literalHexStrToBytes (toByteResponse v 3) = [byteOf v 2; byteOf v 1; byteOf v 0].
Proof.
  pose proof (fun j => proj1 (hexDigit_plain _ (nibble_range (Z.shiftr v j)))) as HN.
  pose proof (fun j => proj2 (hexDigit_plain _ (nibble_range (Z.shiftr v j)))) as HS.
  split; [| split].
  1: change (toByteResponse v 1) with
       (terminateAt 3 ([hexDigit (Z.land (Z.shiftr v 4) 15);
                        hexDigit (Z.land (Z.shiftr v 0) 15)] ++ [" "%char])).
  2: change (toByteResponse v 2) with
       (terminateAt 6 ([hexDigit (Z.land (Z.shiftr v 12) 15);
                        hexDigit (Z.land (Z.shiftr v 8) 15); " "%char;
                        hexDigit (Z.land (Z.shiftr v 4) 15);
                        hexDigit (Z.land (Z.shiftr v 0) 15)] ++ [" "%char])).
  3: change (toByteResponse v 3) with
       (terminateAt 9 ([hexDigit (Z.land (Z.shiftr v 20) 15);
                        hexDigit (Z.land (Z.shiftr v 16) 15); " "%char;
                        hexDigit (Z.land (Z.shiftr v 12) 15);
                        hexDigit (Z.land (Z.shiftr v 8) 15); " "%char;
                        hexDigit (Z.land (Z.shiftr v 4) 15);
                        hexDigit (Z.land (Z.shiftr v 0) 15)] ++ [" "%char])).
  all: rewrite terminateAt_snoc;
    [ unfold literalHexStrToBytes; cbn [removeSpaces];
      repeat match goal with
             | |- context [Ascii.eqb (hexDigit (Z.land (Z.shiftr ?x ?j) 15)) " "%char] =>
                 destruct (Ascii.eqb_spec (hexDigit (Z.land (Z.shiftr x j) 15)) " "%char)
                   as [E | _];
                 [exfalso; exact (HS j E) |]
             end;
      cbn [Ascii.eqb Bool.eqb bytesOfPairs];
      rewrite ?(hex_pair_byte v 20 16), ?(hex_pair_byte v 12 8),
        ?(hex_pair_byte v 4 0) by lia;
      reflexivity
    | repeat constructor; try discriminate; apply HN
    | reflexivity ].
Qed.

Lemma toByteResponse_ge_4 (v n : Z) :
  4 <= n ->
  literalHexStrToBytes (toByteResponse v n)
  = repeat 0 (Z.to_nat (Z.min n 4096 - 4))
      ++ [byteOf v 3; byteOf v 2; byteOf v 1; byteOf v 0].
Proof.
  intros Hn. unfold toByteResponse, MAX_UDS_SIZE.
  replace (if n >? 4096 then 4096 else n) with (Z.min n 4096)
    by (destruct (Z.gtb_spec n 4096); lia).
  set (m := Z.min n 4096).
  assert (Hm : 4 <= m) by (subst m; lia).
  replace (m - 4 <? 0) with false by (symmetry; apply Z.ltb_ge; lia).
  replace (4 + (m - 4)) with (4 + Z.of_nat (Z.to_nat (m - 4))) by lia.
  apply toByteResponse_padded.
Qed.

Lemma byteOf_range (v i : Z) : 0 <= byteOf v i < 256.
Proof. unfold byteOf. apply Z.mod_pos_bound. lia. Qed.

(** C8.  For a 32-bit value [v] and a length [n >= 1], the hex string of
    [toByteResponse v n], with its blanks removed and read back pair by
    pair, is [min n 4096] bytes whose big-endian value is [v] reduced to
    its low [min n 4096] bytes: zeros in front when more than four bytes
    are asked for, the high bytes dropped when fewer. *)
Theorem toByteResponse_roundtrip (v n : Z) :
  0 <= v < 2 ^ 32 ->
  1 <= n ->
  let m := Z.min n 4096 in
  let bytes := literalHexStrToBytes (toByteResponse v n) in
  length bytes = Z.to_nat m
  /\ Forall (fun b => 0 <= b < 256) bytes
  /\ bigEndianValue bytes = v mod 256 ^ m.
Proof.
  intros Hv Hn m bytes. subst bytes.
  split; [| split; [apply literalHexStrToBytes_range |]].
  - destruct (Z_lt_le_dec n 4) as [Hlt | Hge].
    + assert (Hc : n = 1 \/ n = 2 \/ n = 3) by lia.
      destruct (toByteResponse_truncated v) as (H1 & H2 & H3).
      destruct Hc as [-> | [-> | ->]]; rewrite ?H1, ?H2, ?H3; reflexivity.
    + rewrite toByteResponse_ge_4 by lia. fold m.
      rewrite length_app, repeat_length. simpl. subst m. lia.
  - destruct (Z_lt_le_dec n 4) as [Hlt | Hge].
    + assert (Hc : n = 1 \/ n = 2 \/ n = 3) by lia.
      destruct (toByteResponse_truncated v) as (H1 & H2 & H3).
      destruct Hc as [-> | [-> | ->]]; rewrite ?H1, ?H2, ?H3;
        subst m; unfold bigEndianValue, byteOf; cbn [fold_left];
        match goal with |- context [Z.min ?a ?b] =>
          let r := eval vm_compute in (Z.min a b) in change (Z.min a b) with r end;
        repeat match goal with |- context [2 ^ ?e] =>
          let r := eval vm_compute in (2 ^ e) in change (2 ^ e) with r end;
        repeat match goal with |- context [256 ^ ?e] =>
          let r := eval vm_compute in (256 ^ e) in change (256 ^ e) with r end;
        Z.div_mod_to_equations; lia.
    + rewrite toByteResponse_ge_4 by lia. rewrite bigEndianValue_zeros.
      assert (Hm : 4 <= m) by (subst m; lia).
      assert (Hpow : 2 ^ 32 <= 256 ^ m).
      { change (2 ^ 32) with (256 ^ 4). apply Z.pow_le_mono_r; lia. }
      rewrite (Z.mod_small v) by lia.
      unfold bigEndianValue, byteOf; cbn [fold_left].
      repeat match goal with |- context [2 ^ ?e] =>
        let r := eval vm_compute in (2 ^ e) in change (2 ^ e) with r end.
      change (2 ^ 32) with 4294967296 in Hv. clear Hpow.
      Z.div_mod_to_equations. lia.
Qed.

Lemma toByteResponse_roundtrip_witness :
  let bytes := literalHexStrToBytes (toByteResponse 13248 3) in
  length bytes = Z.to_nat (Z.min 3 4096)
  /\ Forall (fun b => 0 <= b < 256) bytes
  /\ bigEndianValue bytes = 13248 mod 256 ^ (Z.min 3 4096).
Proof.
  apply (toByteResponse_roundtrip 13248 3); [split; [lia | reflexivity] | lia].
Defined.

Example toByteResponse_examples :
  toByteResponse 13248 2 = str "33 C0"
  /\ toByteResponse 13248 3 = str "00 33 C0"
  /\ toByteResponse 13248 1 = str "C0"
  /\ toByteResponse 13248 6 = str "00 00 00 00 33 C0".
Proof. repeat split; vm_compute; reflexivity. Qed.

(** ** Keys as the loader reads them *)

Lemma hexPair_nonempty (c1 c2 : ascii) :
  c1 <> " "%char -> c2 <> " "%char ->
  literalHexStrToBytes [c1; c2] = [uint8 (strtol [c1; c2] 16)].
Proof.
  intros H1 H2. unfold literalHexStrToBytes. simpl.
  destruct (Ascii.eqb_spec c1 " "%char); [contradiction |].
  destruct (Ascii.eqb_spec c2 " "%char); [contradiction |]. reflexivity.
Qed.

Lemma cleanupString_noSpaces (k : list ascii) :
  Forall (fun a : ascii => a <> " "%char) (cleanupString k).
Proof.
  induction k as [| a k IH]; simpl; [constructor |].
  destruct (isSeparator a) eqn:Hsep; [exact IH |].
  constructor; [| exact IH]. intros ->. discriminate.
Qed.

(** * Further properties *)

(** ** Hex strings and bytes *)

Lemma hexDigit_of_byte (b : Z) :
  isByte b -> 0 <= b / 16 < 16 /\ 0 <= b mod 16 < 16.
Proof. unfold isByte. intros Hb. Z.div_mod_to_equations. lia. Qed.

Lemma removeSpaces_hexPairs (bytes : list Z) :
  Forall isByte bytes -> removeSpaces (hexPairs bytes) = hexPairs bytes.
Proof.
  induction 1 as [| b rest Hb _ IH]; [reflexivity |].
  destruct (hexDigit_of_byte b Hb) as [Hhi Hlo].
  cbn [hexPairs removeSpaces].
  destruct (Ascii.eqb_spec (hexDigit (b / 16)) " "%char) as [E | _];
    [exfalso; exact (proj2 (hexDigit_plain _ Hhi) E) |].
  destruct (Ascii.eqb_spec (hexDigit (b mod 16)) " "%char) as [E | _];
    [exfalso; exact (proj2 (hexDigit_plain _ Hlo) E) |].
  now rewrite IH.
Qed.

Lemma removeSpaces_intToHexString (bytes : list Z) :
  Forall isByte bytes -> removeSpaces (intToHexString bytes) = hexPairs bytes.
Proof.
  induction 1 as [| b rest Hb Hrest IH]; [reflexivity |].
  destruct (hexDigit_of_byte b Hb) as [Hhi Hlo].
  assert (Hpair : forall tail,
    removeSpaces (hexDigit (b / 16) :: hexDigit (b mod 16) :: tail)
    = hexDigit (b / 16) :: hexDigit (b mod 16) :: removeSpaces tail).
  { intros tail. cbn [removeSpaces].
    destruct (Ascii.eqb_spec (hexDigit (b / 16)) " "%char) as [E | _];
      [exfalso; exact (proj2 (hexDigit_plain _ Hhi) E) |].
    destruct (Ascii.eqb_spec (hexDigit (b mod 16)) " "%char) as [E | _];
      [exfalso; exact (proj2 (hexDigit_plain _ Hlo) E) |]. reflexivity. }
  destruct rest as [| b' rest'].
  - cbn [intToHexString hexPairs]. now rewrite Hpair.
  - change (intToHexString (b :: b' :: rest'))
      with (hexDigit (b / 16) :: hexDigit (b mod 16) :: " "%char
              :: intToHexString (b' :: rest')).
    rewrite Hpair. cbn [removeSpaces Ascii.eqb Bool.eqb]. cbn [hexPairs] in *.
    now rewrite IH.
Qed.

Lemma bytesOfPairs_hexPairs (bytes : list Z) :
  Forall isByte bytes -> bytesOfPairs (hexPairs bytes) = bytes.
Proof.
  induction 1 as [| b rest Hb _ IH]; [reflexivity |].
  destruct (hexDigit_of_byte b Hb) as [Hhi Hlo].
  cbn [hexPairs bytesOfPairs]. rewrite strtol_hex_pair by assumption.
  rewrite IH. f_equal. unfold isByte in Hb. Z.div_mod_to_equations. lia.
Qed.

(** X1.  The hex text that [intToHexString] makes of a request reads back,
    through [literalHexStrToBytes], as the bytes of the request. *)
Theorem intToHexString_roundtrip (bytes : list Z) :
  Forall isByte bytes ->
  literalHexStrToBytes (intToHexString bytes) = bytes.
Proof.
  intros Hbytes. unfold literalHexStrToBytes.
  rewrite removeSpaces_intToHexString by exact Hbytes.
  now apply bytesOfPairs_hexPairs.
Qed.

Lemma intToHexString_roundtrip_witness :
  literalHexStrToBytes (intToHexString [0x22; 0xF1; 0x90]) = [0x22; 0xF1; 0x90].
Proof.
  apply (intToHexString_roundtrip [0x22; 0xF1; 0x90]).
  repeat constructor; unfold isByte; lia.
Defined.

Lemma code_isByte (c : ascii) : isByte (code c).
Proof.
  unfold isByte, code. pose proof (nat_ascii_bounded c) as Hb. lia.
Qed.

Lemma removeSpaces_asciiGroups (s : list ascii) :
  removeSpaces (asciiGroups s) = hexPairs (map code s).
Proof.
  induction s as [| c rest IH]; [reflexivity |].
  pose proof (code_isByte c) as Hc.
  destruct (hexDigit_of_byte _ Hc) as [Hhi Hlo].
  cbn [asciiGroups map hexPairs removeSpaces Ascii.eqb Bool.eqb].
  rewrite Z.shiftr_div_pow2 by lia. change (2 ^ 4) with 16.
  change 15 with (Z.ones 4). rewrite Z.land_ones by lia. change (2 ^ 4) with 16.
  destruct (Ascii.eqb_spec (hexDigit (code c / 16)) " "%char) as [E | _];
    [exfalso; exact (proj2 (hexDigit_plain _ Hhi) E) |].
  destruct (Ascii.eqb_spec (hexDigit (code c mod 16)) " "%char) as [E | _];
    [exfalso; exact (proj2 (hexDigit_plain _ Hlo) E) |].
  now rewrite IH.
Qed.

(** X2.  [ascii] is undone by [literalHexStrToBytes]: the bytes read from
    [ascii s] are the character codes of [s].  The text is empty for the
    empty string and otherwise has three characters per byte and one blank
    more, with a blank at either end. *)
Theorem ascii_roundtrip (s : list ascii) :
  literalHexStrToBytes (ascii_ s) = map code s
  /\ match s with
     | [] => ascii_ s = []
     | _ :: _ =>
         length (ascii_ s) = (3 * length s + 1)%nat
         /\ head (ascii_ s) = Some " "%char /\ last (ascii_ s) = Some " "%char
     end.
Proof.
  split.
  - destruct s as [| c rest]; [reflexivity |].
    unfold ascii_, literalHexStrToBytes.
    rewrite removeSpaces_app, removeSpaces_asciiGroups.
    cbn [removeSpaces Ascii.eqb Bool.eqb].
    rewrite app_nil_r. apply bytesOfPairs_hexPairs.
    apply List.Forall_forall. intros b Hb. apply in_map_iff in Hb as (c' & <- & _).
    apply code_isByte.
  - destruct s as [| c rest]; [reflexivity |].
    unfold ascii_. split; [| split].
    + rewrite length_app. cbn [length].
      assert (Hlen : forall t, length (asciiGroups t) = (3 * length t)%nat)
        by (induction t; simpl; lia).
      rewrite Hlen. simpl. lia.
    + reflexivity.
    + apply last_snoc.
Qed.

(** ** [toByteResponse] and [intToHexString] agree *)

Lemma nibbles_of_byte (v i : Z) :
  0 <= i ->
  Z.land (Z.shiftr v (8 * i + 4)) 15 = byteOf v i / 16
  /\ Z.land (Z.shiftr v (8 * i)) 15 = byteOf v i mod 16.
Proof.
  intros Hi. unfold byteOf.
  change 15 with (Z.ones 4). rewrite !Z.land_ones by lia.
  rewrite !Z.shiftr_div_pow2 by lia.
  rewrite Z.pow_add_r by lia.
  assert (Hp : 0 < 2 ^ (8 * i)) by (apply Z.pow_pos_nonneg; lia).
  rewrite <- Z.div_div by lia.
  generalize (v / 2 ^ (8 * i)). intros w. change (2 ^ 4) with 16.
  split; Z.div_mod_to_equations; lia.
Qed.

Lemma byteOf_high (v i : Z) : 0 <= v < 2 ^ 32 -> 4 <= i -> byteOf v i = 0.
Proof.
  intros Hv Hi. unfold byteOf.
  assert (Hpow : 2 ^ 32 <= 2 ^ (8 * i)) by (apply Z.pow_le_mono_r; lia).
  rewrite Z.div_small by lia. reflexivity.
Qed.

Lemma bigEndianBytes_padded (v : Z) (z : nat) :
  0 <= v < 2 ^ 32 ->
  bigEndianBytes v (z + 4) = repeat 0 z ++ bigEndianBytes v 4.
Proof.
  intros Hv. induction z as [| z IH]; [reflexivity |].
  cbn [Nat.add bigEndianBytes repeat app]. rewrite IH.
  rewrite byteOf_high by lia. reflexivity.
Qed.

Lemma intToHexString_zeros (z : nat) (rest : list Z) :
  rest <> [] ->
  intToHexString (repeat 0 z ++ rest) = zeroGroups z ++ intToHexString rest.
Proof.
  intros Hrest. induction z as [| z IH]; [reflexivity |].
  cbn [repeat app zeroGroups].
  destruct (repeat 0 z ++ rest) as [| b tail] eqn:Htail.
  - destruct z; cbn in Htail; [congruence | discriminate].
  - change (intToHexString (0 :: b :: tail))
      with (hexDigit (0 / 16) :: hexDigit (0 mod 16) :: " "%char
              :: intToHexString (b :: tail)).
    rewrite IH. reflexivity.
Qed.

(** X3.  [toByteResponse v n] is the text that [intToHexString] gives for
    the [min n 4096] low bytes of [v], most significant first: the two
    renderings of bytes as hex text agree. *)
Theorem toByteResponse_is_intToHexString (v n : Z) :
  0 <= v < 2 ^ 32 ->
  1 <= n ->
  toByteResponse v n
  = intToHexString (bigEndianBytes v (Z.to_nat (Z.min n 4096))).
Proof.
  intros Hv Hn.
  pose proof (fun j => proj1 (hexDigit_plain _ (nibble_range (Z.shiftr v j)))) as HN.
  assert (Hnib : forall i, 0 <= i ->
    hexDigit (Z.land (Z.shiftr v (8 * i + 4)) 15) = hexDigit (byteOf v i / 16)
    /\ hexDigit (Z.land (Z.shiftr v (8 * i)) 15) = hexDigit (byteOf v i mod 16)).
  { intros i Hi. destruct (nibbles_of_byte v i Hi) as [-> ->]. now split. }
  destruct (Hnib 0 ltac:(lia)) as [H0h H0l].
  destruct (Hnib 1 ltac:(lia)) as [H1h H1l].
  destruct (Hnib 2 ltac:(lia)) as [H2h H2l].
  destruct (Hnib 3 ltac:(lia)) as [H3h H3l].
  change (8 * 0 + 4) with 4 in H0h. change (8 * 0) with 0 in H0l.
  change (8 * 1 + 4) with 12 in H1h. change (8 * 1) with 8 in H1l.
  change (8 * 2 + 4) with 20 in H2h. change (8 * 2) with 16 in H2l.
  change (8 * 3 + 4) with 28 in H3h. change (8 * 3) with 24 in H3l.
  clear Hnib.
  destruct (Z_lt_le_dec n 4) as [Hlt | Hge].
  - assert (Hc : n = 1 \/ n = 2 \/ n = 3) by lia.
    destruct Hc as [-> | [-> | ->]].
    + change (toByteResponse v 1) with
        (terminateAt 3 ([hexDigit (Z.land (Z.shiftr v 4) 15);
                         hexDigit (Z.land (Z.shiftr v 0) 15)] ++ [" "%char])).
      rewrite terminateAt_snoc;
        [| repeat constructor; apply HN | reflexivity].
      rewrite H0h, H0l. reflexivity.
    + change (toByteResponse v 2) with
        (terminateAt 6 ([hexDigit (Z.land (Z.shiftr v 12) 15);
                         hexDigit (Z.land (Z.shiftr v 8) 15); " "%char;
                         hexDigit (Z.land (Z.shiftr v 4) 15);
                         hexDigit (Z.land (Z.shiftr v 0) 15)] ++ [" "%char])).
      rewrite terminateAt_snoc;
        [| repeat constructor; try discriminate; apply HN | reflexivity].
      rewrite H0h, H0l, H1h, H1l. reflexivity.
    + change (toByteResponse v 3) with
        (terminateAt 9 ([hexDigit (Z.land (Z.shiftr v 20) 15);
                         hexDigit (Z.land (Z.shiftr v 16) 15); " "%char;
                         hexDigit (Z.land (Z.shiftr v 12) 15);
                         hexDigit (Z.land (Z.shiftr v 8) 15); " "%char;
                         hexDigit (Z.land (Z.shiftr v 4) 15);
                         hexDigit (Z.land (Z.shiftr v 0) 15)] ++ [" "%char])).
      rewrite terminateAt_snoc;
        [| repeat constructor; try discriminate; apply HN | reflexivity].
      rewrite H0h, H0l, H1h, H1l, H2h, H2l. reflexivity.
  - unfold toByteResponse, MAX_UDS_SIZE.
    replace (if n >? 4096 then 4096 else n) with (Z.min n 4096)
      by (destruct (Z.gtb_spec n 4096); lia).
    set (m := Z.min n 4096).
    assert (Hm : 4 <= m) by (subst m; lia).
    replace (m - 4 <? 0) with false by (symmetry; apply Z.ltb_ge; lia).
    set (z := Z.to_nat (m - 4)).
    replace (Z.to_nat m) with (z + 4)%nat by (subst z; lia).
    rewrite bigEndianBytes_padded by exact Hv.
    rewrite intToHexString_zeros by discriminate.
    change (hexGroups 4 v ((4 * 2 - 1) * 4)) with
      ([hexDigit (Z.land (Z.shiftr v 28) 15); hexDigit (Z.land (Z.shiftr v 24) 15);
        " "%char;
        hexDigit (Z.land (Z.shiftr v 20) 15); hexDigit (Z.land (Z.shiftr v 16) 15);
        " "%char;
        hexDigit (Z.land (Z.shiftr v 12) 15); hexDigit (Z.land (Z.shiftr v 8) 15);
        " "%char;
        hexDigit (Z.land (Z.shiftr v 4) 15); hexDigit (Z.land (Z.shiftr v 0) 15)]
         ++ [" "%char]).
    rewrite app_assoc. rewrite terminateAt_snoc.
    + f_equal. rewrite H0h, H0l, H1h, H1l, H2h, H2l, H3h, H3l. reflexivity.
    + apply Forall_app. split; [apply zeroGroups_noNUL |].
      repeat constructor; try discriminate; apply HN.
    + rewrite length_app.
      assert (length (zeroGroups z) = (3 * z)%nat) by (induction z; simpl; lia).
      unfold CHAR_SP. simpl length. lia.
Qed.

Lemma toByteResponse_is_intToHexString_witness :
  toByteResponse 0xF190 2
  = intToHexString (bigEndianBytes 0xF190 (Z.to_nat (Z.min 2 4096))).
Proof.
  apply (toByteResponse_is_intToHexString 0xF190 2); [split; [lia | reflexivity] | lia].
Defined.

(** ** The counter byte, the data accumulator and the hash *)

Lemma hexPairs_app (a b : list Z) : hexPairs (a ++ b) = hexPairs a ++ hexPairs b.
Proof. induction a as [| x a IH]; [reflexivity |]. cbn [app hexPairs]. now rewrite IH. Qed.

Lemma hexPairs_length (bytes : list Z) : length (hexPairs bytes) = (2 * length bytes)%nat.
Proof. induction bytes as [| b rest IH]; cbn [hexPairs length]; lia. Qed.

(** X4.  On the hex text of a request, [getCounterByte] yields the two
    digits of the second byte; a request of one byte gives the empty
    string, and on an empty request [substr] throws inside the [noexcept]
    function. *)
Theorem getCounterByte_second_byte (request : list Z) :
  Forall isByte request ->
  getCounterByte (intToHexString request)
  = match request with
    | [] => None
    | [_] => Some []
    | _ :: b1 :: _ => Some (hexPairs [b1])
    end.
Proof.
  intros Hbytes. unfold getCounterByte, substr.
  rewrite removeSpaces_intToHexString by exact Hbytes.
  destruct request as [| b0 [| b1 rest]]; reflexivity.
Qed.

Lemma getCounterByte_second_byte_witness :
  getCounterByte (intToHexString [0x36; 0x01; 0xAA])
  = Some (hexPairs [0x01]).
Proof.
  apply (getCounterByte_second_byte [0x36; 0x01; 0xAA]).
  repeat constructor; unfold isByte; lia.
Defined.

(** X5.  [getDataBytes] appends the digits of the request without its first
    two bytes to the accumulator, and fails (a throw in a [noexcept]
    function) on a request of fewer than two bytes; [createHash] then
    hashes the bytes accumulated over all the calls. *)
Theorem getDataBytes_then_createHash (prev request : list Z) :
  Forall isByte prev ->
  Forall isByte request ->
  getDataBytes (intToHexString request) (hexPairs prev)
  = (if (2 <=? length request)%nat
     then Some (hexPairs (prev ++ drop 2 request)) else None)
  /\ fst (createHash (hexPairs (prev ++ drop 2 request)))
     = hashOfCrc (crc_ccitt_ffff (prev ++ drop 2 request)).
Proof.
  intros Hprev Hreq. split.
  - unfold getDataBytes.
    rewrite removeSpaces_intToHexString by exact Hreq.
    rewrite hexPairs_length, hexPairs_app.
    destruct request as [| b0 [| b1 data]]; [reflexivity | reflexivity |].
    replace (4 <=? 2 * length (b0 :: b1 :: data))%nat with true
      by (symmetry; apply Nat.leb_le; cbn [length]; lia).
    reflexivity.
  - unfold createHash, literalHexStrToBytes. cbn [fst].
    assert (Hall : Forall isByte (prev ++ drop 2 request)).
    { apply Forall_app. split; [exact Hprev |]. now apply Forall_drop. }
    rewrite removeSpaces_hexPairs, bytesOfPairs_hexPairs by exact Hall.
    reflexivity.
Qed.

Lemma getDataBytes_then_createHash_witness :
  getDataBytes (intToHexString [0x36; 0x01; 0xAA; 0xBB]) (hexPairs [0x11])
  = (if (2 <=? length [0x36; 0x01; 0xAA; 0xBB])%nat
     then Some (hexPairs ([0x11] ++ drop 2 [0x36; 0x01; 0xAA; 0xBB])) else None)
  /\ fst (createHash (hexPairs ([0x11] ++ drop 2 [0x36; 0x01; 0xAA; 0xBB])))
     = hashOfCrc (crc_ccitt_ffff ([0x11] ++ drop 2 [0x36; 0x01; 0xAA; 0xBB])).
Proof.
  apply (getDataBytes_then_createHash [0x11] [0x36; 0x01; 0xAA; 0xBB]);
    repeat constructor; unfold isByte; lia.
Defined.

Lemma crc_shift_range (n : nat) (crc : Z) :
  0 <= crc < 65536 -> 0 <= crc_shift n crc < 65536.
Proof.
  revert crc. induction n as [| n IH]; intros crc Hc; [exact Hc |].
  cbn [crc_shift]. apply IH.
  destruct (Z.testbit crc 15); unfold uint16; apply Z.mod_pos_bound; lia.
Qed.

Lemma crc_update_range (crc byte : Z) : 0 <= crc_update crc byte < 65536.
Proof.
  unfold crc_update.
  change (crc_shift 8 ?x) with
    (crc_shift 7 (if Z.testbit x 15
                  then uint16 (Z.lxor (Z.shiftl x 1) 4129)
                  else uint16 (Z.shiftl x 1))).
  apply crc_shift_range.
  destruct (Z.testbit _ 15); unfold uint16; apply Z.mod_pos_bound; lia.
Qed.

Lemma crc_ccitt_ffff_range (input : list Z) : 0 <= crc_ccitt_ffff input < 65536.
Proof.
  unfold crc_ccitt_ffff.
  assert (Hgen : forall l acc, 0 <= acc < 65536 ->
                               0 <= fold_left crc_update l acc < 65536).
  { induction l as [| b l IH]; intros acc Hacc; [exact Hacc |].
    cbn [fold_left]. apply IH, crc_update_range. }
  apply Hgen. lia.
Qed.

(** The text of a 16-bit checksum is the two hex digits of each of its one
    or two bytes. *)
Lemma hashOfCrc_hexPairs (c : Z) :
  0 <= c < 65536 ->
  hashOfCrc c = hexPairs (if c <? 256 then [c] else [c / 256; c mod 256]).
Proof.
  intros Hc. unfold hashOfCrc, snprintfX.
  change (5 - 1)%nat with 4%nat.
  change (hexUpper 16 c []) with
    (if c / 16 =? 0 then [hexDigit (c mod 16)]
     else if c / 16 / 16 =? 0 then [hexDigit ((c / 16) mod 16); hexDigit (c mod 16)]
     else if c / 16 / 16 / 16 =? 0
          then [hexDigit ((c / 16 / 16) mod 16); hexDigit ((c / 16) mod 16);
                hexDigit (c mod 16)]
     else if c / 16 / 16 / 16 / 16 =? 0
          then [hexDigit ((c / 16 / 16 / 16) mod 16); hexDigit ((c / 16 / 16) mod 16);
                hexDigit ((c / 16) mod 16); hexDigit (c mod 16)]
     else hexUpper 12 (c / 16 / 16 / 16 / 16)
            [hexDigit ((c / 16 / 16 / 16) mod 16); hexDigit ((c / 16 / 16) mod 16);
             hexDigit ((c / 16) mod 16); hexDigit (c mod 16)]).
  destruct (Z.eqb_spec (c / 16) 0) as [E1 | N1].
  { replace (c <? 256) with true by (symmetry; apply Z.ltb_lt; Z.div_mod_to_equations; lia).
    cbn [hexPairs]. rewrite E1. reflexivity. }
  destruct (Z.eqb_spec (c / 16 / 16) 0) as [E2 | N2].
  { replace (c <? 256) with true by (symmetry; apply Z.ltb_lt; Z.div_mod_to_equations; lia).
    cbn [hexPairs].
    replace ((c / 16) mod 16) with (c / 16) by (Z.div_mod_to_equations; lia).
    reflexivity. }
  assert (Hlt : (c <? 256) = false) by (apply Z.ltb_ge; Z.div_mod_to_equations; lia).
  rewrite Hlt. cbn [hexPairs].
  replace (c / 256 / 16) with (c / 16 / 16 / 16) by (Z.div_mod_to_equations; lia).
  replace ((c / 256) mod 16) with ((c / 16 / 16) mod 16) by (Z.div_mod_to_equations; lia).
  replace (c mod 256 / 16) with ((c / 16) mod 16) by (Z.div_mod_to_equations; lia).
  replace (c mod 256 mod 16) with (c mod 16) by (Z.div_mod_to_equations; lia).
  destruct (Z.eqb_spec (c / 16 / 16 / 16) 0) as [E3 | N3].
  { rewrite E3. reflexivity. }
  destruct (Z.eqb_spec (c / 16 / 16 / 16 / 16) 0) as [E4 | N4].
  { replace ((c / 16 / 16 / 16) mod 16) with (c / 16 / 16 / 16)
      by (Z.div_mod_to_equations; lia).
    reflexivity. }
  exfalso. apply N4. Z.div_mod_to_equations. lia.
Qed.

(** X6.  The string that [createHash] returns is the hex text of one or two
    whole bytes, and read back as bytes, most significant first, it is the
    checksum of the accumulated bytes: the odd-length padding loses
    nothing. *)
Theorem createHash_reads_back (receivedDataBytes : list ascii) :
  bigEndianValue (literalHexStrToBytes (fst (createHash receivedDataBytes)))
  = crc_ccitt_ffff (literalHexStrToBytes receivedDataBytes)
  /\ (length (fst (createHash receivedDataBytes)) = 2%nat
      \/ length (fst (createHash receivedDataBytes)) = 4%nat).
Proof.
  unfold createHash. cbn [fst].
  pose proof (crc_ccitt_ffff_range (literalHexStrToBytes receivedDataBytes)) as Hc.
  set (c := crc_ccitt_ffff (literalHexStrToBytes receivedDataBytes)) in *.
  rewrite hashOfCrc_hexPairs by exact Hc.
  assert (Hall : Forall isByte (if c <? 256 then [c] else [c / 256; c mod 256])).
  { destruct (Z.ltb_spec c 256); repeat constructor; unfold isByte;
      Z.div_mod_to_equations; lia. }
  split.
  - unfold literalHexStrToBytes at 1.
    rewrite removeSpaces_hexPairs, bytesOfPairs_hexPairs by exact Hall.
    destruct (Z.ltb_spec c 256); unfold bigEndianValue; cbn [fold_left];
      Z.div_mod_to_equations; lia.
  - rewrite hexPairs_length. destruct (c <? 256); [left | right]; reflexivity.
Qed.

(** ** [cleanupString] *)

Lemma isSeparator_space : isSeparator " "%char = true.
Proof. reflexivity. Qed.

(** X7.  [cleanupString] leaves no separator behind (blanks included, so
    that [literalHexStrToBytes] finds nothing more to remove) and is
    idempotent. *)
Theorem cleanupString_clean (rawString : list ascii) :
  Forall (fun c => isSeparator c = false) (cleanupString rawString)
  /\ removeSpaces (cleanupString rawString) = cleanupString rawString
  /\ cleanupString (cleanupString rawString) = cleanupString rawString.
Proof.
  assert (Hclean : Forall (fun c => isSeparator c = false) (cleanupString rawString)).
  { induction rawString as [| c s IH]; [constructor |].
    cbn [cleanupString]. destruct (isSeparator c) eqn:Hc; [exact IH |].
    constructor; assumption. }
  assert (Hfix : forall s, Forall (fun c => isSeparator c = false) s ->
                           cleanupString s = s).
  { induction 1 as [| c s Hc _ IH]; [reflexivity |].
    cbn [cleanupString]. rewrite Hc, IH. reflexivity. }
  assert (Hsp : forall s, Forall (fun c => isSeparator c = false) s ->
                          removeSpaces s = s).
  { induction 1 as [| c s Hc _ IH]; [reflexivity |].
    cbn [removeSpaces]. destruct (Ascii.eqb_spec c " "%char) as [-> | _].
    - rewrite isSeparator_space in Hc. discriminate.
    - now rewrite IH. }
  split; [exact Hclean |].
  split; [apply Hsp, Hclean |].
  apply Hfix, Hclean.
Qed.

(** ** J1939: PGNs, acknowledgements and the dispatch of a datagram *)

Lemma c_str_noNUL (s : list ascii) :
  Forall (fun c => c <> NUL) s -> c_str s = s.
Proof.
  induction 1 as [| c s Hc _ IH]; [reflexivity |].
  cbn [c_str]. destruct (Ascii.eqb_spec c NUL); [contradiction |]. now rewrite IH.
Qed.

Lemma intToHexString_noNUL (bytes : list Z) :
  Forall isByte bytes -> Forall (fun c => c <> NUL) (intToHexString bytes).
Proof.
  induction 1 as [| b rest Hb _ IH]; [constructor |].
  destruct (hexDigit_of_byte b Hb) as [Hhi Hlo].
  destruct rest as [| b' rest'].
  - cbn [intToHexString]. repeat constructor; now apply hexDigit_plain.
  - change (intToHexString (b :: b' :: rest'))
      with (hexDigit (b / 16) :: hexDigit (b mod 16) :: " "%char
              :: intToHexString (b' :: rest')).
    repeat constructor; try (now apply hexDigit_plain); [discriminate | exact IH].
Qed.

Lemma intToHexString_length (bytes : list Z) :
  length (intToHexString bytes) = (3 * length bytes - 1)%nat.
Proof.
  induction bytes as [| b rest IH]; [reflexivity |].
  destruct rest as [| b' rest']; [reflexivity |].
  change (intToHexString (b :: b' :: rest'))
    with (hexDigit (b / 16) :: hexDigit (b mod 16) :: " "%char
            :: intToHexString (b' :: rest')).
  cbn [length] in *. rewrite IH. lia.
Qed.

(** X8.  The PGN read from the hex text of three or more request bytes:
    three bytes are taken least significant first, more than three give 0;
    the decimal reading never applies to such a text. *)
Theorem parsePGN_of_hex_bytes (bytes : list Z) :
  Forall isByte bytes ->
  (3 <= length bytes)%nat ->
  parsePGN (intToHexString bytes)
  = if (length bytes =? 3)%nat then littleEndianValue bytes else 0.
Proof.
  intros Hbytes Hlen. unfold parsePGN, strnlen.
  rewrite c_str_noNUL by (apply intToHexString_noNUL, Hbytes).
  rewrite intToHexString_length.
  replace (Z.min (Z.of_nat (3 * length bytes - 1)) 6 <? 6) with false
    by (symmetry; apply Z.ltb_ge; lia).
  cbn [Z.eqb orb].
  unfold literalHexStrToBytes.
  rewrite removeSpaces_intToHexString, bytesOfPairs_hexPairs by exact Hbytes.
  destruct (Nat.eqb_spec (length bytes) 3) as [E | N].
  - rewrite E. cbn [Nat.leb].
    apply littleEndianBytes_value; [exact Hbytes | lia].
  - replace (length bytes <=? 3)%nat with false
      by (symmetry; apply Nat.leb_gt; lia).
    reflexivity.
Qed.

Lemma parsePGN_of_hex_bytes_witness :
  parsePGN (intToHexString [0xEC; 0xFE; 0x00])
  = if (length [0xEC; 0xFE; 0x00] =? 3)%nat
    then littleEndianValue [0xEC; 0xFE; 0x00] else 0.
Proof.
  apply (parsePGN_of_hex_bytes [0xEC; 0xFE; 0x00]).
  - repeat constructor; unfold isByte; lia.
  - simpl; lia.
Defined.

Lemma parsePGN_bound (pgn : list ascii) : 0 <= parsePGN pgn < 2 ^ 24.
Proof.
  unfold parsePGN.
  set (pgnNum := if strnlen pgn 6 <? 6 then uint32 (strtol pgn 10) else 0).
  assert (Hnum : 0 <= pgnNum).
  { subst pgnNum. destruct (strnlen pgn 6 <? 6); [| lia].
    unfold uint32. apply Z.mod_pos_bound. lia. }
  destruct (Z.eqb_spec pgnNum 0) as [E | N]; cbn [orb].
  2: destruct (Z.gtb_spec pgnNum 99999) as [G | L]; [| lia].
  all: destruct (Nat.leb_spec (length (literalHexStrToBytes pgn)) 3) as [Hle | Hgt];
    [| lia];
    rewrite littleEndianBytes_value by (try apply literalHexStrToBytes_range; lia);
    pose proof (littleEndianValue_bound _ (literalHexStrToBytes_range pgn)) as Hb;
    assert (256 ^ Z.of_nat (length (literalHexStrToBytes pgn)) <= 256 ^ 3)
      by (apply Z.pow_le_mono_r; lia);
    change (256 ^ 3) with (2 ^ 24) in *; lia.
Qed.

(** X9.  Whatever the string, [parsePGN] returns a number of at most 24
    bits, so that storing it in the 32-bit PGN field of the socket address
    loses nothing. *)
Theorem parsePGN_range (pgn : list ascii) :
  0 <= parsePGN pgn < 2 ^ 24 /\ uint32 (parsePGN pgn) = parsePGN pgn.
Proof.
  pose proof (parsePGN_bound pgn) as Hb. split; [exact Hb |].
  unfold uint32. apply Z.mod_small.
  assert (2 ^ 24 <= 4294967296) by (change (2 ^ 24) with 16777216; lia). lia.
Qed.

Lemma pgnBytes_value (pgn : Z) :
  0 <= pgn -> littleEndianValue (pgnBytes pgn) = pgn mod 2 ^ 24.
Proof.
  intros Hpgn. unfold pgnBytes, uint8. cbn [littleEndianValue].
  rewrite !Z.shiftr_div_pow2 by lia.
  change (2 ^ 0) with 1. change (2 ^ 8) with 256. change (2 ^ 16) with 65536.
  change (2 ^ 24) with 16777216.
  Z.div_mod_to_equations. lia.
Qed.

Lemma pgnBytes_isByte (pgn : Z) : Forall isByte (pgnBytes pgn).
Proof.
  unfold pgnBytes, uint8, isByte. repeat constructor; apply Z.mod_pos_bound; lia.
Qed.

Lemma nth_isByte (i : nat) (bytes : list Z) :
  Forall (fun b => 0 <= b < 256) bytes -> isByte (nth i bytes 0).
Proof.
  intros Hall. revert i. induction Hall as [| b rest Hb _ IH]; intros [| i];
    cbn [nth]; unfold isByte in *; try lia. apply IH.
Qed.

Lemma assembleACK_parts (ackInfoByteString : list ascii) (targetAddress pgn : Z) :
  isByte targetAddress ->
  0 <= pgn ->
  length (assembleACK ackInfoByteString targetAddress pgn) = 8%nat
  /\ Forall isByte (assembleACK ackInfoByteString targetAddress pgn)
  /\ nth 4 (assembleACK ackInfoByteString targetAddress pgn) 0 = targetAddress
  /\ littleEndianValue (drop 5 (assembleACK ackInfoByteString targetAddress pgn))
     = pgn mod 2 ^ 24.
Proof.
  intros Ht Hpgn. unfold assembleACK.
  pose proof (literalHexStrToBytes_range ackInfoByteString) as Hrange.
  set (ackInfo := literalHexStrToBytes ackInfoByteString) in *.
  split; [reflexivity |].
  split.
  { apply Forall_app. split; [| apply pgnBytes_isByte].
    constructor; [now apply nth_isByte |].
    constructor; [now apply nth_isByte |].
    constructor; [unfold isByte; lia |].
    constructor; [unfold isByte; lia |].
    constructor; [exact Ht | constructor]. }
  split; [reflexivity |].
  apply pgnBytes_value, Hpgn.
Qed.

(** X10.  An acknowledgement has eight bytes, whatever the text after
    [ACK]: control byte and group function (0 when the text has no such
    byte), two reserved bytes 0xFF, the acknowledged address, and the low
    24 bits of the PGN, least significant byte first. *)
Theorem assembleACK_layout (ackInfoByteString : list ascii) (targetAddress pgn : Z) :
  isByte targetAddress ->
  0 <= pgn ->
  length (assembleACK ackInfoByteString targetAddress pgn) = 8%nat
  /\ Forall isByte (assembleACK ackInfoByteString targetAddress pgn)
  /\ take 3 (drop 2 (assembleACK ackInfoByteString targetAddress pgn))
     = [0xFF; 0xFF; targetAddress]
  /\ littleEndianValue (drop 5 (assembleACK ackInfoByteString targetAddress pgn))
     = pgn mod 2 ^ 24
  /\ take 2 (assembleACK ackInfoByteString targetAddress pgn)
     = take 2 (literalHexStrToBytes ackInfoByteString ++ [0; 0]).
Proof.
  intros Ht Hpgn.
  destruct (assembleACK_parts ackInfoByteString targetAddress pgn Ht Hpgn)
    as (Hlen & Hall & _ & Hval).
  split; [exact Hlen |].
  split; [exact Hall |].
  split; [reflexivity |].
  split; [exact Hval |].
  unfold assembleACK.
  destruct (literalHexStrToBytes ackInfoByteString) as [| a [| b rest]]; reflexivity.
Qed.

Lemma assembleACK_layout_witness :
  length (assembleACK (str " 01") 0x17 0xFECA) = 8%nat
  /\ Forall isByte (assembleACK (str " 01") 0x17 0xFECA)
  /\ take 3 (drop 2 (assembleACK (str " 01") 0x17 0xFECA)) = [0xFF; 0xFF; 0x17]
  /\ littleEndianValue (drop 5 (assembleACK (str " 01") 0x17 0xFECA))
     = 0xFECA mod 2 ^ 24
  /\ take 2 (assembleACK (str " 01") 0x17 0xFECA)
     = take 2 (literalHexStrToBytes (str " 01") ++ [0; 0]).
Proof.
  apply (assembleACK_layout (str " 01") 0x17 0xFECA); unfold isByte; lia.
Defined.

Section J1939Facts.
Variable payloadMatchedData : list ascii -> list ascii -> list ascii.
Variable requestedData : list ascii -> list ascii.

(** X11.  A received datagram is answered by at most one message, and by
    none exactly when the payload lookup is empty and the PGN is not the
    request PGN 0xEA00.  A message carries bytes and a PGN of 32 bits.
    It is an acknowledgement exactly when the response has no [#] and
    begins with [ACK]: it then goes to the global address 0xFF under PGN
    0xE800 with the eight bytes of [assembleACK], which name the sender
    and the received PGN; every other message goes back to the sender. *)
Theorem processReceivedData_reply (buffer : list Z) (sourceAddress pgn : Z) :
  isByte sourceAddress ->
  0 <= pgn < 2 ^ 32 ->
  (length (processReceivedData payloadMatchedData requestedData buffer sourceAddress pgn)
   <= 1)%nat
  /\ (processReceivedData payloadMatchedData requestedData buffer sourceAddress pgn = []
      <-> payloadMatchedData (intToHexString (pgnBytes pgn) ++ str " #")
                             (intToHexString buffer) = []
          /\ pgn <> 0xEA00)
  /\ forall m,
       In m (processReceivedData payloadMatchedData requestedData buffer sourceAddress pgn) ->
       Forall isByte (messagePayload m)
       /\ 0 <= messagePgn m < 2 ^ 32
       /\ if match splitAtHash (payloadMatchedData
                                  (intToHexString (pgnBytes pgn) ++ str " #")
                                  (intToHexString buffer)) with
             | Some _ => false
             | None =>
                 bool_decide (take 3 (payloadMatchedData
                                        (intToHexString (pgnBytes pgn) ++ str " #")
                                        (intToHexString buffer)) = str "ACK")
             end
          then destination m = 0xFF /\ messagePgn m = 0xE800
               /\ messagePayload m
                  = assembleACK (drop 3 (payloadMatchedData
                                           (intToHexString (pgnBytes pgn) ++ str " #")
                                           (intToHexString buffer)))
                      sourceAddress pgn
               /\ length (messagePayload m) = 8%nat
               /\ nth 4 (messagePayload m) 0 = sourceAddress
               /\ littleEndianValue (drop 5 (messagePayload m)) = pgn mod 2 ^ 24
          else destination m = sourceAddress.
Proof.
  intros Hsrc Hpgn. unfold processReceivedData.
  pose proof parsePGN_bound as Hparse.
  assert (Hpow : 2 ^ 24 <= 2 ^ 32) by (apply Z.pow_le_mono_r; lia).
  destruct (payloadMatchedData _ _) as [| c pgnResponse] eqn:Hresp.
  - cbn [splitAtHash take]. rewrite bool_decide_eq_false_2 by discriminate.
    destruct (Z.eqb_spec pgn 0xEA00) as [E | N].
    + split; [simpl; lia |].
      split; [split; [discriminate | intros [_ Hne]; contradiction] |].
      intros m [<- | []]. cbn [messagePayload messagePgn destination].
      split; [apply literalHexStrToBytes_range |].
      split; [specialize (Hparse (intToHexString buffer)); lia | reflexivity].
    + split; [simpl; lia |].
      split; [split; [intros _; split; [reflexivity | exact N] | reflexivity] |].
      intros m [].
  - destruct (splitAtHash (c :: pgnResponse)) as [[before after] |].
    + split; [simpl; lia |].
      split; [split; [discriminate | intros [[=] _]] |].
      intros m [<- | []]. cbn [messagePayload messagePgn destination].
      split; [apply literalHexStrToBytes_range |].
      split; [specialize (Hparse before); lia | reflexivity].
    + destruct (bool_decide (take 3 (c :: pgnResponse) = str "ACK")).
      * split; [simpl; lia |].
        split; [split; [discriminate | intros [[=] _]] |].
        intros m [<- | []]. cbn [messagePayload messagePgn destination].
        destruct (assembleACK_parts (drop 3 (c :: pgnResponse)) sourceAddress pgn)
          as (Hlen & Hall & Hmid & Hval); [exact Hsrc | lia |].
        split; [exact Hall |].
        split; [lia |].
        split; [reflexivity |]. split; [reflexivity |]. split; [reflexivity |].
        split; [exact Hlen |]. split; [exact Hmid | exact Hval].
      * split; [simpl; lia |].
        split; [split; [discriminate | intros [[=] _]] |].
        intros m [<- | []]. cbn [messagePayload messagePgn destination].
        split; [apply literalHexStrToBytes_range |].
        split; [lia | reflexivity].
Qed.
(** X12.  A request for a PGN (PGN 0xEA00 with a payload of three bytes)
    that no payload entry matches is answered to the sender under the
    requested PGN, the three bytes read least significant first, with the
    bytes of the script's entry for it. *)
Theorem processReceivedData_request (b0 b1 b2 sourceAddress : Z) :
  isByte b0 -> isByte b1 -> isByte b2 ->
  payloadMatchedData (intToHexString (pgnBytes 0xEA00) ++ str " #")
                     (intToHexString [b0; b1; b2]) = [] ->
  processReceivedData payloadMatchedData requestedData [b0; b1; b2] sourceAddress 0xEA00
  = [{| destination := sourceAddress;
        messagePgn := b0 + 256 * b1 + 65536 * b2;
        messagePayload :=
          literalHexStrToBytes (requestedData (intToHexString [b0; b1; b2])) |}].
Proof.
  intros H0 H1 H2 Hnone. unfold processReceivedData.
  rewrite Hnone. cbn [Z.eqb Pos.eqb].
  assert (Hbytes : Forall isByte [b0; b1; b2]) by (repeat (constructor; [assumption |]); constructor).
  assert (Hp : parsePGN (intToHexString [b0; b1; b2]) = b0 + 256 * b1 + 65536 * b2).
  { unfold parsePGN, strnlen.
    rewrite c_str_noNUL by (apply intToHexString_noNUL, Hbytes).
    rewrite intToHexString_length. cbn [length Nat.mul Nat.add Nat.sub].
    change (Z.min (Z.of_nat 8) 6 <? 6) with false. cbn [Z.eqb orb].
    unfold literalHexStrToBytes.
    rewrite removeSpaces_intToHexString, bytesOfPairs_hexPairs by exact Hbytes.
    cbn [length Nat.leb].
    rewrite littleEndianBytes_value by (try exact Hbytes; simpl; lia).
    cbn [littleEndianValue]. lia. }
  rewrite Hp. reflexivity.
Qed.
End J1939Facts.

Lemma processReceivedData_reply_witness :
  processReceivedData (fun _ _ => str "ACK 01") (fun _ => []) [0x01] 0x17 0xFECA
  = [{| destination := 0xFF;
        messagePgn := 0xE800;
        messagePayload := [0x01; 0x00; 0xFF; 0xFF; 0x17; 0xCA; 0xFE; 0x00] |}]
  /\ (processReceivedData (fun _ _ => str "ACK 01") (fun _ => []) [0x01] 0x17 0xFECA = []
      <-> (fun _ _ => str "ACK 01") (intToHexString (pgnBytes 0xFECA) ++ str " #")
                                    (intToHexString [0x01]) = []
          /\ 0xFECA <> 0xEA00).
Proof.
  split; [vm_compute; reflexivity |].
  refine (proj1 (proj2 (processReceivedData_reply (fun _ _ => str "ACK 01") (fun _ => [])
                          [0x01] 0x17 0xFECA _ _))).
  - unfold isByte; lia.
  - split; [lia | reflexivity].
Defined.

Lemma processReceivedData_request_witness :
  processReceivedData (fun _ _ => []) (fun _ => str "01 02") [0xCA; 0xFE; 0x00] 0x17 0xEA00
  = [{| destination := 0x17;
        messagePgn := 0xCA + 256 * 0xFE + 65536 * 0x00;
        messagePayload :=
          literalHexStrToBytes ((fun _ => str "01 02") (intToHexString [0xCA; 0xFE; 0x00])) |}].
Proof.
  apply (processReceivedData_request (fun _ _ => []) (fun _ => str "01 02")
           0xCA 0xFE 0x00 0x17); try (unfold isByte; lia).
  reflexivity.
Defined.

(** ** The DoIP server *)

Lemma findECUFrom_first_match (ecus : list DoIPSimulator) (a i : Z) :
  (findECUFrom ecus a i = -1
   /\ Forall (fun e => logicalEcuAddress e <> a) ecus)
  \/ (exists (k : nat) (ecu : DoIPSimulator),
        findECUFrom ecus a i = i + Z.of_nat k
        /\ ecus !! k = Some ecu
        /\ logicalEcuAddress ecu = a
        /\ Forall (fun e => logicalEcuAddress e <> a) (take k ecus)).
Proof.
  revert i. induction ecus as [| e rest IH]; intros i.
  - left. split; [reflexivity | constructor].
  - cbn [findECUFrom]. destruct (Z.eqb_spec (logicalEcuAddress e) a) as [E | N].
    + right. exists 0%nat, e. repeat apply conj; [lia | reflexivity | exact E | constructor].
    + destruct (IH (i + 1)) as [[Hnone Hall] | (k & ecu & Hk & Hlook & Haddr & Hbefore)].
      * left. split; [exact Hnone | constructor; assumption].
      * right. exists (S k), ecu.
        repeat apply conj; [lia | exact Hlook | exact Haddr |].
        cbn [take]. constructor; assumption.
Qed.

Lemma findECUFrom_existsb (ecus : list DoIPSimulator) (a i : Z) :
  0 <= i ->
  (findECUFrom ecus a i =? -1)
  = negb (existsb (fun e => logicalEcuAddress e =? a) ecus).
Proof.
  revert i. induction ecus as [| e rest IH]; intros i Hi; [reflexivity |].
  cbn [findECUFrom existsb]. destruct (Z.eqb_spec (logicalEcuAddress e) a) as [E | N].
  - cbn [orb negb]. apply Z.eqb_neq. lia.
  - cbn [orb]. apply IH. lia.
Qed.

(** X13.  [findECU] returns the index of the first ECU with the given
    logical address, and -1 exactly when no ECU has it. *)
Theorem findECU_first_match (ecus : list DoIPSimulator) (logicalAddress : Z) :
  (findECU ecus logicalAddress = -1
   /\ Forall (fun e => logicalEcuAddress e <> logicalAddress) ecus)
  \/ (exists (k : nat) (ecu : DoIPSimulator),
        findECU ecus logicalAddress = Z.of_nat k
        /\ ecus !! k = Some ecu
        /\ logicalEcuAddress ecu = logicalAddress
        /\ Forall (fun e => logicalEcuAddress e <> logicalAddress) (take k ecus)).
Proof.
  unfold findECU.
  destruct (findECUFrom_first_match ecus logicalAddress 0) as [H | (k & ecu & Hk & H)].
  - left. exact H.
  - right. exists k, ecu. split; [lia | exact H].
Qed.

Section DoIPFacts.
Variable ptr_lt : ptr -> ptr -> bool.

(** X14.  A diagnostic message handed over by the library is answered by at
    most one payload.  The payload is not empty, it is what the first ECU
    with the addressed logical address makes of the data, and it names the
    addressed logical address as its source.  Nothing is sent when no ECU
    has the address, or when that ECU's response has no bytes. *)
Theorem receiveFromLibrary_reply (ecus : list DoIPSimulator) (address : Z)
    (data : list Z) :
  match receiveFromLibrary ptr_lt ecus address data with
  | [] =>
      Forall (fun e => logicalEcuAddress e <> address) ecus
      \/ (exists (k : nat) (ecu : DoIPSimulator),
            ecus !! k = Some ecu
            /\ logicalEcuAddress ecu = address
            /\ Forall (fun e => logicalEcuAddress e <> address) (take k ecus)
            /\ proceedDoIPData ptr_lt ecu data = [])
  | [DiagnosticPayload sourceAddress response] =>
      sourceAddress = address
      /\ response <> []
      /\ (exists (k : nat) (ecu : DoIPSimulator),
            ecus !! k = Some ecu
            /\ logicalEcuAddress ecu = address
            /\ Forall (fun e => logicalEcuAddress e <> address) (take k ecus)
            /\ response = proceedDoIPData ptr_lt ecu data)
  | _ => False
  end.
Proof.
  unfold receiveFromLibrary, findECU.
  destruct (findECUFrom_first_match ecus address 0)
    as [[Hnone Hall] | (k & ecu & Hk & Hlook & Haddr & Hbefore)].
  - rewrite Hnone. cbn [Z.eqb Pos.eqb negb]. left. exact Hall.
  - rewrite Hk.
    replace (0 + Z.of_nat k =? -1) with false by (symmetry; apply Z.eqb_neq; lia).
    cbn [negb].
    replace (Z.to_nat (0 + Z.of_nat k)) with k by lia.
    rewrite Hlook.
    destruct (proceedDoIPData ptr_lt ecu data) as [| b response] eqn:Hresp.
    + right. exists k, ecu. repeat apply conj; assumption.
    + split; [exact Haddr |]. split; [discriminate |].
      exists k, ecu. repeat apply conj; try assumption. now rewrite Hresp.
Qed.

(** X15.  A request that matches no pattern of the addressed ECU is
    answered with the negative response 0x7F, the service identifier (0x00
    for an empty request) and 0x11; an unmatched request is never passed
    over in silence. *)
Theorem receiveFromLibrary_unmatched (ecus : list DoIPSimulator) (address : Z)
    (data : list Z) (k : nat) (ecu : DoIPSimulator) :
  ecus !! k = Some ecu ->
  logicalEcuAddress ecu = address ->
  Forall (fun e => logicalEcuAddress e <> address) (take k ecus) ->
  getRawResponse ptr_lt (doipTreeStore ecu) (doipTree ecu) data = None ->
  receiveFromLibrary ptr_lt ecus address data
  = [DiagnosticPayload address [0x7F; hd 0x00 data; 0x11]].
Proof.
  intros Hlook Haddr Hbefore Hnone.
  assert (Hfind : forall i, findECUFrom ecus address i = i + Z.of_nat k).
  { clear Hnone. revert k Hlook Hbefore.
    induction ecus as [| e rest IH]; intros k Hlook Hbefore i; [discriminate |].
    cbn [findECUFrom]. destruct k as [| k].
    - injection Hlook as ->. rewrite Haddr, Z.eqb_refl. lia.
    - cbn [take] in Hbefore. inversion Hbefore as [| ? ? Hne Hrest]; subst.
      destruct (Z.eqb_spec (logicalEcuAddress e) (logicalEcuAddress ecu)) as [E | _];
        [contradiction |].
      rewrite (IH k Hlook Hrest). lia. }
  unfold receiveFromLibrary, findECU. rewrite Hfind.
  replace (0 + Z.of_nat k =? -1) with false by (symmetry; apply Z.eqb_neq; lia).
  cbn [negb].
  replace (Z.to_nat (0 + Z.of_nat k)) with k by lia.
  rewrite Hlook. unfold proceedDoIPData. rewrite Hnone, Haddr.
  destruct data; reflexivity.
Qed.

(** X16.  The acknowledgement of a diagnostic message is positive, with
    code 0x00, exactly when some ECU has the target address, and negative
    with code 0x03 otherwise; the returned value is the sign of the
    acknowledgement, and a negatively acknowledged message gets no
    response. *)
Theorem diagnosticMessageReceived_ack (ecus : list DoIPSimulator)
    (targetAddress : Z) (data : list Z) :
  let positive := existsb (fun e => logicalEcuAddress e =? targetAddress) ecus in
  diagnosticMessageReceived ecus targetAddress
  = ([DiagnosticAck targetAddress positive (if positive then 0x00 else 0x03)], positive)
  /\ (length (receiveFromLibrary ptr_lt ecus targetAddress data)
      <= (if positive then 1 else 0))%nat.
Proof.
  intros positive. unfold diagnosticMessageReceived, receiveFromLibrary, findECU.
  rewrite findECUFrom_existsb by lia. fold positive.
  destruct positive; cbn [negb]; (split; [reflexivity |]).
  - destruct (ecus !! _) as [ecu |]; [| simpl; lia].
    destruct (proceedDoIPData ptr_lt ecu data); simpl; lia.
  - simpl. lia.
Qed.
End DoIPFacts.

Lemma receiveFromLibrary_unmatched_witness :
  receiveFromLibrary allocationOrder
    [{| logicalEcuAddress := 0x0E00; doipTreeStore := emptyTree; doipTree := 0%nat |}]
    0x0E00 [0x3E; 0x00]
  = [DiagnosticPayload 0x0E00 [0x7F; hd 0x00 [0x3E; 0x00]; 0x11]].
Proof.
  apply (receiveFromLibrary_unmatched allocationOrder
           [{| logicalEcuAddress := 0x0E00; doipTreeStore := emptyTree;
               doipTree := 0%nat |}]
           0x0E00 [0x3E; 0x00] 0%nat
           {| logicalEcuAddress := 0x0E00; doipTreeStore := emptyTree;
              doipTree := 0%nat |}).
  - reflexivity.
  - reflexivity.
  - constructor.
  - reflexivity.
Defined.

(** ** The UDS dispatcher as a whole *)

(** The key under which a data identifier is looked up in the script: the
    hex text of its two bytes. *)
Lemma dataIdentifier_key (b1 b2 : Z) :
  isByte b1 -> isByte b2 ->
  toByteResponse (uint16 (Z.shiftl b1 8 + b2)) 2 = intToHexString [b1; b2].
Proof.
  unfold isByte. intros H1 H2.
  rewrite Z.shiftl_mul_pow2 by lia. change (2 ^ 8) with 256.
  unfold uint16. rewrite Z.mod_small by lia.
  set (v := b1 * 256 + b2).
  pose proof (fun j => proj1 (hexDigit_plain _ (nibble_range (Z.shiftr v j)))) as HN.
  destruct (nibbles_of_byte v 0 ltac:(lia)) as [H0h H0l].
  destruct (nibbles_of_byte v 1 ltac:(lia)) as [H1h H1l].
  change (8 * 0 + 4) with 4 in H0h. change (8 * 0) with 0 in H0l.
  change (8 * 1 + 4) with 12 in H1h. change (8 * 1) with 8 in H1l.
  assert (Hb2 : byteOf v 0 = b2).
  { unfold byteOf. change (2 ^ (8 * 0)) with 1. subst v. Z.div_mod_to_equations. lia. }
  assert (Hb1 : byteOf v 1 = b1).
  { unfold byteOf. change (2 ^ (8 * 1)) with 256. subst v. Z.div_mod_to_equations. lia. }
  rewrite Hb2 in H0h, H0l. rewrite Hb1 in H1h, H1l.
  change (toByteResponse v 2) with
    (terminateAt 6 ([hexDigit (Z.land (Z.shiftr v 12) 15);
                     hexDigit (Z.land (Z.shiftr v 8) 15); " "%char;
                     hexDigit (Z.land (Z.shiftr v 4) 15);
                     hexDigit (Z.land (Z.shiftr v 0) 15)] ++ [" "%char])).
  rewrite terminateAt_snoc;
    [| repeat constructor; try discriminate; apply HN | reflexivity].
  rewrite H0h, H0l, H1h, H1l. reflexivity.
Qed.

Section UdsDispatch.
Context {SC : Type} `{SessionController SC}.
Variable lua : LuaState.
Variable ptr_lt : ptr -> ptr -> bool.
Variable h : store Selector.
Variable root : ptr.
Variable SESSION_TIME : Z.

Lemma readDataByIdentifier_sends (buffer : list Z) (u : UdsReceiver SC) :
  securityAccessType (readDataByIdentifier lua buffer u) = securityAccessType u
  /\ pSessionCtrl (readDataByIdentifier lua buffer u) = pSessionCtrl u
  /\ exists reply, isoTpSent (readDataByIdentifier lua buffer u) = isoTpSent u ++ [reply].
Proof.
  unfold readDataByIdentifier.
  destruct (match getCurrentUdsSession (pSessionCtrl u) with
            | DEFAULT => _ | PROGRAMMING => _ | EXTENDED => _ end);
    repeat apply conj; try reflexivity; eexists; reflexivity.
Qed.

(** X17.  Every request is answered by exactly one message, except a
    request for service 0x27 that the [Raw] table does not match, which is
    answered by none.  Messages sent earlier stay as they are, and no
    request changes the security-access counter. *)
Theorem proceedReceivedData_one_reply (buffer : list Z) (u : UdsReceiver SC) :
  let u' := proceedReceivedData lua ptr_lt h root SESSION_TIME buffer u in
  let silent :=
    match getRawResponse ptr_lt h root buffer with
    | None => at_ buffer 0 =? SECURITY_ACCESS_REQ
    | Some _ => false
    end in
  securityAccessType u' = securityAccessType u
  /\ exists replies,
       isoTpSent u' = isoTpSent u ++ replies
       /\ length replies = if silent then 0%nat else 1%nat.
Proof.
  cbv zeta. unfold proceedReceivedData.
  destruct (getRawResponse ptr_lt h root buffer) as [response |].
  { split; [reflexivity |]. eexists. split; reflexivity. }
  destruct (Z.eqb_spec (at_ buffer 0) READ_DATA_BY_IDENTIFIER_REQ) as [E22 | N22].
  { destruct (readDataByIdentifier_sends buffer u) as (Hsec & _ & reply & Hsent).
    rewrite E22. split; [exact Hsec |].
    exists [reply]. split; [exact Hsent | reflexivity]. }
  destruct (Z.eqb_spec (at_ buffer 0) DIAGNOSTIC_SESSION_CONTROL_REQ) as [E10 | N10].
  { rewrite E10. split.
    - unfold diagnosticSessionControl.
      repeat match goal with |- context [if ?c then _ else _] => destruct c end;
        reflexivity.
    - exists [[0x50; at_ buffer 1]]. split; [| reflexivity].
      apply diagnosticSessionControl_sends. }
  destruct (Z.eqb_spec (at_ buffer 0) SECURITY_ACCESS_REQ) as [E27 | N27].
  { split; [reflexivity |]. exists []. split; [now rewrite app_nil_r | reflexivity]. }
  split; [reflexivity |]. eexists. split; reflexivity.
Qed.

(** X18.  The reply to ReadDataByIdentifier.  The script is asked for the
    hex text of the two identifier bytes of the request, in the table of
    the current session; an entry that is a function is called with that
    text.  A non-empty result is sent after 0x62 and the identifier bytes;
    an empty or missing one gives the negative response 0x7F 0x22 0x11.
    Session and counter stay as they are. *)
Theorem readDataByIdentifier_reply (sid b1 b2 : Z) (rest : list Z)
    (u : UdsReceiver SC) :
  isByte b1 -> isByte b2 ->
  let key := intToHexString [b1; b2] in
  let entry :=
    match getCurrentUdsSession (pSessionCtrl u) with
    | DEFAULT => luaReadDataByIdentifier lua key
    | PROGRAMMING => luaSessionReadDataByIdentifier lua (str "Programming") key
    | EXTENDED => luaSessionReadDataByIdentifier lua (str "Extended") key
    end in
  let data := callOrValue entry key in
  let u' := readDataByIdentifier lua (sid :: b1 :: b2 :: rest) u in
  isoTpSent u'
  = isoTpSent u ++ [match data with
                    | [] => [0x7F; 0x22; 0x11]
                    | _ :: _ => [0x62; b1; b2] ++ map code data
                    end]
  /\ pSessionCtrl u' = pSessionCtrl u
  /\ securityAccessType u' = securityAccessType u.
Proof.
  intros H1 H2. cbv zeta. unfold readDataByIdentifier.
  change (at_ (sid :: b1 :: b2 :: rest) 1) with b1.
  change (at_ (sid :: b1 :: b2 :: rest) 2) with b2.
  rewrite dataIdentifier_key by assumption.
  unfold getDataByIdentifier, getDataByIdentifierIn.
  destruct (getCurrentUdsSession (pSessionCtrl u));
    match goal with |- context [callOrValue ?e ?k] => destruct (callOrValue e k) end;
    repeat apply conj; reflexivity.
Qed.
End UdsDispatch.

Lemma readDataByIdentifier_reply_witness :
  isoTpSent (readDataByIdentifier noTables [0x22; 0xF1; 0x90] idleReceiver)
  = [[0x7F; 0x22; 0x11]].
Proof.
  refine (proj1 (readDataByIdentifier_reply noTables 0x22 0xF1 0x90 [] idleReceiver
                   _ _));
    unfold isByte; lia.
Defined.

(** X19.  The security-access handler, taken by itself (the dispatcher
    does not call it): after a seed request for a level with a seed, the
    request for the next level, which has no seed, is accepted with 0x67
    and the counter is back at 0. *)
Theorem securityAccess_handshake {SC : Type} (lua : LuaState) (level : Z)
    (rest1 rest2 : list Z) (u : UdsReceiver SC) :
  0 <= level < 255 ->
  getSeed lua level <> [] ->
  getSeed lua (level + 1) = [] ->
  let u1 := securityAccess lua (0x27 :: level :: rest1) u in
  let u2 := securityAccess lua (0x27 :: level + 1 :: rest2) u1 in
  isoTpSent u2
  = isoTpSent u ++ [[0x27; level] ++ map code (removelast (getSeed lua level)); [0x67]]
  /\ securityAccessType u1 = level + 1
  /\ securityAccessType u2 = 0.
Proof.
  intros Hlevel Hseed Hnext. cbv zeta. unfold securityAccess.
  change (at_ (39 :: level :: rest1) 1) with level.
  change (at_ (39 :: level + 1 :: rest2) 1) with (level + 1).
  rewrite Hnext.
  destruct (getSeed lua level) as [| c seed] eqn:Hs; [congruence |].
  cbn [securityAccessType withSecurityAccessType sendData].
  unfold uint8. rewrite Z.mod_small by lia. rewrite Z.eqb_refl.
  cbn [securityAccessType withSecurityAccessType sendData isoTpSent].
  rewrite <- app_assoc. repeat apply conj; reflexivity.
Qed.

Lemma securityAccess_handshake_witness :
  securityAccessType
    (securityAccess seedScript [0x27; 0x01 + 1]
       (securityAccess seedScript [0x27; 0x01] idleReceiver)) = 0.
Proof.
  refine (proj2 (proj2 (securityAccess_handshake seedScript 0x01 [] [] idleReceiver
                          _ _ _))).
  - lia.
  - vm_compute. discriminate.
  - vm_compute. reflexivity.
Defined.


(** ** The candidates of the matching loop *)

Section Candidates.
Context {T : Type}.
Variable ptr_lt : ptr -> ptr -> bool.
Variable h : store T.

Lemma set_insert_In (x z : ptr) (s : list ptr) :
  In z (set_insert ptr_lt x s) <-> z = x \/ In z s.
Proof.
  induction s as [| y s IH]; cbn [set_insert In].
  - intuition.
  - destruct (Nat.eqb_spec x y) as [-> | Hne].
    + cbn [In]. intuition.
    + destruct (ptr_lt x y); cbn [In]; [intuition |].
      rewrite IH. intuition.
Qed.

Lemma insertIfPresent_In (o : option ptr) (z : ptr) (s : list ptr) :
  In z (insertIfPresent ptr_lt o s) <-> o = Some z \/ In z s.
Proof.
  destruct o as [c |]; cbn [insertIfPresent].
  - rewrite set_insert_In. split; intros [Hz | Hin]; auto; left; congruence.
  - split; [auto | intros [[=] | Hin]; exact Hin].
Qed.

Lemma nextCandidates_In (s : list ptr) (nextByte : Z) (z : ptr) :
  In z (nextCandidates ptr_lt h s nextByte)
  <-> exists p, In p s /\ step h p nextByte z.
Proof.
  unfold nextCandidates.
  assert (Hgen : forall acc,
    In z (fold_left
            (fun matchingNodes crntRequestByte =>
               if wildcard (deref h crntRequestByte)
               then set_insert ptr_lt crntRequestByte matchingNodes
               else findAndAddMatchesForNextByte ptr_lt h matchingNodes
                      crntRequestByte nextByte) s acc)
    <-> In z acc \/ exists p, In p s /\ step h p nextByte z).
  { induction s as [| p s IH]; intros acc; cbn [fold_left].
    - split; [auto | intros [Hin | (p & [] & _)]; exact Hin].
    - rewrite IH. unfold step at 2, findAndAddMatchesForNextByte. cbn [In].
      destruct (wildcard (deref h p)) eqn:Hw.
      + rewrite set_insert_In. split.
        * intros [[-> | Hin] | (p' & Hin & Hstep)]; auto.
          -- right. exists p. split; [now left |]. unfold step. now rewrite Hw.
          -- right. exists p'. auto.
        * intros [Hin | (p' & [<- | Hin] & Hstep)]; auto.
          -- unfold step in Hstep. rewrite Hw in Hstep. auto.
          -- right. exists p'. auto.
      + rewrite !insertIfPresent_In. split.
        * intros [[Hwc | [Hph | [Hb | Hin]]] | (p' & Hin & Hstep)]; auto.
          -- right. exists p. split; [now left |]. unfold step. rewrite Hw. cbn. auto.
          -- right. exists p. split; [now left |]. unfold step. rewrite Hw. cbn. auto.
          -- right. exists p. split; [now left |]. unfold step. rewrite Hw. cbn. auto.
          -- right. exists p'. auto.
        * intros [Hin | (p' & [<- | Hin] & Hstep)]; auto.
          -- unfold step in Hstep. rewrite Hw in Hstep. cbn in Hstep.
             destruct Hstep as [Hb | [Hph | Hwc]]; auto.
          -- right. exists p'. auto. }
  rewrite Hgen. cbn [In]. intuition.
Qed.

Lemma candidatesAfter_In (payload : list Z) : forall (s : list ptr) (z : ptr),
  In z (candidatesAfter ptr_lt h s payload)
  <-> exists p, In p s /\ walk h p payload z.
Proof.
  induction payload as [| b payload IH]; intros s z; cbn [candidatesAfter].
  - split.
    + intros Hin. exists z. split; [exact Hin | constructor].
    + intros (p & Hin & Hwalk). inversion Hwalk; subst. exact Hin.
  - destruct s as [| p0 s].
    + split; [intros [] | intros (p & [] & _)].
    + rewrite IH. split.
      * intros (m & Hm & Hwalk). apply nextCandidates_In in Hm as (p & Hin & Hstep).
        exists p. split; [exact Hin | econstructor; eassumption].
      * intros (p & Hin & Hwalk). inversion Hwalk as [| ? m ? ? ? Hstep Hrest]; subst.
        exists m. split; [| exact Hrest].
        apply nextCandidates_In. exists p. auto.
Qed.

(** X20.  The candidates that the matching loop holds after the request
    are the nodes that a walk from the root reaches, whatever the order of
    the pointers: the order decides which candidate is chosen, not which
    candidates there are. *)
Theorem candidates_are_walks (root : ptr) (payload : list Z) (q : ptr) :
  In q (candidatesAfter ptr_lt h [root] payload) <-> walk h root payload q.
Proof.
  rewrite candidatesAfter_In. split.
  - intros (p & [<- | []] & Hwalk). exact Hwalk.
  - intros Hwalk. exists root. split; [now left | exact Hwalk].
Qed.

Lemma findBest_from (cands : list ptr) : forall (best : option ptr),
  match fold_left (betterMatch h) cands best with
  | Some b =>
      best = Some b
      \/ exists c, In c cands /\ b = getThisOrNextWildcardWithResponse h c
                   /\ is_Some (luaResponse (deref h b))
  | None =>
      best = None /\ forall c, In c cands -> luaResponse (matchedNode h c) = None
  end.
Proof.
  induction cands as [| c cands IH]; intros best; cbn [fold_left].
  - destruct best; [now left | split; [reflexivity | intros c []]].
  - specialize (IH (betterMatch h best c)).
    destruct (fold_left (betterMatch h) cands (betterMatch h best c)) as [b |].
    + destruct IH as [Hstep | (c' & Hin & Hb & Hresp)].
      * unfold betterMatch in Hstep.
        destruct (luaResponse (deref h (getThisOrNextWildcardWithResponse h c)))
          as [r |] eqn:Hr; [| now left].
        assert (Hc : exists c0, In c0 (c :: cands)
                  /\ getThisOrNextWildcardWithResponse h c
                     = getThisOrNextWildcardWithResponse h c0
                  /\ is_Some (luaResponse
                       (deref h (getThisOrNextWildcardWithResponse h c))))
          by (exists c; repeat split; [now left | rewrite Hr; eauto]).
        destruct best as [b0 |].
        -- repeat match type of Hstep with
                  | (if ?x then _ else _) = _ => destruct x
                  end; injection Hstep as <-; auto;
             right; destruct Hc as (c0 & ? & ? & ?); exists c0; auto.
        -- injection Hstep as <-. right. destruct Hc as (c0 & ? & ? & ?). exists c0; auto.
      * right. exists c'. split; [now right | auto].
    + destruct IH as [Hstep Hall].
      unfold betterMatch in Hstep. fold (matchedNode h c) in Hstep.
      destruct (luaResponse (matchedNode h c)) as [r |] eqn:Hr.
      * destruct best as [b0 |]; [| discriminate].
        repeat match type of Hstep with
               | (if ?x then _ else _) = _ => destruct x
               end; discriminate.
      * split; [exact Hstep |]. intros c' [<- | Hin]; [exact Hr | now apply Hall].
Qed.

Lemma getValueFromTree_walk (root : ptr) (payload : list Z) :
  match getValueFromTree ptr_lt h root payload with
  | Some r =>
      exists c, walk h root payload c /\ luaResponse (matchedNode h c) = Some r
  | None =>
      forall c, walk h root payload c -> luaResponse (matchedNode h c) = None
  end.
Proof.
  unfold getValueFromTree, findBestMatchingRequest.
  pose proof (findBest_from (candidatesAfter ptr_lt h [root] payload) None) as Hbest.
  destruct (fold_left (betterMatch h) (candidatesAfter ptr_lt h [root] payload) None)
    as [b |].
  - destruct Hbest as [[=] | (c & Hin & -> & Hresp)].
    fold (matchedNode h c) in *.
    destruct (luaResponse (matchedNode h c)) as [r |] eqn:Hr.
    + exists c. split; [| exact Hr]. apply candidatesAfter_In in Hin
        as (p & [<- | []] & Hwalk). exact Hwalk.
    + destruct Hresp as [? [=]].
  - destruct Hbest as [_ Hall]. intros c Hwalk. apply Hall.
    apply candidatesAfter_In. exists root. split; [now left | exact Hwalk].
Qed.

(** X21.  A request goes unanswered exactly when no candidate carries a
    response, neither itself nor, for a candidate without response, its
    wildcard child; so whether a request is answered does not depend on
    the order of the pointers. *)
Theorem getValueFromTree_unanswered (root : ptr) (payload : list Z) :
  getValueFromTree ptr_lt h root payload = None
  <-> forall c, walk h root payload c -> luaResponse (matchedNode h c) = None.
Proof.
  pose proof (getValueFromTree_walk root payload) as Hwalk.
  destruct (getValueFromTree ptr_lt h root payload) as [r |].
  - split; [discriminate |]. intros Hall.
    destruct Hwalk as (c & Hc & Hr). rewrite (Hall c Hc) in Hr. discriminate.
  - split; [intros _; exact Hwalk | reflexivity].
Qed.
End Candidates.

(** ** The heap under the builder methods *)

Section HeapFacts.
Context {T : Type}.
Variable uninitialised : ptr -> bool.
Implicit Types (H : Heap T) (h : store T) (n : RequestByteTreeNode T).
Implicit Types (p c q this root : ptr) (e : PatternElement).

Lemma deref_lookup h p n : h !! p = Some n -> deref h p = n.
Proof. intros Hp. unfold deref. now rewrite Hp. Qed.

Lemma deref_invalid h p : h !! p = None -> deref h p = newNode false 0 0.
Proof. intros Hp. unfold deref. now rewrite Hp. Qed.

Lemma deref_valid h p : (p < length h)%nat -> h !! p = Some (deref h p).
Proof.
  intros Hp. destruct (lookup_lt_is_Some_2 h p Hp) as [n Hn].
  rewrite Hn. f_equal. symmetry. now apply deref_lookup.
Qed.

Lemma deref_link h p n' newN x :
  (p < length h)%nat ->
  deref (<[p := n']> (h ++ [newN])) x
  = if Nat.eq_dec x p then n'
    else if Nat.eq_dec x (length h) then newN else deref h x.
Proof.
  intros Hp. unfold deref.
  destruct (Nat.eq_dec x p) as [-> | Hne].
  - rewrite list_lookup_insert_eq; [reflexivity |]. rewrite length_app. simpl. lia.
  - rewrite list_lookup_insert_ne by congruence.
    destruct (Nat.eq_dec x (length h)) as [-> | Hne'].
    + rewrite lookup_app_r by lia. now rewrite Nat.sub_diag.
    + destruct (Nat.lt_ge_cases x (length h)) as [Hlt | Hge].
      * now rewrite lookup_app_l.
      * rewrite !lookup_ge_None_2; [reflexivity | lia |].
        rewrite length_app. simpl. lia.
Qed.

Lemma deref_update h q n' x :
  (q < length h)%nat ->
  deref (<[q := n']> h) x = if Nat.eq_dec x q then n' else deref h x.
Proof.
  intros Hq. unfold deref. destruct (Nat.eq_dec x q) as [-> | Hne].
  - now rewrite list_lookup_insert_eq.
  - now rewrite list_lookup_insert_ne by congruence.
Qed.

Lemma PatternElement_eq_dec e1 e2 : {e1 = e2} + {e1 <> e2}.
Proof. decide equality. apply Z.eq_dec. Qed.

Lemma edge_withEdge n e c e' :
  edge (withEdge n e c) e' = if PatternElement_eq_dec e' e then Some c else edge n e'.
Proof.
  destruct (PatternElement_eq_dec e' e) as [-> | Hne].
  - destruct e; cbn; [apply lookup_insert_eq | reflexivity | reflexivity].
  - destruct e, e'; cbn; try reflexivity; try congruence.
    apply lookup_insert_ne. congruence.
Qed.

Lemma edge_invalid h p e : (length h <= p)%nat -> edge (deref h p) e = None.
Proof.
  intros Hp. rewrite deref_invalid by now apply lookup_ge_None_2.
  destruct e; reflexivity.
Qed.

Lemma keeps_refl H : keeps H H.
Proof. split; [lia |]. split; [set_solver | auto]. Qed.

Lemma keeps_trans H1 H2 H3 : keeps H1 H2 -> keeps H2 H3 -> keeps H1 H3.
Proof.
  intros (L1 & D1 & E1) (L2 & D2 & E2).
  split; [lia |]. split; [set_solver | auto].
Qed.

(** A new node is linked below [this] for the element [e]. *)
Lemma link_spec root H this e nn :
  treeOk uninitialised root H ->
  (this < length (nodes H))%nat ->
  this ∉ deleted H ->
  edge (deref (nodes H) this) e = None ->
  (forall e', edge nn e' = None) ->
  luaResponse nn = None ->
  (e = PlaceholderElement ->
   placeholderCount nn = placeholderCount (deref (nodes H) this) + 1) ->
  ((forall x, uninitialised x = false) -> wildcard nn = isWildcardElement e) ->
  let H' := {| nodes := <[this := withEdge (deref (nodes H) this) e (length (nodes H))]>
                          (nodes H ++ [nn]);
               deleted := deleted H |} in
  treeOk uninitialised root H' /\ extendedBy H H' this e (length (nodes H)).
Proof.
  intros [Hroot Hord Hdel Hans Hclo Hph Hfl] Hthis Hlive Hnone Hnn Hresp Hcount Hflag H'.
  set (c := length (nodes H)) in *.
  assert (Hlen : length (nodes H') = S c).
  { subst H'. cbn [nodes]. rewrite length_insert, length_app. simpl. lia. }
  assert (Hd : forall x, deref (nodes H') x
                         = if Nat.eq_dec x this then withEdge (deref (nodes H) this) e c
                           else if Nat.eq_dec x c then nn else deref (nodes H) x).
  { intros x. subst H'. cbn [nodes]. now apply deref_link. }
  assert (Hedges : forall p e' x, edge (deref (nodes H') p) e' = Some x ->
            edge (deref (nodes H) p) e' = Some x \/ (p = this /\ e' = e /\ x = c)).
  { intros p e' x. rewrite Hd.
    destruct (Nat.eq_dec p this) as [-> | Hp].
    - rewrite edge_withEdge. destruct (PatternElement_eq_dec e' e) as [-> | He].
      + intros [= <-]. now right.
      + now left.
    - destruct (Nat.eq_dec p c) as [-> | Hc]; [now rewrite Hnn | now left]. }
  assert (Hkeep : forall p e' x, edge (deref (nodes H) p) e' = Some x ->
            edge (deref (nodes H') p) e' = Some x).
  { intros p e' x Hx. rewrite Hd.
    destruct (Nat.eq_dec p this) as [-> | Hp].
    - rewrite edge_withEdge. destruct (PatternElement_eq_dec e' e) as [-> | He];
        [congruence | exact Hx].
    - destruct (Nat.eq_dec p c) as [-> | Hc]; [| exact Hx].
      apply Hord in Hx. lia. }
  assert (Hsame : forall x, x <> this -> x <> c -> deref (nodes H') x = deref (nodes H) x).
  { intros x H1 H2. rewrite Hd.
    destruct (Nat.eq_dec x this); [contradiction |].
    destruct (Nat.eq_dec x c); [contradiction | reflexivity]. }
  assert (Hthis' : deref (nodes H') this = withEdge (deref (nodes H) this) e c).
  { rewrite Hd. destruct (Nat.eq_dec this this); [reflexivity | contradiction]. }
  assert (Hc' : deref (nodes H') c = nn).
  { rewrite Hd. destruct (Nat.eq_dec c this); [lia |].
    destruct (Nat.eq_dec c c); [reflexivity | contradiction]. }
  assert (Hresp' : forall x, luaResponse (deref (nodes H') x)
                             = luaResponse (deref (nodes H) x)).
  { intros x. rewrite Hd. destruct (Nat.eq_dec x this) as [-> | Hx].
    - destruct e; reflexivity.
    - destruct (Nat.eq_dec x c) as [-> | Hxc]; [| reflexivity].
      rewrite Hresp, deref_invalid by (apply lookup_ge_None_2; lia). reflexivity. }
  assert (Hcnt' : forall x, x <> c -> placeholderCount (deref (nodes H') x)
                             = placeholderCount (deref (nodes H) x)).
  { intros x Hxc. rewrite Hd. destruct (Nat.eq_dec x this) as [-> | Hx].
    - destruct e; reflexivity.
    - destruct (Nat.eq_dec x c); [contradiction | reflexivity]. }
  assert (Hw' : forall x, x <> c -> wildcard (deref (nodes H') x)
                             = wildcard (deref (nodes H) x)).
  { intros x Hxc. rewrite Hd. destruct (Nat.eq_dec x this) as [-> | Hx].
    - destruct e; reflexivity.
    - destruct (Nat.eq_dec x c); [contradiction | reflexivity]. }
  split.
  - constructor.
    + rewrite Hlen. lia.
    + intros p e' x Hx. rewrite Hlen.
      destruct (Hedges p e' x Hx) as [Hold | (-> & -> & ->)]; [| lia].
      apply Hord in Hold. lia.
    + intros p Hp. rewrite Hlen. apply Hdel in Hp. lia.
    + intros p Hp. rewrite Hresp' in Hp. now apply Hans.
    + intros p e' x Hp Hx. cbn [deleted H'] in *.
      destruct (Hedges p e' x Hx) as [Hold | (-> & _)]; [| contradiction].
      now apply (Hclo p e' x).
    + intros p x Hx.
      destruct (Hedges p PlaceholderElement x Hx) as [Hold | (-> & He & ->)].
      * pose proof (Hord _ _ _ Hold) as Hlt.
        rewrite !Hcnt' by lia. exact (Hph p x Hold).
      * rewrite Hc', (Hcnt' this) by lia. now apply Hcount.
    + intros Hz. destruct (Hfl Hz) as [Hr Hall]. split.
      * rewrite Hw' by lia. exact Hr.
      * intros p e' x Hx.
        destruct (Hedges p e' x Hx) as [Hold | (-> & -> & ->)].
        -- pose proof (Hord _ _ _ Hold) as Hlt. rewrite Hw' by lia. exact (Hall p e' x Hold).
        -- rewrite Hc'. now apply Hflag.
  - split; [exact Hlive |]. split; [reflexivity |].
    split; [rewrite Hthis', edge_withEdge;
            destruct (PatternElement_eq_dec e e); [reflexivity | contradiction] |].
    split; [| exact Hedges].
    split; [rewrite Hlen; lia |]. split; [reflexivity | exact Hkeep].
Qed.

Lemma withPlaceholderCount_id n : withPlaceholderCount n (placeholderCount n) = n.
Proof. now destruct n. Qed.

Lemma heap_eta H : {| nodes := nodes H; deleted := deleted H |} = H.
Proof. now destruct H. Qed.

Lemma extendedBy_existing H this e c :
  this ∉ deleted H -> edge (deref (nodes H) this) e = Some c ->
  extendedBy H H this e c.
Proof.
  intros Hlive Hedge. split; [exact Hlive |]. split; [reflexivity |].
  split; [exact Hedge |]. split; [apply keeps_refl | now left].
Qed.

Lemma appendByte_existing H this b c :
  this ∉ deleted H -> subsequentByte (deref (nodes H) this) !! b = Some c ->
  appendByte uninitialised this b H = (H, Returned c).
Proof.
  intros Hlive Hc. unfold appendByte, bind, load.
  rewrite bool_decide_eq_false_2 by exact Hlive. now rewrite Hc.
Qed.

Lemma appendByte_run root H this b H' out :
  treeOk uninitialised root H -> (this < length (nodes H))%nat ->
  appendByte uninitialised this b H = (H', out) ->
  match out with
  | Returned c => treeOk uninitialised root H' /\ extendedBy H H' this (ByteElement b) c
  | Thrown _ => False
  | Undefined _ => True
  end.
Proof.
  intros Hok Hthis. unfold appendByte, bind, load.
  destruct (decide (this ∈ deleted H)) as [Hdead | Hlive].
  - rewrite bool_decide_eq_true_2 by exact Hdead. now intros [= <- <-].
  - rewrite bool_decide_eq_false_2 by exact Hlive.
    destruct (subsequentByte (deref (nodes H) this) !! b) as [c |] eqn:Hc.
    + intros [= <- <-]. split; [exact Hok | now apply extendedBy_existing].
    + unfold alloc, storeNode, ret. cbn [nodes deleted]. intros [= <- <-].
      apply (link_spec root H this (ByteElement b)); try assumption; try reflexivity.
      * intros []; reflexivity.
      * discriminate.
      * intros Hz. apply Hz.
Qed.

Lemma appendPlaceholder_existing root H this c :
  treeOk uninitialised root H ->
  this ∉ deleted H -> subsequentPlaceholder (deref (nodes H) this) = Some c ->
  c ∉ deleted H ->
  appendPlaceholder uninitialised this H = (H, Returned c).
Proof.
  intros Hok Hlive Hc Hclive. unfold appendPlaceholder, bind, load.
  rewrite bool_decide_eq_false_2 by exact Hlive. rewrite Hc. unfold ret.
  rewrite bool_decide_eq_false_2 by exact Hclive.
  unfold storeNode. rewrite <- (ok_placeholder _ _ _ Hok this c Hc).
  rewrite withPlaceholderCount_id, list_insert_id.
  - now rewrite heap_eta.
  - apply deref_valid. pose proof (ok_ordered _ _ _ Hok this PlaceholderElement c Hc). lia.
Qed.

Lemma appendPlaceholder_run root H this H' out :
  treeOk uninitialised root H -> (this < length (nodes H))%nat ->
  appendPlaceholder uninitialised this H = (H', out) ->
  match out with
  | Returned c => treeOk uninitialised root H' /\ extendedBy H H' this PlaceholderElement c
  | Thrown _ => False
  | Undefined _ => True
  end.
Proof.
  intros Hok Hthis.
  destruct (decide (this ∈ deleted H)) as [Hdead | Hlive].
  { unfold appendPlaceholder, bind, load.
    rewrite bool_decide_eq_true_2 by exact Hdead. now intros [= <- <-]. }
  destruct (subsequentPlaceholder (deref (nodes H) this)) as [c |] eqn:Hc.
  - destruct (decide (c ∈ deleted H)) as [Hcdead | Hclive].
    + unfold appendPlaceholder, bind, load.
      rewrite bool_decide_eq_false_2 by exact Hlive. rewrite Hc. unfold ret.
      rewrite bool_decide_eq_true_2 by exact Hcdead. now intros [= <- <-].
    + rewrite (appendPlaceholder_existing root H this c Hok Hlive Hc Hclive).
      intros [= <- <-]. split; [exact Hok | now apply extendedBy_existing].
  - unfold appendPlaceholder, bind, load.
    rewrite bool_decide_eq_false_2 by exact Hlive. rewrite Hc.
    unfold alloc, storeNode, ret, bind. cbn [nodes deleted].
    rewrite bool_decide_eq_false_2
      by (intros Hin; apply (ok_deleted _ _ _ Hok) in Hin; lia).
    cbn [nodes deleted].
    set (nn := newNode (uninitialised (length (nodes H)))
                 (placeholderCount (deref (nodes H) this) + 1)
                 (requestLength (deref (nodes H) this) + 1)).
    assert (Hd : deref (<[this := withSubsequentPlaceholder (deref (nodes H) this)
                                    (length (nodes H))]> (nodes H ++ [nn]))
                       (length (nodes H)) = nn).
    { rewrite deref_link by exact Hthis.
      destruct (Nat.eq_dec (length (nodes H)) this); [lia |].
      destruct (Nat.eq_dec (length (nodes H)) (length (nodes H))); [reflexivity | lia]. }
    rewrite Hd.
    change (withPlaceholderCount nn (placeholderCount (deref (nodes H) this) + 1)) with nn.
    rewrite list_insert_id.
    + intros [= <- <-].
      apply (link_spec root H this PlaceholderElement nn); try assumption; try reflexivity.
      * intros []; reflexivity.
      * intros Hz. apply Hz.
    + rewrite <- Hd at 2. apply deref_valid.
      rewrite length_insert, length_app. simpl. lia.
Qed.

Lemma appendWildcard_existing H this w :
  this ∉ deleted H -> subsequentWildcard (deref (nodes H) this) = Some w ->
  appendWildcard uninitialised this H = (H, Thrown WildcardAlreadyExists).
Proof.
  intros Hlive Hw. unfold appendWildcard, bind, load.
  rewrite bool_decide_eq_false_2 by exact Hlive. now rewrite Hw.
Qed.

Lemma appendWildcard_run root H this H' out :
  treeOk uninitialised root H -> (this < length (nodes H))%nat ->
  appendWildcard uninitialised this H = (H', out) ->
  match out with
  | Returned c =>
      treeOk uninitialised root H' /\ extendedBy H H' this WildcardElement c
      /\ c = length (nodes H)
  | Thrown e =>
      H' = H /\ e = WildcardAlreadyExists /\ (this ∉ deleted H)
      /\ is_Some (subsequentWildcard (deref (nodes H) this))
  | Undefined _ => True
  end.
Proof.
  intros Hok Hthis.
  destruct (decide (this ∈ deleted H)) as [Hdead | Hlive].
  { unfold appendWildcard, bind, load.
    rewrite bool_decide_eq_true_2 by exact Hdead. now intros [= <- <-]. }
  destruct (subsequentWildcard (deref (nodes H) this)) as [w |] eqn:Hw.
  - rewrite (appendWildcard_existing H this w Hlive Hw). intros [= <- <-].
    eauto.
  - unfold appendWildcard, bind, load.
    rewrite bool_decide_eq_false_2 by exact Hlive. rewrite Hw.
    unfold alloc, storeNode, ret, bind. cbn [nodes deleted].
    rewrite bool_decide_eq_false_2
      by (intros Hin; apply (ok_deleted _ _ _ Hok) in Hin; lia).
    cbn [nodes deleted].
    set (nn := newNode (uninitialised (length (nodes H)))
                 (placeholderCount (deref (nodes H) this))
                 (requestLength (deref (nodes H) this) + 1)).
    assert (Hd : deref (<[this := withSubsequentWildcard (deref (nodes H) this)
                                    (length (nodes H))]> (nodes H ++ [nn]))
                       (length (nodes H)) = nn).
    { rewrite deref_link by exact Hthis.
      destruct (Nat.eq_dec (length (nodes H)) this); [lia |].
      destruct (Nat.eq_dec (length (nodes H)) (length (nodes H))); [reflexivity | lia]. }
    rewrite Hd.
    rewrite list_insert_insert_ne by lia.
    rewrite insert_app_r_alt by lia. rewrite Nat.sub_diag. cbn [insert list_insert].
    intros [= <- <-].
    assert (Hl : treeOk uninitialised root
                   {| nodes := <[this := withEdge (deref (nodes H) this) WildcardElement
                                           (length (nodes H))]>
                                 (nodes H ++ [withWildcard nn true]);
                      deleted := deleted H |}
                 /\ extendedBy H
                      {| nodes := <[this := withEdge (deref (nodes H) this) WildcardElement
                                              (length (nodes H))]>
                                    (nodes H ++ [withWildcard nn true]);
                         deleted := deleted H |} this WildcardElement (length (nodes H))).
    { apply (link_spec root H this WildcardElement (withWildcard nn true));
        try assumption; try reflexivity.
      - intros []; reflexivity.
      - discriminate. }
    exact (conj (proj1 Hl) (conj (proj2 Hl) eq_refl)).
Qed.

(** *** Walking down for a key *)

Lemma pair_ind {A} (P : list A -> Prop) :
  P [] -> (forall a, P [a]) -> (forall a1 a2 rest, P rest -> P (a1 :: a2 :: rest)) ->
  forall s, P s.
Proof.
  intros Hnil Hone Hstep.
  assert (Hgen : forall k s, (length s <= k)%nat -> P s).
  { induction k as [| k IH]; intros [| c1 [| c2 rest]] Hlen; simpl in Hlen;
      try lia; auto.
    apply Hstep, IH. lia. }
  intros s. apply (Hgen (length s)). lia.
Qed.

Lemma mod2_SS (k : nat) : (S (S k) mod 2 = k mod 2)%nat.
Proof.
  replace (S (S k)) with (k + 1 * 2)%nat by lia. now rewrite Nat.Div0.mod_add.
Qed.

Lemma elementsOf_pairs (s : list ascii) :
  elementsOf s
  = pairElements s
    ++ (if negb (length s mod 2 =? 0)%nat
        then match last s with
             | Some c => if Ascii.eqb c "*"%char then [WildcardElement] else []
             | None => []
             end
        else []).
Proof.
  induction s as [| c | c1 c2 rest IH] using pair_ind.
  - reflexivity.
  - cbn. destruct (Ascii.eqb c "*"%char); reflexivity.
  - cbn [elementsOf pairElements length app]. rewrite mod2_SS, IH. f_equal. f_equal.
    destruct rest as [| x rest]; reflexivity.
Qed.

Lemma descend_keeps H H' (pattern : list PatternElement) : forall p q,
  keeps H H' ->
  descend (nodes H) p pattern = Some q -> descend (nodes H') p pattern = Some q.
Proof.
  induction pattern as [| e pattern IH]; intros p q Hk; cbn [descend]; [auto |].
  destruct (edge (deref (nodes H) p) e) as [c |] eqn:Hc; [| discriminate].
  destruct Hk as (Hl & Hd & He). rewrite (He p e c Hc).
  apply IH. repeat split; assumption.
Qed.

Lemma descend_app h (path1 path2 : list PatternElement) : forall p,
  descend h p (path1 ++ path2)
  = match descend h p path1 with
    | Some x => descend h x path2
    | None => None
    end.
Proof.
  induction path1 as [| e path1 IH]; intros p; cbn [app descend]; [reflexivity |].
  destruct (edge (deref h p) e) as [c |]; [apply IH | reflexivity].
Qed.

Lemma descend_valid root H (pattern : list PatternElement) : forall p q,
  treeOk uninitialised root H -> (p < length (nodes H))%nat ->
  descend (nodes H) p pattern = Some q ->
  (p + length pattern <= q)%nat /\ (q < length (nodes H))%nat.
Proof.
  induction pattern as [| e pattern IH]; intros p q Hok Hp; cbn [descend length].
  - intros [= <-]. lia.
  - destruct (edge (deref (nodes H) p) e) as [c |] eqn:Hc; [| discriminate].
    intros Hq. pose proof (ok_ordered _ _ _ Hok p e c Hc) as Hlt.
    destruct (IH c q Hok ltac:(lia) Hq). lia.
Qed.

Lemma descend_deleted root H (pattern : list PatternElement) : forall p q,
  treeOk uninitialised root H -> p ∈ deleted H ->
  descend (nodes H) p pattern = Some q -> q ∈ deleted H.
Proof.
  induction pattern as [| e pattern IH]; intros p q Hok Hp; cbn [descend].
  - now intros [= <-].
  - destruct (edge (deref (nodes H) p) e) as [c |] eqn:Hc; [| discriminate].
    apply IH; [exact Hok |]. exact (ok_closed _ _ _ Hok p e c Hp Hc).
Qed.

Lemma walked_cons H H1 H' p e c (pattern : list PatternElement) q :
  extendedBy H H1 p e c -> walked H1 H' c pattern q ->
  walked H H' p (e :: pattern) q.
Proof.
  intros (Hlive & Hdel & Hedge & Hkeep & _) (Hkeep' & Hdel' & Hdesc & Hq & Hpath).
  assert (Hedge' : edge (deref (nodes H') p) e = Some c)
    by (destruct Hkeep' as (_ & _ & He); now apply He).
  split; [eapply keeps_trans; eassumption |].
  split; [congruence |].
  split; [cbn [descend]; now rewrite Hedge' |].
  split; [exact Hq |].
  intros [| e' path1] path2 x Heq Hne; cbn [descend].
  - intros [= <-]. congruence.
  - cbn [app] in Heq. injection Heq as <- Heq. rewrite Hedge'.
    exact (Hpath path1 path2 x Heq Hne).
Qed.

Lemma addRequestBytes_run root (s : list ascii) : forall H p H' out,
  Forall (fun a : ascii => a <> " "%char) s ->
  treeOk uninitialised root H -> (p < length (nodes H))%nat ->
  addRequestBytes uninitialised s p H = (H', out) ->
  match out with
  | Returned q =>
      treeOk uninitialised root H' /\ walked H H' p (pairElements s) q
      /\ forall x w, subsequentWildcard (deref (nodes H') x) = Some w ->
                     subsequentWildcard (deref (nodes H) x) = Some w
  | Thrown _ => False
  | Undefined _ => True
  end.
Proof.
  induction s as [| c | c1 c2 rest IH] using pair_ind; intros H p H' out Hs Hok Hp.
  - cbn. intros [= <- <-]. split; [exact Hok |]. split; [| auto].
    split; [apply keeps_refl |]. split; [reflexivity |]. split; [reflexivity |].
    split; [exact Hp |]. intros [| ? ?] path2 x Heq Hne; [| discriminate].
    cbn in Heq. congruence.
  - cbn. intros [= <- <-]. split; [exact Hok |]. split; [| auto].
    split; [apply keeps_refl |]. split; [reflexivity |]. split; [reflexivity |].
    split; [exact Hp |]. intros [| ? ?] path2 x Heq Hne; [| discriminate].
    cbn in Heq. congruence.
  - inversion Hs as [| ? ? Hc1 Hs1]; subst. inversion Hs1 as [| ? ? Hc2 Hrest]; subst.
    cbn [addRequestBytes pairElements]. unfold bind at 1.
    rewrite (hexPair_nonempty c1 c2 Hc1 Hc2). cbn [nth].
    set (e := if isPlaceholder c1 c2 then PlaceholderElement
              else ByteElement (uint8 (strtol [c1; c2] 16))).
    destruct ((if isPlaceholder c1 c2
               then appendPlaceholder uninitialised p
               else appendByte uninitialised p (uint8 (strtol [c1; c2] 16))) H)
      as [H1 out1] eqn:Hrun.
    assert (Hstep : match out1 with
                    | Returned c => treeOk uninitialised root H1 /\ extendedBy H H1 p e c
                    | Thrown _ => False
                    | Undefined _ => True
                    end).
    { subst e. destruct (isPlaceholder c1 c2).
      - exact (appendPlaceholder_run root H p H1 out1 Hok Hp Hrun).
      - exact (appendByte_run root H p _ H1 out1 Hok Hp Hrun). }
    destruct out1 as [c | ex | u].
    + destruct Hstep as [Hok1 Hext].
      assert (Hc : (c < length (nodes H1))%nat).
      { destruct Hext as (_ & _ & Hedge & _).
        pose proof (ok_ordered _ _ _ Hok1 p e c Hedge). lia. }
      intros Hrun'. specialize (IH H1 c H' out Hrest Hok1 Hc Hrun').
      destruct out as [q | ex | u]; [| exact IH | exact I].
      destruct IH as (Hok' & Hwalk & Hwild).
      split; [exact Hok' |].
      split; [fold e; eapply walked_cons; eassumption |].
      intros x w Hw. apply Hwild in Hw.
      destruct Hext as (_ & _ & _ & _ & Hedges).
      destruct (Hedges x WildcardElement w Hw) as [Hold | (_ & He & _)]; [exact Hold |].
      subst e. destruct (isPlaceholder c1 c2); discriminate.
    + destruct Hstep.
    + now intros [= <- <-].
Qed.

Lemma walked_refl H p : (p < length (nodes H))%nat -> walked H H p [] p.
Proof.
  intros Hp. split; [apply keeps_refl |]. split; [reflexivity |].
  split; [reflexivity |]. split; [exact Hp |].
  intros [| ? ?] path2 x Heq Hne; [| discriminate]. cbn in Heq. congruence.
Qed.

Lemma walked_snoc root H H1 H' p (pattern : list PatternElement) q e c :
  treeOk uninitialised root H' ->
  walked H H1 p pattern q -> extendedBy H1 H' q e c ->
  walked H H' p (pattern ++ [e]) c.
Proof.
  intros Hok' (Hkeep & Hdel & Hdesc & Hq & Hpath) (Hlive & Hdel' & Hedge & Hkeep' & _).
  assert (Hdesc' : descend (nodes H') p pattern = Some q)
    by (eapply descend_keeps; eassumption).
  split; [eapply keeps_trans; eassumption |].
  split; [congruence |].
  split; [rewrite descend_app, Hdesc'; cbn [descend]; now rewrite Hedge |].
  split; [pose proof (ok_ordered _ _ _ Hok' q e c Hedge); lia |].
  intros path1 path2 x Heq Hne Hx. rewrite Hdel'.
  destruct (exists_last Hne) as (path2' & e' & ->).
  rewrite app_assoc in Heq. apply app_inj_tail in Heq as [-> _].
  destruct path2' as [| e2 path2'].
  - rewrite app_nil_r in Hdesc'. assert (x = q) as -> by congruence. exact Hlive.
  - rewrite descend_app in Hdesc.
    destruct (descend (nodes H1) p path1) as [x' |] eqn:Hx'; [| discriminate].
    assert (x' = x) as ->.
    { pose proof (descend_keeps H1 H' path1 p x' Hkeep' Hx'). congruence. }
    now apply (Hpath path1 (e2 :: path2') x).
Qed.

Lemma addRequestToTree_run root (s : list ascii) H H' out :
  Forall (fun a : ascii => a <> " "%char) s ->
  treeOk uninitialised root H ->
  addRequestToTree uninitialised root s H = (H', out) ->
  match out with
  | Returned leaf =>
      treeOk uninitialised root H' /\ walked H H' root (elementsOf s) leaf
      /\ forall x w, subsequentWildcard (deref (nodes H') x) = Some w ->
            subsequentWildcard (deref (nodes H) x) = Some w
            \/ (w = leaf /\ x ∉ deleted H)
  | Thrown ex =>
      treeOk uninitialised root H' /\ keeps H H' /\ deleted H' = deleted H
      /\ (forall x w, subsequentWildcard (deref (nodes H') x) = Some w ->
                      subsequentWildcard (deref (nodes H) x) = Some w)
      /\ ((ex = OddNumberOfDigits /\ (length s mod 2)%nat <> 0%nat
           /\ last s <> Some "*"%char)
          \/ (ex = WildcardAlreadyExists /\ wildcardTerminated s
              /\ exists p w, descend (nodes H') root (pairElements s) = Some p
                             /\ (p ∉ deleted H')
                             /\ subsequentWildcard (deref (nodes H') p) = Some w))
  | Undefined _ => True
  end.
Proof.
  intros Hs Hok. unfold addRequestToTree, bind.
  destruct (addRequestBytes uninitialised s root H) as [H1 out1] eqn:Hrun.
  pose proof (addRequestBytes_run root s H root H1 out1 Hs Hok (ok_root _ _ _ Hok) Hrun)
    as Hbytes.
  destruct out1 as [q | ex | u]; [| destruct Hbytes | now intros [= <- <-]].
  destruct Hbytes as (Hok1 & Hwalk & Hwild).
  rewrite (elementsOf_pairs s).
  destruct (length s mod 2 =? 0)%nat eqn:Hpar; cbn [negb].
  { unfold ret. intros [= <- <-]. rewrite app_nil_r.
    split; [exact Hok1 |]. split; [exact Hwalk |]. intros x w Hw. left. now apply Hwild. }
  apply Nat.eqb_neq in Hpar.
  assert (Hthrown : last s <> Some "*"%char ->
            treeOk uninitialised root H1 /\ keeps H H1 /\ deleted H1 = deleted H
            /\ (forall x w, subsequentWildcard (deref (nodes H1) x) = Some w ->
                            subsequentWildcard (deref (nodes H) x) = Some w)
            /\ ((OddNumberOfDigits = OddNumberOfDigits /\ (length s mod 2)%nat <> 0%nat
                 /\ last s <> Some "*"%char)
                \/ (OddNumberOfDigits = WildcardAlreadyExists /\ wildcardTerminated s
                    /\ exists p w, descend (nodes H1) root (pairElements s) = Some p
                                   /\ (p ∉ deleted H1)
                                   /\ subsequentWildcard (deref (nodes H1) p) = Some w))).
  { intros Hlast. destruct Hwalk as (Hk & Hd & _).
    split; [exact Hok1 |]. split; [exact Hk |]. split; [exact Hd |].
    split; [exact Hwild |]. left. auto. }
  destruct (last s) as [c |] eqn:Hlast.
  - destruct (Ascii.eqb_spec c "*"%char) as [-> | Hc].
    + intros Hrun'.
      assert (Hq : (q < length (nodes H1))%nat) by (destruct Hwalk as (_ & _ & _ & Hq & _); exact Hq).
      pose proof (appendWildcard_run root H1 q H' out Hok1 Hq Hrun') as Hw.
      destruct out as [leaf | ex | u]; [| | exact I].
      * destruct Hw as (Hok' & Hext & Hleaf).
        split; [exact Hok' |].
        split; [eapply walked_snoc; eassumption |].
        intros x w Hxw. destruct Hext as (Hlive & _ & _ & _ & Hedges).
        destruct (Hedges x WildcardElement w Hxw) as [Hold | (-> & _ & ->)].
        -- left. now apply Hwild.
        -- right. split; [reflexivity |].
           destruct Hwalk as (_ & Hd & _). now rewrite <- Hd.
      * destruct Hw as (-> & -> & Hlive & [w Hw]).
        destruct Hwalk as (Hk & Hd & Hdesc & _).
        split; [exact Hok1 |]. split; [exact Hk |]. split; [exact Hd |].
        split; [exact Hwild |]. right.
        split; [reflexivity |]. split; [split; [exact Hpar | exact Hlast] |].
        exists q, w. auto.
    + unfold throw. intros [= <- <-]. apply Hthrown. congruence.
  - unfold throw. intros [= <- <-]. apply Hthrown. discriminate.
Qed.

(** *** Deleting a node *)

Lemma children_edge n c : In c (children n) <-> exists e, edge n e = Some c.
Proof.
  unfold children. rewrite !in_app_iff. split.
  - intros [Hw | [Hp | Hb]].
    + destruct (subsequentWildcard n) as [w |] eqn:Hw'; [| destruct Hw].
      destruct Hw as [-> | []]. now exists WildcardElement.
    + destruct (subsequentPlaceholder n) as [w |] eqn:Hp'; [| destruct Hp].
      destruct Hp as [-> | []]. now exists PlaceholderElement.
    + apply in_map_iff in Hb as ([b c'] & Hc & Hin). cbn in Hc. subst c'.
      apply list_elem_of_In, elem_of_map_to_list in Hin. now exists (ByteElement b).
  - intros [[b | |] He]; cbn [edge] in He.
    + right. right. apply in_map_iff. exists (b, c). split; [reflexivity |].
      now apply list_elem_of_In, elem_of_map_to_list.
    + right. left. rewrite He. now left.
    + left. rewrite He. now left.
Qed.

Lemma owned_descend h (fuel : nat) : forall p x,
  In x (owned fuel h p)
  <-> exists path : list PatternElement,
        (length path < fuel)%nat /\ descend h p path = Some x.
Proof.
  induction fuel as [| fuel IH]; intros p x; cbn [owned].
  - split; [intros [] | intros (path & Hlen & _); lia].
  - cbn [In]. rewrite in_concat. split.
    + intros [<- | (l & Hl & Hx)].
      * exists []. split; [simpl; lia | reflexivity].
      * apply in_map_iff in Hl as (c & <- & Hc).
        apply children_edge in Hc as [e He].
        apply IH in Hx as (path & Hlen & Hdesc).
        exists (e :: path). split; [simpl; lia |]. cbn [descend]. now rewrite He.
    + intros ([| e path] & Hlen & Hdesc); cbn [descend] in Hdesc.
      * left. congruence.
      * right. destruct (edge (deref h p) e) as [c |] eqn:He; [| discriminate].
        exists (owned fuel h c). split.
        -- apply in_map_iff. exists c. split; [reflexivity |].
           apply children_edge. now exists e.
        -- apply IH. exists path. split; [simpl in Hlen; lia | exact Hdesc].
Qed.

Lemma owned_self h (fuel : nat) p : In p (owned (S fuel) h p).
Proof. now left. Qed.

Lemma owned_all root H p (path : list PatternElement) x :
  treeOk uninitialised root H -> (p < length (nodes H))%nat ->
  descend (nodes H) p path = Some x ->
  In x (owned (S (length (nodes H))) (nodes H) p).
Proof.
  intros Hok Hp Hx. apply owned_descend. exists path. split; [| exact Hx].
  destruct (descend_valid root H path p x Hok Hp Hx). lia.
Qed.

Lemma owned_closed root H p x e c :
  treeOk uninitialised root H -> (p < length (nodes H))%nat ->
  In x (owned (S (length (nodes H))) (nodes H) p) ->
  edge (deref (nodes H) x) e = Some c ->
  In c (owned (S (length (nodes H))) (nodes H) p).
Proof.
  intros Hok Hp Hx He. apply owned_descend in Hx as (path & _ & Hx).
  apply (owned_all root H p (path ++ [e]) c Hok Hp).
  rewrite descend_app, Hx. cbn [descend]. now rewrite He.
Qed.

Lemma owned_range root H p x :
  treeOk uninitialised root H -> (p < length (nodes H))%nat ->
  In x (owned (S (length (nodes H))) (nodes H) p) ->
  (p <= x < length (nodes H))%nat.
Proof.
  intros Hok Hp Hx. apply owned_descend in Hx as (path & _ & Hx).
  destruct (descend_valid root H path p x Hok Hp Hx). lia.
Qed.

Lemma existsb_deleted H (l : list ptr) :
  existsb (fun x => bool_decide (x ∈ deleted H)) l = false
  <-> forall x, In x l -> x ∉ deleted H.
Proof.
  rewrite <- not_true_iff_false, existsb_exists. split.
  - intros Hno x Hx Hin. apply Hno. exists x. split; [exact Hx |].
    now apply bool_decide_eq_true_2.
  - intros Hall (x & Hx & Hd). apply bool_decide_eq_true_1 in Hd. now apply (Hall x).
Qed.

(** One round of the loading loop in which the key is accepted: the walk,
    the response, the deletion of the leaf. *)
Lemma addKey_accepted (f : list ascii -> T) root k H H' :
  addKey uninitialised f root k H = (H', Returned None) ->
  exists H1 leaf,
    addRequestToTree uninitialised root (cleanupString k) H = (H1, Returned leaf)
    /\ (leaf ∉ deleted H1)
    /\ (forall x,
          In x (owned (S (length (<[leaf := withLuaResponse (deref (nodes H1) leaf) (f k)]>
                                    (nodes H1))))
                     (<[leaf := withLuaResponse (deref (nodes H1) leaf) (f k)]> (nodes H1))
                     leaf) ->
          x ∉ deleted H1)
    /\ H' = {| nodes := <[leaf := withLuaResponse (deref (nodes H1) leaf) (f k)]> (nodes H1);
               deleted := deleted H1
                          ∪ list_to_set
                              (owned (S (length (<[leaf := withLuaResponse
                                                             (deref (nodes H1) leaf) (f k)]>
                                                   (nodes H1))))
                                     (<[leaf := withLuaResponse (deref (nodes H1) leaf) (f k)]>
                                        (nodes H1))
                                     leaf) |}.
Proof.
  unfold addKey, try_catch, bind.
  destruct (addRequestToTree uninitialised root (cleanupString k) H) as [H1 [leaf | ex | u]];
    [| unfold ret; discriminate | discriminate].
  unfold setLuaResponse, bind, load.
  destruct (decide (leaf ∈ deleted H1)) as [Hdead | Hlive].
  { rewrite bool_decide_eq_true_2 by exact Hdead. discriminate. }
  rewrite bool_decide_eq_false_2 by exact Hlive.
  unfold storeNode, ret, dropOwner. cbn [nodes deleted].
  destruct (existsb _ _) eqn:Hex; [discriminate |].
  intros [= <-]. exists H1, leaf.
  split; [reflexivity |]. split; [exact Hlive |]. split; [| reflexivity].
  now apply existsb_deleted.
Qed.

Lemma addKey_ignored (f : list ascii -> T) root k H H' ex :
  addKey uninitialised f root k H = (H', Returned (Some ex)) ->
  addRequestToTree uninitialised root (cleanupString k) H = (H', Thrown ex).
Proof.
  unfold addKey, try_catch, bind.
  destruct (addRequestToTree uninitialised root (cleanupString k) H) as [H1 [leaf | ex' | u]].
  - unfold setLuaResponse, bind, load.
    destruct (bool_decide (leaf ∈ deleted H1)); [discriminate |].
    unfold storeNode, ret, dropOwner. cbn [nodes deleted].
    destruct (existsb _ _); discriminate.
  - unfold ret. now intros [= <- <-].
  - discriminate.
Qed.

Lemma addKey_not_thrown (f : list ascii -> T) root k H H' ex :
  addKey uninitialised f root k H <> (H', Thrown ex).
Proof.
  unfold addKey, try_catch, bind.
  destruct (addRequestToTree uninitialised root (cleanupString k) H) as [H1 [leaf | ex' | u]].
  - unfold setLuaResponse, bind, load.
    destruct (bool_decide (leaf ∈ deleted H1)); [discriminate |].
    unfold storeNode, ret, dropOwner. cbn [nodes deleted].
    destruct (existsb _ _); discriminate.
  - unfold ret. discriminate.
  - discriminate.
Qed.

Lemma owned_ext h h' (fuel : nat) : forall p,
  (forall x, children (deref h x) = children (deref h' x)) ->
  owned fuel h p = owned fuel h' p.
Proof.
  induction fuel as [| fuel IH]; intros p Hc; [reflexivity |].
  cbn [owned]. rewrite Hc. f_equal. f_equal. apply map_ext. intros c. now apply IH.
Qed.

(** The heap after the leaf of an accepted key got its response and was
    deleted. *)
Lemma accepted_heap root H1 leaf (r : T) :
  treeOk uninitialised root H1 -> (leaf < length (nodes H1))%nat ->
  (forall x,
     In x (owned (S (length (<[leaf := withLuaResponse (deref (nodes H1) leaf) r]>
                               (nodes H1))))
                (<[leaf := withLuaResponse (deref (nodes H1) leaf) r]> (nodes H1)) leaf) ->
     x ∉ deleted H1) ->
  (forall x w, subsequentWildcard (deref (nodes H1) x) = Some w ->
     (w ∈ deleted H1 \/ w = leaf) /\ (x ∉ deleted H1)) ->
  let H' := {| nodes := <[leaf := withLuaResponse (deref (nodes H1) leaf) r]> (nodes H1);
               deleted := deleted H1
                          ∪ list_to_set
                              (owned (S (length (<[leaf := withLuaResponse
                                                             (deref (nodes H1) leaf) r]>
                                                   (nodes H1))))
                                     (<[leaf := withLuaResponse (deref (nodes H1) leaf) r]>
                                        (nodes H1))
                                     leaf) |} in
  treeOk uninitialised root H' /\ settled H' /\ keeps H1 H' /\ leaf ∈ deleted H'
  /\ (forall x path, descend (nodes H1) leaf path = Some x -> x ∈ deleted H').
Proof.
  intros Hok Hleaf Hfresh Hwild H'.
  set (h2 := <[leaf := withLuaResponse (deref (nodes H1) leaf) r]> (nodes H1)) in *.
  assert (Hlen : length h2 = length (nodes H1)) by (subst h2; apply length_insert).
  assert (Hd : forall x, deref h2 x
                         = if Nat.eq_dec x leaf
                           then withLuaResponse (deref (nodes H1) leaf) r
                           else deref (nodes H1) x).
  { intros x. subst h2. now apply deref_update. }
  assert (Hedge : forall x e, edge (deref h2 x) e = edge (deref (nodes H1) x) e).
  { intros x e. rewrite Hd. destruct (Nat.eq_dec x leaf) as [-> |]; [| reflexivity].
    destruct e; reflexivity. }
  assert (Hchildren : forall x, children (deref h2 x) = children (deref (nodes H1) x)).
  { intros x. rewrite Hd. destruct (Nat.eq_dec x leaf) as [-> |]; reflexivity. }
  assert (Hcount : forall x, placeholderCount (deref h2 x)
                             = placeholderCount (deref (nodes H1) x)).
  { intros x. rewrite Hd. destruct (Nat.eq_dec x leaf) as [-> |]; reflexivity. }
  assert (Hflag : forall x, wildcard (deref h2 x) = wildcard (deref (nodes H1) x)).
  { intros x. rewrite Hd. destruct (Nat.eq_dec x leaf) as [-> |]; reflexivity. }
  assert (Hresp : forall x, x <> leaf ->
            luaResponse (deref h2 x) = luaResponse (deref (nodes H1) x)).
  { intros x Hx. rewrite Hd. destruct (Nat.eq_dec x leaf); [contradiction | reflexivity]. }
  assert (Hown : owned (S (length h2)) h2 leaf
                 = owned (S (length (nodes H1))) (nodes H1) leaf).
  { rewrite Hlen. now apply owned_ext. }
  assert (HinD : forall x, x ∈ deleted H' <->
            x ∈ deleted H1 \/ In x (owned (S (length (nodes H1))) (nodes H1) leaf)).
  { intros x. subst H'. cbn [deleted]. rewrite Hown.
    rewrite elem_of_union, elem_of_list_to_set, list_elem_of_In. reflexivity. }
  rewrite Hown in Hfresh.
  destruct Hok as [Hroot Hord Hdel Hans Hclo Hph Hfl].
  assert (Hok1 : treeOk uninitialised root H1) by (constructor; assumption).
  split; [constructor |].
  - subst H'. cbn [nodes]. lia.
  - intros p e c. cbn [nodes H']. rewrite Hedge, Hlen. apply Hord.
  - intros p Hp. cbn [nodes H']. rewrite Hlen. apply HinD in Hp as [Hp | Hp].
    + now apply Hdel.
    + apply (owned_range root H1 leaf p Hok1 Hleaf) in Hp. lia.
  - intros p Hp. apply HinD. cbn [nodes H'] in Hp.
    destruct (Nat.eq_dec p leaf) as [-> | Hne].
    + right. apply owned_self.
    + left. rewrite Hresp in Hp by exact Hne. now apply Hans.
  - intros p e c Hp. cbn [nodes H']. rewrite Hedge. intros He.
    apply HinD. apply HinD in Hp as [Hp | Hp].
    + left. exact (Hclo p e c Hp He).
    + right. exact (owned_closed root H1 leaf p e c Hok1 Hleaf Hp He).
  - intros p c. cbn [nodes H']. rewrite !Hcount.
    intros Hc. apply Hph.
    pose proof (Hedge p PlaceholderElement) as He. cbn [edge] in He. now rewrite <- He.
  - intros Hz. destruct (Hfl Hz) as [Hr Hall]. cbn [nodes H']. split.
    + now rewrite Hflag.
    + intros p e c. rewrite Hedge, Hflag. apply Hall.
  - split; [| split; [| split]].
    + intros p w Hw.
      assert (Hw1 : subsequentWildcard (deref (nodes H1) p) = Some w).
      { pose proof (Hedge p WildcardElement) as He. cbn [edge] in He.
        rewrite <- He. exact Hw. }
      destruct (Hwild p w Hw1) as [Hcase Hp]. split.
      * apply HinD. destruct Hcase as [Hin | ->]; [now left |].
        right. apply owned_self.
      * intros Hin. apply HinD in Hin as [Hin | Hin]; [contradiction |].
        destruct Hcase as [Hdead | ->].
        -- apply (Hfresh w); [| exact Hdead].
           exact (owned_closed root H1 leaf p WildcardElement w Hok1 Hleaf Hin Hw1).
        -- apply (owned_range root H1 leaf p Hok1 Hleaf) in Hin.
           pose proof (Hord p WildcardElement leaf Hw1). lia.
    + split; [cbn [nodes H']; lia |]. split.
      * subst H'. cbn [deleted]. apply union_subseteq_l.
      * intros p e c. cbn [nodes H']. now rewrite Hedge.
    + apply HinD. right. apply owned_self.
    + intros x path Hx. apply HinD. right.
      exact (owned_all root H1 leaf path x Hok1 Hleaf Hx).
Qed.

(** *** One key, and the loop over the keys *)

Lemma addKey_run (f : list ascii -> T) root k H H' out :
  treeOk uninitialised root H -> settled H ->
  addKey uninitialised f root k H = (H', out) ->
  match out with
  | Returned None =>
      treeOk uninitialised root H' /\ settled H' /\ keeps H H'
      /\ leafDeleted H' root k
  | Returned (Some ex) =>
      treeOk uninitialised root H' /\ settled H' /\ keeps H H'
      /\ deleted H' = deleted H
      /\ ((ex = OddNumberOfDigits /\ (length (cleanupString k) mod 2)%nat <> 0%nat
           /\ last (cleanupString k) <> Some "*"%char)
          \/ (ex = WildcardAlreadyExists /\ wildcardTerminated (cleanupString k)
              /\ exists w, descend (nodes H') root (elementsOf (cleanupString k))
                           = Some w))
  | Thrown _ => False
  | Undefined _ => True
  end.
Proof.
  intros Hok Hset Hrun. destruct out as [[ex |] | ex | u]; [| | | exact I].
  - apply addKey_ignored in Hrun.
    pose proof (addRequestToTree_run root (cleanupString k) H H' (Thrown ex)
                  (cleanupString_noSpaces k) Hok Hrun)
      as (Hok' & Hkeep & Hdel & Hwild & Hwhy).
    split; [exact Hok' |].
    split; [intros p w Hw; rewrite Hdel; apply Hset, Hwild, Hw |].
    split; [exact Hkeep |]. split; [exact Hdel |].
    destruct Hwhy as [Hodd | (-> & Hterm & p & w & Hp & _ & Hw)]; [now left | right].
    split; [reflexivity |]. split; [exact Hterm |].
    exists w. rewrite elementsOf_pairs. destruct Hterm as [Hpar Hlast].
    rewrite Hlast. apply Nat.eqb_neq in Hpar. rewrite Hpar, Ascii.eqb_refl. cbn [negb].
    rewrite descend_app, Hp. cbn [descend edge]. now rewrite Hw.
  - apply addKey_accepted in Hrun as (H1 & leaf & Hrun & Hlive & Hfresh & ->).
    pose proof (addRequestToTree_run root (cleanupString k) H H1 (Returned leaf)
                  (cleanupString_noSpaces k) Hok Hrun)
      as (Hok1 & (Hkeep & Hdel & Hdesc & Hleaf & Hpath) & Hwild).
    destruct (accepted_heap root H1 leaf (f k) Hok1 Hleaf Hfresh)
      as (Hok' & Hset' & Hkeep' & Hin & _).
    { intros x w Hw. rewrite Hdel.
      destruct (Hwild x w Hw) as [Hold | [-> Hx]].
      - destruct (Hset x w Hold). auto.
      - auto. }
    split; [exact Hok' |]. split; [exact Hset' |].
    split; [eapply keeps_trans; eassumption |].
    exists leaf. split; [| exact Hin].
    eapply descend_keeps; eassumption.
  - exact (addKey_not_thrown f root k H H' ex Hrun).
Qed.

Lemma addKeys_cons (f : list ascii -> T) root k keys H :
  addKeys uninitialised f root (k :: keys) H
  = match addKey uninitialised f root k H with
    | (H1, Returned r) =>
        match addKeys uninitialised f root keys H1 with
        | (H2, Returned ignored) =>
            (H2, Returned (match r with
                           | Some ex => (k, ex) :: ignored
                           | None => ignored
                           end))
        | (H2, Thrown ex) => (H2, Thrown ex)
        | (H2, Undefined u) => (H2, Undefined u)
        end
    | (H1, Thrown ex) => (H1, Thrown ex)
    | (H1, Undefined u) => (H1, Undefined u)
    end.
Proof.
  cbn [addKeys]. unfold bind at 1.
  destruct (addKey uninitialised f root k H) as [H1 [r | ex | u]]; reflexivity.
Qed.

(** Loading up to the key [k2], then from [k2] on. *)
Lemma addKeys_app (f : list ascii -> T) root keys1 keys2 : forall H,
  addKeys uninitialised f root (keys1 ++ keys2) H
  = match addKeys uninitialised f root keys1 H with
    | (H1, Returned ignored1) =>
        match addKeys uninitialised f root keys2 H1 with
        | (H2, Returned ignored2) => (H2, Returned (ignored1 ++ ignored2))
        | (H2, Thrown ex) => (H2, Thrown ex)
        | (H2, Undefined u) => (H2, Undefined u)
        end
    | (H1, Thrown ex) => (H1, Thrown ex)
    | (H1, Undefined u) => (H1, Undefined u)
    end.
Proof.
  induction keys1 as [| k keys1 IH]; intros H.
  - cbn [app addKeys]. unfold ret.
    destruct (addKeys uninitialised f root keys2 H) as [H2 [ignored | ex | u]];
      reflexivity.
  - cbn [app]. rewrite !addKeys_cons.
    destruct (addKey uninitialised f root k H) as [H1 [r | ex | u]]; try reflexivity.
    rewrite IH.
    destruct (addKeys uninitialised f root keys1 H1) as [H2 [ignored1 | ex | u]];
      try reflexivity.
    destruct (addKeys uninitialised f root keys2 H2) as [H3 [ignored2 | ex | u]];
      try reflexivity.
    destruct r; reflexivity.
Qed.

Lemma leafDeleted_keeps H H' root k :
  keeps H H' -> leafDeleted H root k -> leafDeleted H' root k.
Proof.
  intros Hkeep (q & Hq & Hd). exists q. split.
  - eapply descend_keeps; eassumption.
  - destruct Hkeep as (_ & Hsub & _). now apply Hsub.
Qed.

Lemma addKeys_run (f : list ascii -> T) root keys : forall H H' out,
  treeOk uninitialised root H -> settled H ->
  addKeys uninitialised f root keys H = (H', out) ->
  match out with
  | Returned ignored =>
      treeOk uninitialised root H' /\ settled H' /\ keeps H H'
      /\ (forall k, In k keys -> ~ In k (map fst ignored) -> leafDeleted H' root k)
      /\ (forall k ex, In (k, ex) ignored -> In k keys /\ ignoredFor k ex)
      /\ (forall k, In k keys -> (length (cleanupString k) mod 2)%nat <> 0%nat ->
                    last (cleanupString k) <> Some "*"%char ->
                    In (k, OddNumberOfDigits) ignored)
  | Thrown _ => False
  | Undefined _ => True
  end.
Proof.
  induction keys as [| k keys IH]; intros H H' out Hok Hset.
  - cbn. intros [= <- <-]. split; [exact Hok |]. split; [exact Hset |].
    split; [apply keeps_refl |]. split; [intros k [] |].
    split; [intros k ex [] | intros k []].
  - rewrite addKeys_cons.
    destruct (addKey uninitialised f root k H) as [H1 out1] eqn:Hrun1.
    pose proof (addKey_run f root k H H1 out1 Hok Hset Hrun1) as Hkey.
    destruct out1 as [r | ex | u]; [| destruct Hkey | now intros [= <- <-]].
    destruct (addKeys uninitialised f root keys H1) as [H2 out2] eqn:Hrun2.
    assert (Hok1 : treeOk uninitialised root H1) by (destruct r; apply Hkey).
    assert (Hset1 : settled H1) by (destruct r; apply Hkey).
    assert (Hkeep1 : keeps H H1) by (destruct r; apply Hkey).
    pose proof (IH H1 H2 out2 Hok1 Hset1 Hrun2) as Hrest.
    destruct out2 as [ignored | ex | u]; [| destruct Hrest | now intros [= <- <-]].
    intros [= <- <-].
    destruct Hrest as (Hok2 & Hset2 & Hkeep2 & Hleaf & Hwhy & Hodd).
    split; [exact Hok2 |]. split; [exact Hset2 |].
    split; [eapply keeps_trans; eassumption |].
    destruct r as [ex |].
    + destruct Hkey as (_ & _ & _ & _ & Hex).
      split; [| split].
      * intros k' [<- | Hin] Hnot; [exfalso; apply Hnot; now left |].
        apply Hleaf; [exact Hin |]. intros Hin'. apply Hnot. now right.
      * intros k' ex' [[= <- <-] | Hin].
        -- split; [now left |].
           destruct Hex as [Hex | (He & Hterm & _)]; [now left | now right].
        -- destruct (Hwhy k' ex' Hin). split; [now right | assumption].
      * intros k' [<- | Hin] Hpar Hlast.
        -- left. f_equal.
           destruct Hex as [(-> & _) | (_ & [_ Hstar] & _)]; [reflexivity | contradiction].
        -- right. now apply Hodd.
    + destruct Hkey as (_ & _ & _ & Hk).
      split; [| split].
      * intros k' [<- | Hin] Hnot.
        -- eapply leafDeleted_keeps; eassumption.
        -- now apply Hleaf.
      * intros k' ex' Hin. destruct (Hwhy k' ex' Hin). split; [now right | assumption].
      * intros k' [<- | Hin] Hpar Hlast; [| now apply Hodd].
        exfalso. destruct Hk as (q & Hq & Hd).
        apply addKey_accepted in Hrun1 as (H1' & leaf & Hrun1 & _).
        pose proof (addRequestToTree_run root (cleanupString k) H H1' (Returned leaf)
                      (cleanupString_noSpaces k) Hok Hrun1) as _.
        revert Hrun1. unfold addRequestToTree, bind.
        destruct (addRequestBytes uninitialised (cleanupString k) root H) as [H0 [p | ? | ?]];
          try discriminate.
        apply Nat.eqb_neq in Hpar. rewrite Hpar. cbn [negb].
        destruct (last (cleanupString k)) as [c |]; [| discriminate].
        destruct (Ascii.eqb_spec c "*"%char) as [-> | _]; [congruence | discriminate].
Qed.

Lemma buildRequestByteTree_unfold (f : list ascii -> T) keys :
  buildRequestByteTree uninitialised keys f emptyHeap
  = match addKeys uninitialised f 0%nat keys (rootOnly uninitialised) with
    | (H', Returned ignored) => (H', Returned (0%nat, ignored))
    | (H', Thrown ex) => (H', Thrown ex)
    | (H', Undefined u) => (H', Undefined u)
    end.
Proof.
  unfold buildRequestByteTree, bind, alloc, emptyHeap, rootOnly. cbn [nodes deleted length app].
  destruct (addKeys uninitialised f 0%nat keys _) as [H' [ignored | ex | u]]; reflexivity.
Qed.

Lemma rootOnly_ok : treeOk uninitialised 0%nat (rootOnly (T:=T) uninitialised)
                    /\ settled (rootOnly (T:=T) uninitialised).
Proof.
  assert (Hnone : forall p e, edge (deref (nodes (rootOnly (T:=T) uninitialised)) p) e = None).
  { intros [| p] e; [destruct e; reflexivity |]. apply edge_invalid. simpl. lia. }
  split; [constructor |].
  - simpl. lia.
  - intros p e c He. now rewrite Hnone in He.
  - intros p Hp. cbn in Hp. now apply not_elem_of_empty in Hp.
  - intros [| p] [r Hr]; [discriminate |].
    rewrite deref_invalid in Hr by (apply lookup_ge_None_2; simpl; lia). discriminate.
  - intros p e c Hp. cbn in Hp. now apply not_elem_of_empty in Hp.
  - intros p c Hc. pose proof (Hnone p PlaceholderElement) as He. cbn [edge] in He.
    congruence.
  - intros Hz. split; [cbn; apply Hz |]. intros p e c He. now rewrite Hnone in He.
  - intros p w Hw. pose proof (Hnone p WildcardElement) as He. cbn [edge] in He.
    congruence.
Qed.

(** A load that returns: what it leaves and what it reports. *)
Lemma buildRequestByteTree_run (f : list ascii -> T) keys H root ignored :
  buildRequestByteTree uninitialised keys f emptyHeap = (H, Returned (root, ignored)) ->
  root = 0%nat
  /\ addKeys uninitialised f 0%nat keys (rootOnly uninitialised) = (H, Returned ignored)
  /\ treeOk uninitialised root H /\ settled H
  /\ (forall k, In k keys -> ~ In k (map fst ignored) -> leafDeleted H root k)
  /\ (forall k ex, In (k, ex) ignored -> In k keys /\ ignoredFor k ex)
  /\ (forall k, In k keys -> (length (cleanupString k) mod 2)%nat <> 0%nat ->
                last (cleanupString k) <> Some "*"%char ->
                In (k, OddNumberOfDigits) ignored).
Proof.
  rewrite buildRequestByteTree_unfold.
  destruct (addKeys uninitialised f 0%nat keys (rootOnly uninitialised))
    as [H' [ignored' | ex | u]] eqn:Hrun; try discriminate.
  intros [= -> <- ->]. destruct rootOnly_ok as [Hok Hset].
  pose proof (addKeys_run f 0%nat keys _ H (Returned ignored) Hok Hset Hrun)
    as (Hok' & Hset' & _ & Hleaf & Hwhy & Hodd).
  auto 10.
Qed.
(** *** Keys whose patterns meet *)

Lemma owned_response H1 leaf (r : T) :
  owned (S (length (<[leaf := withLuaResponse (deref (nodes H1) leaf) r]> (nodes H1))))
        (<[leaf := withLuaResponse (deref (nodes H1) leaf) r]> (nodes H1)) leaf
  = owned (S (length (nodes H1))) (nodes H1) leaf.
Proof.
  rewrite length_insert. apply owned_ext. intros x.
  destruct (Nat.lt_ge_cases leaf (length (nodes H1))) as [Hlt | Hge].
  - rewrite deref_update by exact Hlt.
    destruct (Nat.eq_dec x leaf) as [-> |]; reflexivity.
  - now rewrite list_insert_ge by exact Hge.
Qed.

(** A key is accepted only if its pattern neither extends nor is extended
    by the pattern of a key whose leaf was deleted before. *)
Lemma addKey_accepts_new_pattern (f : list ascii -> T) root k H H' k1 :
  treeOk uninitialised root H ->
  addKey uninitialised f root k H = (H', Returned None) ->
  leafDeleted H root k1 ->
  ~ (elementsOf (cleanupString k1) `prefix_of` elementsOf (cleanupString k))
  /\ ~ (elementsOf (cleanupString k) `prefix_of` elementsOf (cleanupString k1)).
Proof.
  intros Hok Hrun (q1 & Hq1 & Hdead).
  apply addKey_accepted in Hrun as (H1 & leaf & Hrun & Hlive & Hfresh & _).
  rewrite owned_response in Hfresh.
  pose proof (addRequestToTree_run root (cleanupString k) H H1 (Returned leaf)
                (cleanupString_noSpaces k) Hok Hrun)
    as (Hok1 & (Hkeep & Hdel & Hdesc & Hleaf & Hpath) & _).
  pose proof (descend_keeps H H1 _ root q1 Hkeep Hq1) as Hq1'.
  rewrite <- Hdel in Hdead.
  split; intros [rest Hrest].
  - destruct rest as [| e rest].
    + rewrite app_nil_r in Hrest. rewrite Hrest in Hdesc. congruence.
    + apply (Hpath _ (e :: rest) q1 Hrest); [discriminate | exact Hq1' | exact Hdead].
  - rewrite Hrest, descend_app, Hdesc in Hq1'.
    apply (Hfresh q1); [| exact Hdead].
    exact (owned_all root H1 leaf rest q1 Hok1 Hleaf Hq1').
Qed.

Lemma addRequestBytes_existing root (s : list ascii) : forall H p q,
  Forall (fun a : ascii => a <> " "%char) s ->
  treeOk uninitialised root H ->
  descend (nodes H) p (pairElements s) = Some q -> q ∉ deleted H ->
  addRequestBytes uninitialised s p H = (H, Returned q).
Proof.
  induction s as [| a | c1 c2 rest IH] using pair_ind; intros H p q Hs Hok Hdesc Hq.
  - cbn in *. now injection Hdesc as ->.
  - cbn in *. now injection Hdesc as ->.
  - inversion Hs as [| ? ? Hc1 Hs1]; subst. inversion Hs1 as [| ? ? Hc2 Hrest]; subst.
    cbn [addRequestBytes pairElements descend] in *. unfold bind.
    rewrite (hexPair_nonempty c1 c2 Hc1 Hc2) in *. cbn [nth] in Hdesc.
    assert (Hp : p ∉ deleted H).
    { intros Hp. apply Hq.
      apply (descend_deleted root H (pairElements (c1 :: c2 :: rest)) p q Hok Hp).
      cbn [pairElements descend]. rewrite (hexPair_nonempty c1 c2 Hc1 Hc2). exact Hdesc. }
    destruct (isPlaceholder c1 c2).
    + cbn [edge] in Hdesc.
      destruct (subsequentPlaceholder (deref (nodes H) p)) as [c |] eqn:Hc; [| discriminate].
      assert (Hcl : c ∉ deleted H)
        by (intros Hcd; apply Hq; exact (descend_deleted root H _ c q Hok Hcd Hdesc)).
      rewrite (appendPlaceholder_existing root H p c Hok Hp Hc Hcl). now apply IH.
    + cbn [edge] in Hdesc.
      destruct (subsequentByte (deref (nodes H) p) !! uint8 (strtol [c1; c2] 16))
        as [c |] eqn:Hc; [| discriminate].
      rewrite (appendByte_existing H p _ c Hp Hc). now apply IH.
Qed.

Lemma elementsOf_wildcardTerminated (s : list ascii) :
  wildcardTerminated s -> elementsOf s = pairElements s ++ [WildcardElement].
Proof.
  intros [Hpar Hlast]. rewrite elementsOf_pairs, Hlast.
  apply Nat.eqb_neq in Hpar. now rewrite Hpar, Ascii.eqb_refl.
Qed.

(** A key whose wildcard-terminated pattern is in the tree already: the
    exception of [appendWildcard] is caught, the key is reported, and the
    heap is as before. *)
Lemma addKey_duplicate_wildcard (f : list ascii -> T) root k H w :
  treeOk uninitialised root H -> settled H ->
  wildcardTerminated (cleanupString k) ->
  descend (nodes H) root (elementsOf (cleanupString k)) = Some w ->
  addKey uninitialised f root k H = (H, Returned (Some WildcardAlreadyExists)).
Proof.
  intros Hok Hset Hterm Hdesc.
  rewrite (elementsOf_wildcardTerminated _ Hterm), descend_app in Hdesc.
  destruct (descend (nodes H) root (pairElements (cleanupString k))) as [p |] eqn:Hp;
    [| discriminate].
  cbn [descend edge] in Hdesc.
  destruct (subsequentWildcard (deref (nodes H) p)) as [w' |] eqn:Hw; [| discriminate].
  destruct (Hset p w' Hw) as [_ Hlive].
  unfold addKey, try_catch, bind at 1. unfold addRequestToTree, bind at 1.
  rewrite (addRequestBytes_existing root _ H root p (cleanupString_noSpaces k) Hok Hp Hlive).
  destruct Hterm as [Hpar Hlast]. apply Nat.eqb_neq in Hpar.
  rewrite Hpar, Hlast, Ascii.eqb_refl. cbn [negb].
  now rewrite (appendWildcard_existing H p w' Hlive Hw).
Qed.

Lemma wildcard_key_present (f : list ascii -> T) root k H H' r :
  treeOk uninitialised root H -> settled H ->
  wildcardTerminated (cleanupString k) ->
  addKey uninitialised f root k H = (H', Returned r) ->
  exists w, descend (nodes H') root (elementsOf (cleanupString k)) = Some w.
Proof.
  intros Hok Hset Hterm Hrun.
  pose proof (addKey_run f root k H H' (Returned r) Hok Hset Hrun) as Hkey.
  destruct r as [ex |].
  - destruct Hkey as (_ & _ & _ & _ & [(_ & _ & Hlast) | (_ & _ & Hw)]); [| exact Hw].
    destruct Hterm as [_ Hstar]. contradiction.
  - destruct Hkey as (_ & _ & _ & q & Hq & _). now exists q.
Qed.

(** The rounds of one key within a run of the loop that returns. *)
Lemma addKeys_split (f : list ascii -> T) root pre k post H H' ignored :
  addKeys uninitialised f root (pre ++ k :: post) H = (H', Returned ignored) ->
  exists Ha Hb r ignoredPre ignoredPost,
    addKeys uninitialised f root pre H = (Ha, Returned ignoredPre)
    /\ addKey uninitialised f root k Ha = (Hb, Returned r)
    /\ addKeys uninitialised f root post Hb = (H', Returned ignoredPost)
    /\ ignored = ignoredPre
                 ++ match r with Some ex => [(k, ex)] | None => [] end
                 ++ ignoredPost.
Proof.
  rewrite addKeys_app.
  destruct (addKeys uninitialised f root pre H) as [Ha [ignoredPre | ex | u]] eqn:Hpre;
    try discriminate.
  rewrite addKeys_cons.
  destruct (addKey uninitialised f root k Ha) as [Hb [r | ex | u]] eqn:Hkey;
    try discriminate.
  destruct (addKeys uninitialised f root post Hb) as [Hc [ignoredPost | ex | u]] eqn:Hpost;
    try discriminate.
  intros [= <- <-]. exists Ha, Hb, r, ignoredPre, ignoredPost.
  split; [reflexivity |]. split; [exact Hkey |]. split; [exact Hpost |].
  destruct r; reflexivity.
Qed.
(** *** The exceptions of an insertion *)

Lemma appendByte_not_thrown this (b : Z) H H' ex :
  appendByte uninitialised this b H <> (H', Thrown ex).
Proof.
  unfold appendByte, bind, load.
  destruct (bool_decide (this ∈ deleted H)); [discriminate |].
  destruct (subsequentByte (deref (nodes H) this) !! b); discriminate.
Qed.

Lemma appendPlaceholder_not_thrown this H H' ex :
  appendPlaceholder uninitialised this H <> (H', Thrown ex).
Proof.
  unfold appendPlaceholder, bind, load.
  destruct (bool_decide (this ∈ deleted H)); [discriminate |].
  destruct (subsequentPlaceholder (deref (nodes H) this)) as [c |].
  - unfold ret. destruct (bool_decide (c ∈ deleted H)); discriminate.
  - unfold alloc, storeNode, ret. cbn [nodes deleted].
    destruct (bool_decide _); discriminate.
Qed.

Lemma appendWildcard_thrown this H H' ex :
  appendWildcard uninitialised this H = (H', Thrown ex) -> ex = WildcardAlreadyExists.
Proof.
  unfold appendWildcard, bind, load.
  destruct (bool_decide (this ∈ deleted H)); [discriminate |].
  destruct (subsequentWildcard (deref (nodes H) this)) as [c |].
  - unfold throw. now intros [= _ <-].
  - unfold alloc, storeNode, ret. cbn [nodes deleted].
    destruct (bool_decide _); discriminate.
Qed.

Lemma addRequestBytes_not_thrown (s : list ascii) : forall p H H' ex,
  Forall (fun a : ascii => a <> " "%char) s ->
  addRequestBytes uninitialised s p H <> (H', Thrown ex).
Proof.
  induction s as [| a | c1 c2 rest IH] using pair_ind; intros p H H' ex Hs;
    [discriminate | discriminate |].
  inversion Hs as [| ? ? Hc1 Hs1]; subst. inversion Hs1 as [| ? ? Hc2 Hrest]; subst.
  cbn [addRequestBytes]. unfold bind at 1.
  rewrite (hexPair_nonempty c1 c2 Hc1 Hc2).
  destruct ((if isPlaceholder c1 c2
             then appendPlaceholder uninitialised p
             else appendByte uninitialised p (uint8 (strtol [c1; c2] 16))) H)
    as [H1 [c | ex1 | u]] eqn:Hrun.
  - now apply IH.
  - exfalso. destruct (isPlaceholder c1 c2).
    + exact (appendPlaceholder_not_thrown p H H1 ex1 Hrun).
    + exact (appendByte_not_thrown p _ H H1 ex1 Hrun).
  - discriminate.
Qed.

(** Whatever the heap, a cleaned key is never turned down as holding
    something that is not a hex number. *)
Lemma addKey_not_hex (f : list ascii -> T) root k H :
  snd (addKey uninitialised f root k H) <> Returned (Some NotAHexNumber).
Proof.
  destruct (addKey uninitialised f root k H) as [H' out] eqn:Hrun. cbn [snd].
  intros ->. apply addKey_ignored in Hrun. revert Hrun.
  unfold addRequestToTree, bind.
  destruct (addRequestBytes uninitialised (cleanupString k) root H)
    as [H1 [q | ex | u]] eqn:Hbytes.
  - destruct (negb _); [| discriminate].
    destruct (last (cleanupString k)) as [c |]; [| discriminate].
    destruct (Ascii.eqb c "*"%char); [| discriminate].
    intros Hw. apply appendWildcard_thrown in Hw. discriminate.
  - exfalso.
    exact (addRequestBytes_not_thrown _ root H H1 ex (cleanupString_noSpaces k) Hbytes).
  - discriminate.
Qed.
End HeapFacts.

(** ** The lookup on a heap *)

Section LookupFacts.
Context {T : Type}.
Variable ptr_lt : ptr -> ptr -> bool.
Implicit Types (H : Heap T) (cands : list ptr) (payload : list Z).

Lemma live_deleted H p : live H p = false <-> p ∈ deleted H.
Proof.
  unfold live. rewrite negb_false_iff. split.
  - apply bool_decide_eq_true_1.
  - apply bool_decide_eq_true_2.
Qed.

Lemma live_not_deleted H p : live H p = true <-> p ∉ deleted H.
Proof.
  rewrite <- live_deleted. destruct (live H p); split; congruence.
Qed.

(** A round of the matching loop is defined when every candidate is
    live; it is then the round on the store. *)
Lemma nextCandidatesOnHeap_spec H cands (nextByte : Z) :
  nextCandidatesOnHeap ptr_lt H cands nextByte
  = if forallb (live H) cands
    then inr (nextCandidates ptr_lt (nodes H) cands nextByte)
    else inl UseAfterDelete.
Proof.
  unfold nextCandidatesOnHeap, nextCandidates. generalize (@nil ptr) as acc.
  induction cands as [| c cands IH]; intros acc; cbn [fold_left forallb]; [reflexivity |].
  destruct (live H c); cbn [andb]; [apply IH |].
  clear IH. induction cands as [| c' cands IH]; [reflexivity | exact IH].
Qed.

Lemma findBestMatchingRequestOnHeap_spec H cands :
  findBestMatchingRequestOnHeap H cands
  = if forallb (fun item =>
                  live H item
                  && live H (getThisOrNextWildcardWithResponse (nodes H) item)) cands
    then inr (findBestMatchingRequest (nodes H) cands)
    else inl UseAfterDelete.
Proof.
  unfold findBestMatchingRequestOnHeap, findBestMatchingRequest.
  generalize (@None ptr) as best.
  induction cands as [| c cands IH]; intros best; cbn [fold_left forallb]; [reflexivity |].
  unfold betterMatchOnHeap at 2.
  destruct (live H c); cbn [andb].
  - destruct (live H (getThisOrNextWildcardWithResponse (nodes H) c)); cbn [andb];
      [apply IH |].
    clear IH. induction cands as [| c' cands IH]; [reflexivity | exact IH].
  - clear IH. induction cands as [| c' cands IH]; [reflexivity | exact IH].
Qed.

Lemma candidatesAfterOnHeap_store H payload : forall cands,
  match candidatesAfterOnHeap ptr_lt H cands payload with
  | inr cands' => cands' = candidatesAfter ptr_lt (nodes H) cands payload
  | inl u => u = UseAfterDelete
  end.
Proof.
  induction payload as [| b payload IH]; intros cands; cbn; [reflexivity |].
  destruct cands as [| c cands]; [reflexivity |].
  rewrite nextCandidatesOnHeap_spec.
  destruct (forallb (live H) (c :: cands)); [apply IH | reflexivity].
Qed.

(** A lookup that is defined is the lookup on the store, and the only
    undefined behaviour of a lookup is the use of a deleted node. *)
Lemma getValueFromTreeOnHeap_store H root payload :
  match getValueFromTreeOnHeap ptr_lt H root payload with
  | inr v => v = getValueFromTree ptr_lt (nodes H) root payload
  | inl u => u = UseAfterDelete
  end.
Proof.
  unfold getValueFromTreeOnHeap, getValueFromTree.
  pose proof (candidatesAfterOnHeap_store H payload [root]) as Hc.
  destruct (candidatesAfterOnHeap ptr_lt H [root] payload) as [u | cands]; [exact Hc |].
  subst cands. rewrite findBestMatchingRequestOnHeap_spec.
  destruct (forallb _ _); [| reflexivity].
  destruct (findBestMatchingRequest _ _); reflexivity.
Qed.

(** On a heap without deleted nodes the lookup is the lookup on the
    store. *)
Lemma getValueFromTreeOnHeap_intact H root payload :
  deleted H = ∅ ->
  getValueFromTreeOnHeap ptr_lt H root payload
  = inr (getValueFromTree ptr_lt (nodes H) root payload).
Proof.
  intros Hnone.
  assert (Hlive : forall p, live H p = true)
    by (intros p; apply live_not_deleted; rewrite Hnone; apply not_elem_of_empty).
  assert (Hall : forall (g : ptr -> bool) l, (forall p, g p = true) -> forallb g l = true)
    by (intros g l Hg; apply forallb_forall; auto).
  assert (Hcands : forall payload' cands,
            candidatesAfterOnHeap ptr_lt H cands payload'
            = inr (candidatesAfter ptr_lt (nodes H) cands payload')).
  { induction payload' as [| b payload' IH]; intros cands; cbn; [reflexivity |].
    destruct cands as [| c cands]; [reflexivity |].
    rewrite nextCandidatesOnHeap_spec, Hall by exact Hlive. apply IH. }
  unfold getValueFromTreeOnHeap, getValueFromTree.
  rewrite Hcands, findBestMatchingRequestOnHeap_spec, Hall.
  - destruct (findBestMatchingRequest _ _); reflexivity.
  - intros p. now rewrite !Hlive.
Qed.

(** When every node with a response has been deleted, no lookup returns a
    response. *)
Lemma getValueFromTreeOnHeap_none H root payload :
  (forall p, is_Some (luaResponse (deref (nodes H) p)) -> p ∈ deleted H) ->
  getValueFromTreeOnHeap ptr_lt H root payload = inl UseAfterDelete
  \/ getValueFromTreeOnHeap ptr_lt H root payload = inr None.
Proof.
  intros Hans. unfold getValueFromTreeOnHeap.
  pose proof (candidatesAfterOnHeap_store H payload [root]) as Hc.
  destruct (candidatesAfterOnHeap ptr_lt H [root] payload) as [u | cands];
    [left; now subst u |].
  rewrite findBestMatchingRequestOnHeap_spec.
  destruct (forallb _ cands) eqn:Hall; [| now left].
  right. unfold findBestMatchingRequest.
  pose proof (findBest_from (nodes H) cands None) as Hbest.
  destruct (fold_left (betterMatch (nodes H)) cands None) as [b |]; [| reflexivity].
  exfalso. destruct Hbest as [[=] | (c & Hin & -> & Hresp)].
  apply Hans in Hresp.
  rewrite forallb_forall in Hall. specialize (Hall c Hin).
  apply andb_true_iff in Hall as [_ Hlive]. apply live_not_deleted in Hlive. contradiction.
Qed.

(** A candidate that was deleted, or whose wildcard child was, makes the
    choice among the candidates undefined. *)
Lemma findBestMatchingRequestOnHeap_dead H cands x :
  In x cands ->
  live H x && live H (getThisOrNextWildcardWithResponse (nodes H) x) = false ->
  findBestMatchingRequestOnHeap H cands = inl UseAfterDelete.
Proof.
  intros Hin Hx. rewrite findBestMatchingRequestOnHeap_spec.
  destruct (forallb _ cands) eqn:Hall; [| reflexivity].
  rewrite forallb_forall in Hall. rewrite (Hall x Hin) in Hx. discriminate.
Qed.

Lemma candidatesAfterOnHeap_dead H cands payload x :
  In x cands -> x ∈ deleted H ->
  match candidatesAfterOnHeap ptr_lt H cands payload with
  | inl _ => True
  | inr cands' =>
      exists x', In x' cands'
        /\ live H x' && live H (getThisOrNextWildcardWithResponse (nodes H) x') = false
  end.
Proof.
  intros Hin Hx. apply live_deleted in Hx.
  destruct payload as [| b payload]; cbn.
  - exists x. split; [exact Hin |]. now rewrite Hx.
  - destruct cands as [| c cands]; [destruct Hin |].
    rewrite nextCandidatesOnHeap_spec.
    destruct (forallb (live H) (c :: cands)) eqn:Hall; [| exact I].
    rewrite forallb_forall in Hall. rewrite (Hall x Hin) in Hx. discriminate.
Qed.

Section Zeroed.
Variable uninitialised : ptr -> bool.
Hypothesis zero : forall p, uninitialised p = false.
Variable root : ptr.
Variable H : Heap T.
Hypothesis Hok : treeOk uninitialised root H.
Hypothesis Hset : settled H.

(** The candidates follow a pattern that the request matches down to its
    deleted leaf. *)
Lemma candidatesAfterOnHeap_reach payload : forall (pattern : list PatternElement) cands p q,
  In p cands ->
  wildcard (deref (nodes H) p) = false \/ p ∈ deleted H ->
  descend (nodes H) p pattern = Some q -> q ∈ deleted H ->
  patternMatches pattern payload = true ->
  match candidatesAfterOnHeap ptr_lt H cands payload with
  | inl _ => True
  | inr cands' =>
      exists x', In x' cands'
        /\ live H x' && live H (getThisOrNextWildcardWithResponse (nodes H) x') = false
  end.
Proof.
  destruct (ok_flags _ _ _ Hok zero) as [_ Hflags].
  induction payload as [| b payload IH]; intros pattern cands p q Hin Hflag Hdesc Hq Hm.
  - cbn [candidatesAfterOnHeap]. exists p. split; [exact Hin |].
    destruct pattern as [| [b | |] pattern]; cbn in Hm; try discriminate.
    + cbn in Hdesc. injection Hdesc as ->. apply live_deleted in Hq. now rewrite Hq.
    + cbn [descend edge] in Hdesc.
      destruct (subsequentWildcard (deref (nodes H) p)) as [w |] eqn:Hw; [| discriminate].
      destruct (Hset p w Hw) as [Hdead Hlive].
      apply live_not_deleted in Hlive. rewrite Hlive. cbn [andb].
      unfold getThisOrNextWildcardWithResponse. rewrite Hw.
      destruct (luaResponse (deref (nodes H) p)) as [r |] eqn:Hr.
      * exfalso. apply live_not_deleted in Hlive. apply Hlive.
        apply (ok_answered _ _ _ Hok). rewrite Hr. eauto.
      * now apply live_deleted.
  - cbn [candidatesAfterOnHeap].
    destruct cands as [| c0 cands]; [destruct Hin |].
    rewrite nextCandidatesOnHeap_spec.
    destruct (forallb (live H) (c0 :: cands)) eqn:Hall; [| exact I].
    rewrite forallb_forall in Hall. pose proof (Hall p Hin) as Hlive.
    apply live_not_deleted in Hlive.
    destruct Hflag as [Hflag | Hdead]; [| contradiction].
    assert (Hnext : forall e c, edge (deref (nodes H) p) e = Some c ->
              (e = ByteElement b \/ e = PlaceholderElement \/ e = WildcardElement) ->
              In c (nextCandidates ptr_lt (nodes H) (c0 :: cands) b)).
    { intros e c He Hcase. apply nextCandidates_In. exists p. split; [exact Hin |].
      unfold step. rewrite Hflag.
      destruct Hcase as [-> | [-> | ->]]; auto. }
    destruct pattern as [| [b' | |] pattern]; cbn [patternMatches] in Hm;
      try discriminate; cbn [descend] in Hdesc.
    + apply andb_true_iff in Hm as [Hb Hm]. apply Z.eqb_eq in Hb. subst b'.
      destruct (edge (deref (nodes H) p) (ByteElement b)) as [c |] eqn:He;
        [| discriminate].
      apply (IH pattern _ c q);
        [apply (Hnext (ByteElement b) c He); auto
        | left; now rewrite (Hflags p (ByteElement b) c He)
        | exact Hdesc | exact Hq | exact Hm].
    + destruct (edge (deref (nodes H) p) PlaceholderElement) as [c |] eqn:He;
        [| discriminate].
      apply (IH pattern _ c q);
        [apply (Hnext PlaceholderElement c He); auto
        | left; now rewrite (Hflags p PlaceholderElement c He)
        | exact Hdesc | exact Hq | exact Hm].
    + destruct (edge (deref (nodes H) p) WildcardElement) as [w |] eqn:He;
        [| discriminate].
      apply (candidatesAfterOnHeap_dead H _ payload w);
        [apply (Hnext WildcardElement w He); auto |].
      cbn [edge] in He. now destruct (Hset p w He).
Qed.

(** A request that matches the pattern of a deleted leaf: the lookup uses
    a deleted node. *)
Lemma getValueFromTreeOnHeap_deleted (pattern : list PatternElement) payload q :
  descend (nodes H) root pattern = Some q -> q ∈ deleted H ->
  patternMatches pattern payload = true ->
  getValueFromTreeOnHeap ptr_lt H root payload = inl UseAfterDelete.
Proof.
  intros Hdesc Hq Hm. unfold getValueFromTreeOnHeap.
  pose proof (candidatesAfterOnHeap_store H payload [root]) as Hu.
  pose proof (candidatesAfterOnHeap_reach payload pattern [root] root q
                ltac:(now left)
                ltac:(left; exact (proj1 (ok_flags _ _ _ Hok zero)))
                Hdesc Hq Hm) as Hreach.
  destruct (candidatesAfterOnHeap ptr_lt H [root] payload) as [u | cands];
    [now subst u |].
  destruct Hreach as (x & Hin & Hx).
  now rewrite (findBestMatchingRequestOnHeap_dead H cands x Hin Hx).
Qed.
End Zeroed.
End LookupFacts.

(** ** What a loaded table answers *)

Section Loaded.
Context {T : Type}.
Variable uninitialised : ptr -> bool.
Variable ptr_lt : ptr -> ptr -> bool.
Variable f : list ascii -> T.
Variable keys : list (list ascii).
Variable H : Heap T.
Variable root : ptr.
Variable ignored : list (list ascii * exn).
Hypothesis loaded :
  buildRequestByteTree uninitialised keys f emptyHeap = (H, Returned (root, ignored)).

(** Every response was stored in a leaf that was deleted in the same
    round of the loading loop: no lookup returns a response. *)
Lemma loaded_tree_answers_nothing (payload : list Z) :
  getValueFromTreeOnHeap ptr_lt H root payload = inl UseAfterDelete
  \/ getValueFromTreeOnHeap ptr_lt H root payload = inr None.
Proof.
  destruct (buildRequestByteTree_run uninitialised f keys H root ignored loaded)
    as (_ & _ & Hok & _).
  apply getValueFromTreeOnHeap_none. exact (ok_answered _ _ _ Hok).
Qed.

(** Where the flags of new nodes read as unset, a request that matches
    the pattern of an accepted key leads the lookup to its deleted
    leaf. *)
Lemma accepted_match_undefined (k : list ascii) (payload : list Z) :
  (forall p, uninitialised p = false) ->
  In k keys -> ~ In k (map fst ignored) ->
  patternMatches (elementsOf (cleanupString k)) payload = true ->
  getValueFromTreeOnHeap ptr_lt H root payload = inl UseAfterDelete.
Proof.
  intros zero Hin Hnot Hm.
  destruct (buildRequestByteTree_run uninitialised f keys H root ignored loaded)
    as (_ & _ & Hok & Hset & Hleaf & _).
  destruct (Hleaf k Hin Hnot) as (q & Hq & Hdead).
  exact (getValueFromTreeOnHeap_deleted ptr_lt uninitialised zero root H Hok Hset
           _ payload q Hq Hdead Hm).
Qed.
End Loaded.

Lemma matchIn_built {T} (ptr_lt : ptr -> ptr -> bool) (uninitialised : ptr -> bool)
    (entries : list (string * T)) (missing : T) (H : Heap T) (root : ptr)
    (ignored : list (list ascii * exn)) (payload : list Z) :
  buildFrom uninitialised entries missing = (H, Returned (root, ignored)) ->
  matchIn ptr_lt (buildFrom uninitialised entries missing) payload
  = getValueFromTreeOnHeap ptr_lt H root payload.
Proof. intros ->. reflexivity. Qed.

(** A table, a key of it that loading accepts and a request that matches
    the key: the lookup is never answered, and it uses the deleted leaf
    of the key where the flags of new nodes read as unset. *)
Lemma accepted_entry_unanswered {T} (entries : list (string * T)) (missing : T)
    (k : string) (payload : list Z) :
  (forall uninitialised,
     snd (buildFrom uninitialised entries missing) = Returned (0%nat, [])) ->
  In (str k) (keysOf entries) ->
  patternMatches (elementsOf (cleanupString (str k))) payload = true ->
  (forall uninitialised ptr_lt,
     matchIn ptr_lt (buildFrom uninitialised entries missing) payload
     = inl UseAfterDelete
     \/ matchIn ptr_lt (buildFrom uninitialised entries missing) payload = inr None)
  /\ (forall ptr_lt,
        matchIn ptr_lt (buildFrom zeroed entries missing) payload = inl UseAfterDelete)
  /\ leafDeleted (fst (buildFrom zeroed entries missing)) 0%nat (str k).
Proof.
  intros Hload Hin Hm.
  assert (Hbuilt : forall uninitialised, exists H,
            buildFrom uninitialised entries missing = (H, Returned (0%nat, []))).
  { intros u. specialize (Hload u).
    destruct (buildFrom u entries missing) as [H out]. cbn [snd] in Hload. subst out.
    now exists H. }
  split; [| split].
  - intros u ptr_lt. destruct (Hbuilt u) as [H Hb].
    rewrite (matchIn_built ptr_lt u entries missing H 0%nat [] payload Hb).
    exact (loaded_tree_answers_nothing u ptr_lt _ _ H 0%nat [] Hb payload).
  - intros ptr_lt. destruct (Hbuilt zeroed) as [H Hb].
    rewrite (matchIn_built ptr_lt zeroed entries missing H 0%nat [] payload Hb).
    apply (accepted_match_undefined zeroed ptr_lt _ _ H 0%nat [] Hb (str k));
      [reflexivity | exact Hin | intros [] | exact Hm].
  - destruct (Hbuilt zeroed) as [H Hb]. rewrite Hb. cbn [fst].
    destruct (buildRequestByteTree_run zeroed _ _ H 0%nat [] Hb)
      as (_ & _ & _ & _ & Hleaf & _).
    apply Hleaf; [exact Hin | intros []].
Qed.

(** C1.  A table with the literal key [22 F1 90] (and a longer wildcard
    key): loading returns and reports no key; the leaf of the literal key
    was deleted when the pointer returned by [setLuaResponse] was dropped;
    the request 22 F1 90, which the key spells literally, is not answered
    with ["B"], whatever the memory of new nodes held and whatever the
    order of the pointers: the lookup uses the deleted leaf. *)
Theorem literal_pattern_is_not_answered :
  (forall uninitialised,
     snd (buildFrom uninitialised
            [("22 F1 90", "B"); ("22 XX 90 *", "C")]%string EmptyString)
     = Returned (0%nat, []))
  /\ elementsOf (cleanupString (str "22 F1 90")) = map ByteElement [0x22; 0xF1; 0x90]
  /\ (forall uninitialised ptr_lt,
        matchIn ptr_lt
          (buildFrom uninitialised
             [("22 F1 90", "B"); ("22 XX 90 *", "C")]%string EmptyString)
          [0x22; 0xF1; 0x90] = inl UseAfterDelete
        \/ matchIn ptr_lt
             (buildFrom uninitialised
                [("22 F1 90", "B"); ("22 XX 90 *", "C")]%string EmptyString)
             [0x22; 0xF1; 0x90] = inr None)
  /\ (forall ptr_lt,
        matchIn ptr_lt
          (buildFrom zeroed [("22 F1 90", "B"); ("22 XX 90 *", "C")]%string EmptyString)
          [0x22; 0xF1; 0x90] = inl UseAfterDelete)
  /\ leafDeleted
       (fst (buildFrom zeroed [("22 F1 90", "B"); ("22 XX 90 *", "C")]%string
               EmptyString))
       0%nat (str "22 F1 90").
Proof.
  assert (Hload : forall uninitialised,
            snd (buildFrom uninitialised
                   [("22 F1 90", "B"); ("22 XX 90 *", "C")]%string EmptyString)
            = Returned (0%nat, []))
    by (intros u; vm_compute; reflexivity).
  split; [exact Hload |]. split; [vm_compute; reflexivity |].
  apply (accepted_entry_unanswered _ EmptyString "22 F1 90" [0x22; 0xF1; 0x90] Hload).
  - left. reflexivity.
  - vm_compute. reflexivity.
Qed.

(** C2.  A key without wildcard and a wildcard key that both match the
    request 22 F1 90: loading returns and reports no key; both leaves
    were deleted; the request is not answered with ["A"], the entry of
    the key without wildcard, whatever the memory of new nodes held and
    whatever the order of the pointers: the lookup uses a deleted
    leaf. *)
Theorem non_wildcard_pattern_is_not_answered :
  (forall uninitialised,
     snd (buildFrom uninitialised [("22 XX 90", "A"); ("22 *", "C")]%string EmptyString)
     = Returned (0%nat, []))
  /\ (patternMatches (elementsOf (cleanupString (str "22 XX 90"))) [0x22; 0xF1; 0x90]
      = true
      /\ endsInWildcard (elementsOf (cleanupString (str "22 XX 90"))) = false)
  /\ (patternMatches (elementsOf (cleanupString (str "22 *"))) [0x22; 0xF1; 0x90] = true
      /\ endsInWildcard (elementsOf (cleanupString (str "22 *"))) = true)
  /\ (forall uninitialised ptr_lt,
        matchIn ptr_lt
          (buildFrom uninitialised [("22 XX 90", "A"); ("22 *", "C")]%string EmptyString)
          [0x22; 0xF1; 0x90] = inl UseAfterDelete
        \/ matchIn ptr_lt
             (buildFrom uninitialised [("22 XX 90", "A"); ("22 *", "C")]%string
                EmptyString)
             [0x22; 0xF1; 0x90] = inr None)
  /\ (forall ptr_lt,
        matchIn ptr_lt
          (buildFrom zeroed [("22 XX 90", "A"); ("22 *", "C")]%string EmptyString)
          [0x22; 0xF1; 0x90] = inl UseAfterDelete)
  /\ leafDeleted
       (fst (buildFrom zeroed [("22 XX 90", "A"); ("22 *", "C")]%string EmptyString))
       0%nat (str "22 XX 90").
Proof.
  assert (Hload : forall uninitialised,
            snd (buildFrom uninitialised [("22 XX 90", "A"); ("22 *", "C")]%string
                   EmptyString)
            = Returned (0%nat, []))
    by (intros u; vm_compute; reflexivity).
  split; [exact Hload |]. split; [split; vm_compute; reflexivity |].
  split; [split; vm_compute; reflexivity |].
  apply (accepted_entry_unanswered _ EmptyString "22 XX 90" [0x22; 0xF1; 0x90] Hload).
  - left. reflexivity.
  - vm_compute. reflexivity.
Qed.

(** C3.  Two keys without wildcard that match the request 05 06 01 02,
    with two and with three placeholders (and the key [*]): loading
    returns and reports no key; the leaves were deleted; the request is
    not answered with ["A"], the entry of the key with the fewest
    placeholders, whatever the memory of new nodes held and whatever the
    order of the pointers: the lookup uses a deleted leaf. *)
Theorem fewest_placeholders_pattern_is_not_answered :
  (forall uninitialised,
     snd (buildFrom uninitialised
            [("XX XX 01 02", "A"); ("*", "W"); ("XX XX XX 02", "B")]%string EmptyString)
     = Returned (0%nat, []))
  /\ (patternMatches (elementsOf (cleanupString (str "XX XX 01 02"))) [0x05; 0x06; 0x01; 0x02]
      = true
      /\ endsInWildcard (elementsOf (cleanupString (str "XX XX 01 02"))) = false
      /\ placeholdersIn (elementsOf (cleanupString (str "XX XX 01 02"))) = 2)
  /\ (patternMatches (elementsOf (cleanupString (str "XX XX XX 02"))) [0x05; 0x06; 0x01; 0x02]
      = true
      /\ endsInWildcard (elementsOf (cleanupString (str "XX XX XX 02"))) = false
      /\ placeholdersIn (elementsOf (cleanupString (str "XX XX XX 02"))) = 3)
  /\ (forall uninitialised ptr_lt,
        matchIn ptr_lt
          (buildFrom uninitialised
             [("XX XX 01 02", "A"); ("*", "W"); ("XX XX XX 02", "B")]%string EmptyString)
          [0x05; 0x06; 0x01; 0x02] = inl UseAfterDelete
        \/ matchIn ptr_lt
             (buildFrom uninitialised
                [("XX XX 01 02", "A"); ("*", "W"); ("XX XX XX 02", "B")]%string
                EmptyString)
             [0x05; 0x06; 0x01; 0x02] = inr None)
  /\ (forall ptr_lt,
        matchIn ptr_lt
          (buildFrom zeroed
             [("XX XX 01 02", "A"); ("*", "W"); ("XX XX XX 02", "B")]%string EmptyString)
          [0x05; 0x06; 0x01; 0x02] = inl UseAfterDelete)
  /\ leafDeleted
       (fst (buildFrom zeroed
               [("XX XX 01 02", "A"); ("*", "W"); ("XX XX XX 02", "B")]%string
               EmptyString))
       0%nat (str "XX XX 01 02").
Proof.
  assert (Hload : forall uninitialised,
            snd (buildFrom uninitialised
                   [("XX XX 01 02", "A"); ("*", "W"); ("XX XX XX 02", "B")]%string
                   EmptyString)
            = Returned (0%nat, []))
    by (intros u; vm_compute; reflexivity).
  split; [exact Hload |].
  split; [repeat split; vm_compute; reflexivity |].
  split; [repeat split; vm_compute; reflexivity |].
  apply (accepted_entry_unanswered _ EmptyString "XX XX 01 02" [0x05; 0x06; 0x01; 0x02]
           Hload).
  - left. reflexivity.
  - vm_compute. reflexivity.
Qed.

(** C5.  The key [22 ZZ], whose second element is not a hex number, is
    not rejected: [strtol] reads [ZZ] as 0, so the key is inserted as the
    pattern 22 00 and nothing is reported.  Like the leaf of every
    accepted key, its leaf is deleted at once, so that the request 22 00
    is not answered either.  No key at all is ever reported as not being
    a hex number, on any heap. *)
Theorem non_hex_element_is_not_rejected :
  (forall (T : Type) (uninitialised : ptr -> bool) (f : list ascii -> T)
          (root : ptr) (k : list ascii) (H : Heap T),
     snd (addKey uninitialised f root k H) <> Returned (Some NotAHexNumber))
  /\ elementsOf (cleanupString (str "22 ZZ")) = [ByteElement 0x22; ByteElement 0x00]
  /\ (forall uninitialised,
        snd (buildFrom uninitialised [("22 ZZ", "Z")]%string EmptyString)
        = Returned (0%nat, []))
  /\ (forall uninitialised ptr_lt,
        matchIn ptr_lt (buildFrom uninitialised [("22 ZZ", "Z")]%string EmptyString)
          [0x22; 0x00] = inl UseAfterDelete
        \/ matchIn ptr_lt (buildFrom uninitialised [("22 ZZ", "Z")]%string EmptyString)
             [0x22; 0x00] = inr None)
  /\ (forall ptr_lt,
        matchIn ptr_lt (buildFrom zeroed [("22 ZZ", "Z")]%string EmptyString)
          [0x22; 0x00] = inl UseAfterDelete)
  /\ leafDeleted (fst (buildFrom zeroed [("22 ZZ", "Z")]%string EmptyString))
       0%nat (str "22 ZZ").
Proof.
  split; [intros T u f root k H; apply addKey_not_hex |].
  split; [vm_compute; reflexivity |].
  assert (Hload : forall uninitialised,
            snd (buildFrom uninitialised [("22 ZZ", "Z")]%string EmptyString)
            = Returned (0%nat, []))
    by (intros u; vm_compute; reflexivity).
  split; [exact Hload |].
  apply (accepted_entry_unanswered _ EmptyString "22 ZZ" [0x22; 0x00] Hload).
  - left. reflexivity.
  - vm_compute. reflexivity.
Qed.

(** ** A wildcard pattern given twice *)

(** C6.  Two keys that clean up to the same wildcard-terminated string,
    the second reached without undefined behaviour: its insertion raises
    the exception of [appendWildcard]; [buildRequestByteTree] catches it,
    reports the key as ignored and leaves the heap as it was; the loop
    then goes on with the remaining keys as it would without the key. *)
Theorem duplicate_wildcard_key_is_skipped {T : Type} (uninitialised : ptr -> bool)
    (f : list ascii -> T) (pre mid post : list (list ascii)) (k1 k2 : list ascii)
    (H1 : Heap T) (root : ptr) (ignored1 : list (list ascii * exn)) :
  cleanupString k2 = cleanupString k1 ->
  wildcardTerminated (cleanupString k1) ->
  buildRequestByteTree uninitialised (pre ++ k1 :: mid) f emptyHeap
  = (H1, Returned (root, ignored1)) ->
  addRequestToTree uninitialised root (cleanupString k2) H1
  = (H1, Thrown WildcardAlreadyExists)
  /\ addKey uninitialised f root k2 H1 = (H1, Returned (Some WildcardAlreadyExists))
  /\ buildRequestByteTree uninitialised (pre ++ k1 :: mid ++ k2 :: post) f emptyHeap
     = match addKeys uninitialised f root post H1 with
       | (H2, Returned ignored2) =>
           (H2, Returned (root, ignored1 ++ (k2, WildcardAlreadyExists) :: ignored2))
       | (H2, Thrown ex) => (H2, Thrown ex)
       | (H2, Undefined u) => (H2, Undefined u)
       end.
Proof.
  intros Hsame Hterm Hload.
  destruct (buildRequestByteTree_run uninitialised f _ H1 root ignored1 Hload)
    as (-> & Hrun & Hok1 & Hset1 & _).
  destruct (addKeys_split uninitialised f 0%nat pre k1 mid _ H1 ignored1 Hrun)
    as (Ha & Hb & r & ignoredPre & ignoredMid & Hpre & Hkey & Hmid & _).
  destruct (rootOnly_ok (T:=T) uninitialised) as [Hok0 Hset0].
  pose proof (addKeys_run uninitialised f 0%nat pre _ Ha (Returned ignoredPre)
                Hok0 Hset0 Hpre) as (Hoka & Hseta & _).
  destruct (wildcard_key_present uninitialised f 0%nat k1 Ha Hb r Hoka Hseta Hterm Hkey)
    as [w Hw].
  pose proof (addKey_run uninitialised f 0%nat k1 Ha Hb (Returned r) Hoka Hseta Hkey)
    as Hkey'.
  assert (Hokb : treeOk uninitialised 0%nat Hb) by (destruct r; apply Hkey').
  assert (Hsetb : settled Hb) by (destruct r; apply Hkey').
  pose proof (addKeys_run uninitialised f 0%nat mid Hb H1 (Returned ignoredMid)
                Hokb Hsetb Hmid) as (_ & _ & Hkeep & _).
  pose proof (descend_keeps Hb H1 _ 0%nat w Hkeep Hw) as Hw1.
  rewrite <- Hsame in Hterm, Hw1.
  pose proof (addKey_duplicate_wildcard uninitialised f 0%nat k2 H1 w Hok1 Hset1 Hterm Hw1)
    as Hdup.
  split; [exact (addKey_ignored uninitialised f 0%nat k2 H1 H1 _ Hdup) |].
  split; [exact Hdup |].
  replace (pre ++ k1 :: mid ++ k2 :: post) with ((pre ++ k1 :: mid) ++ k2 :: post)
    by (now rewrite <- app_assoc).
  rewrite buildRequestByteTree_unfold, addKeys_app, Hrun, addKeys_cons, Hdup.
  destruct (addKeys uninitialised f 0%nat post H1) as [H2 [ignored2 | ex | u]];
    reflexivity.
Qed.

Lemma duplicate_wildcard_key_is_skipped_witness :
  addKey zeroed (scriptTable [("22 *", "A"); ("22*", "B"); ("10 02", "C")]%string
                   EmptyString)
    0%nat (str "22*") (fst (buildFrom zeroed [("22 *", "A")]%string EmptyString))
  = (fst (buildFrom zeroed [("22 *", "A")]%string EmptyString),
     Returned (Some WildcardAlreadyExists)).
Proof.
  refine (proj1 (proj2 (duplicate_wildcard_key_is_skipped zeroed
            (scriptTable [("22 *", "A"); ("22*", "B"); ("10 02", "C")]%string EmptyString)
            [] [] [str "10 02"] (str "22 *") (str "22*")
            (fst (buildFrom zeroed [("22 *", "A")]%string EmptyString)) 0%nat []
            _ _ _))).
  - vm_compute. reflexivity.
  - split; [vm_compute; discriminate | vm_compute; reflexivity].
  - vm_compute. reflexivity.
Defined.

(** A table in which a wildcard pattern comes twice is loaded to the end:
    the second key is reported, the key after it is inserted. *)
Lemma duplicate_wildcard_not_fatal :
  snd (buildFrom zeroed [("22 *", "A"); ("22*", "B"); ("10 02", "C")]%string EmptyString)
  = Returned (0%nat, [(str "22*", WildcardAlreadyExists)])
  /\ descend
       (nodes (fst (buildFrom zeroed [("22 *", "A"); ("22*", "B"); ("10 02", "C")]%string
                      EmptyString)))
       0%nat (elementsOf (cleanupString (str "10 02")))
     = Some 4%nat.
Proof. split; vm_compute; reflexivity. Qed.

(** ** The choice among the candidates, had the leaves been kept

    The nodes of a loaded tree still hold what was last written to them.
    Read regardless of the deletions, that is, as the tree would be if
    [setLuaResponse] did not give its node a second owner, the three
    tables above are answered as follows when nodes allocated later lie
    at higher addresses: the comparisons of [findBestMatchingRequest] for
    a longer wildcard and for fewer placeholders are made also when the
    best match so far is not a wildcard node. *)
Lemma kept_leaves_longer_wildcard_wins :
  getValueFromTree allocationOrder
    (nodes (fst (buildFrom zeroed [("22 F1 90", "B"); ("22 XX 90 *", "C")]%string
                   EmptyString)))
    0%nat [0x22; 0xF1; 0x90] = Some "C"%string.
Proof. vm_compute. reflexivity. Qed.

Lemma kept_leaves_wildcard_beats_placeholder :
  getValueFromTree allocationOrder
    (nodes (fst (buildFrom zeroed [("22 XX 90", "A"); ("22 *", "C")]%string
                   EmptyString)))
    0%nat [0x22; 0xF1; 0x90] = Some "C"%string.
Proof. vm_compute. reflexivity. Qed.

Lemma kept_leaves_more_placeholders_win :
  getValueFromTree allocationOrder
    (nodes (fst (buildFrom zeroed
                   [("XX XX 01 02", "A"); ("*", "W"); ("XX XX XX 02", "B")]%string
                   EmptyString)))
    0%nat [0x05; 0x06; 0x01; 0x02] = Some "B"%string.
Proof. vm_compute. reflexivity. Qed.

(** ** Trees as loading leaves them *)

(** X22.  No lookup in a tree that [buildRequestByteTree] has built
    returns a response: every response sits in a node that was deleted
    when the pointer returned by [setLuaResponse] was dropped.  The lookup
    finds nothing, or it uses a deleted node. *)
Theorem built_tree_answers_nothing {T : Type} (uninitialised : ptr -> bool)
    (ptr_lt : ptr -> ptr -> bool) (f : list ascii -> T) (keys : list (list ascii))
    (H : Heap T) (root : ptr) (ignored : list (list ascii * exn)) (payload : list Z) :
  buildRequestByteTree uninitialised keys f emptyHeap = (H, Returned (root, ignored)) ->
  getValueFromTreeOnHeap ptr_lt H root payload = inl UseAfterDelete
  \/ getValueFromTreeOnHeap ptr_lt H root payload = inr None.
Proof.
  intros Hload.
  exact (loaded_tree_answers_nothing uninitialised ptr_lt f keys H root ignored Hload
           payload).
Qed.

Lemma built_tree_answers_nothing_witness :
  getValueFromTreeOnHeap allocationOrder
    (fst (buildFrom zeroed [("22 F1 90", "62 F1 90 01"); ("10 02", "50 02")]%string
            EmptyString))
    0%nat [0x10; 0x02] = inl UseAfterDelete
  \/ getValueFromTreeOnHeap allocationOrder
       (fst (buildFrom zeroed [("22 F1 90", "62 F1 90 01"); ("10 02", "50 02")]%string
               EmptyString))
       0%nat [0x10; 0x02] = inr None.
Proof.
  apply (built_tree_answers_nothing zeroed allocationOrder
           (scriptTable [("22 F1 90", "62 F1 90 01"); ("10 02", "50 02")]%string
              EmptyString)
           (keysOf [("22 F1 90", "62 F1 90 01"); ("10 02", "50 02")]%string)
           _ 0%nat []).
  vm_compute. reflexivity.
Defined.

(** X23.  Where the memory of new nodes reads as zero, a request that
    matches the pattern of a key that loading accepted is not answered:
    the lookup reaches the key's leaf, or the leaf of another key on the
    way, and uses this deleted node, for every order of the pointers. *)
Theorem matching_request_uses_deleted_leaf {T : Type} (uninitialised : ptr -> bool)
    (ptr_lt : ptr -> ptr -> bool) (f : list ascii -> T) (keys : list (list ascii))
    (H : Heap T) (root : ptr) (ignored : list (list ascii * exn))
    (k : list ascii) (payload : list Z) :
  (forall p, uninitialised p = false) ->
  buildRequestByteTree uninitialised keys f emptyHeap = (H, Returned (root, ignored)) ->
  In k keys -> ~ In k (map fst ignored) ->
  patternMatches (elementsOf (cleanupString k)) payload = true ->
  getValueFromTreeOnHeap ptr_lt H root payload = inl UseAfterDelete.
Proof.
  intros zero Hload Hin Hnot Hm.
  exact (accepted_match_undefined uninitialised ptr_lt f keys H root ignored Hload
           k payload zero Hin Hnot Hm).
Qed.

Lemma matching_request_uses_deleted_leaf_witness :
  getValueFromTreeOnHeap reverseAllocationOrder
    (fst (buildFrom zeroed [("22 F1 XX", "62 F1 90 01"); ("10 *", "50 02")]%string
            EmptyString))
    0%nat [0x22; 0xF1; 0x90] = inl UseAfterDelete.
Proof.
  apply (matching_request_uses_deleted_leaf zeroed reverseAllocationOrder
           (scriptTable [("22 F1 XX", "62 F1 90 01"); ("10 *", "50 02")]%string
              EmptyString)
           (keysOf [("22 F1 XX", "62 F1 90 01"); ("10 *", "50 02")]%string)
           _ 0%nat [] (str "22 F1 XX")).
  - reflexivity.
  - vm_compute. reflexivity.
  - left. reflexivity.
  - intros [].
  - vm_compute. reflexivity.
Defined.

(** X24.  After a load that returns, the leaf of every key that was not
    ignored is reached from the root along the elements of the key and
    has been deleted; every node that holds a response has been deleted;
    and with a node its children have been deleted. *)
Theorem leaf_of_accepted_key_is_deleted {T : Type} (uninitialised : ptr -> bool)
    (f : list ascii -> T) (keys : list (list ascii))
    (H : Heap T) (root : ptr) (ignored : list (list ascii * exn)) :
  buildRequestByteTree uninitialised keys f emptyHeap = (H, Returned (root, ignored)) ->
  (forall k, In k keys -> ~ In k (map fst ignored) ->
     exists q, descend (nodes H) root (elementsOf (cleanupString k)) = Some q
               /\ q ∈ deleted H)
  /\ (forall p, is_Some (luaResponse (deref (nodes H) p)) -> p ∈ deleted H)
  /\ (forall p e c, p ∈ deleted H -> edge (deref (nodes H) p) e = Some c ->
                    c ∈ deleted H).
Proof.
  intros Hload.
  destruct (buildRequestByteTree_run uninitialised f keys H root ignored Hload)
    as (_ & _ & Hok & _ & Hleaf & _).
  split; [exact Hleaf |].
  split; [exact (ok_answered _ _ _ Hok) | exact (ok_closed _ _ _ Hok)].
Qed.

Lemma leaf_of_accepted_key_is_deleted_witness :
  exists q,
    descend
      (nodes (fst (buildFrom zeroed [("22 F1 90", "62 F1 90 01"); ("10 02", "50 02")]%string
                     EmptyString)))
      0%nat (elementsOf (cleanupString (str "10 02"))) = Some q
    /\ q ∈ deleted (fst (buildFrom zeroed
                           [("22 F1 90", "62 F1 90 01"); ("10 02", "50 02")]%string
                           EmptyString)).
Proof.
  refine (proj1 (leaf_of_accepted_key_is_deleted zeroed
            (scriptTable [("22 F1 90", "62 F1 90 01"); ("10 02", "50 02")]%string
               EmptyString)
            (keysOf [("22 F1 90", "62 F1 90 01"); ("10 02", "50 02")]%string)
            _ 0%nat [] _) (str "10 02") _ _).
  - vm_compute. reflexivity.
  - right. left. reflexivity.
  - intros [].
Defined.

(** X26.  Of two keys of a table, one's pattern a beginning of the
    other's (or the same pattern), loading cannot accept both and return:
    the later insertion would use or delete again the leaf that the
    earlier one left deleted. *)
Theorem accepted_patterns_do_not_meet {T : Type} (uninitialised : ptr -> bool)
    (f : list ascii -> T) (pre mid post : list (list ascii)) (k1 k2 : list ascii)
    (H : Heap T) (root : ptr) (ignored : list (list ascii * exn)) :
  buildRequestByteTree uninitialised (pre ++ k1 :: mid ++ k2 :: post) f emptyHeap
  = (H, Returned (root, ignored)) ->
  ~ In k1 (map fst ignored) -> ~ In k2 (map fst ignored) ->
  ~ (elementsOf (cleanupString k1) `prefix_of` elementsOf (cleanupString k2))
  /\ ~ (elementsOf (cleanupString k2) `prefix_of` elementsOf (cleanupString k1)).
Proof.
  intros Hload Hk1 Hk2.
  destruct (buildRequestByteTree_run uninitialised f _ H root ignored Hload)
    as (-> & Hrun & _).
  destruct (addKeys_split uninitialised f 0%nat pre k1 _ _ H ignored Hrun)
    as (Ha & Hb & r1 & ignoredPre & ignoredRest & Hpre & Hkey1 & Hrest & ->).
  destruct (addKeys_split uninitialised f 0%nat mid k2 post Hb H ignoredRest Hrest)
    as (Hc & Hd & r2 & ignoredMid & ignoredPost & Hmid & Hkey2 & Hpost & ->).
  destruct r1 as [ex1 |].
  { exfalso. apply Hk1. rewrite map_app, in_app_iff. right. cbn [app map fst]. now left. }
  destruct r2 as [ex2 |].
  { exfalso. apply Hk2. rewrite !map_app, !in_app_iff. right. right. right. left.
    cbn [map fst]. now left. }
  destruct (rootOnly_ok (T:=T) uninitialised) as [Hok0 Hset0].
  pose proof (addKeys_run uninitialised f 0%nat pre _ Ha (Returned ignoredPre)
                Hok0 Hset0 Hpre) as (Hoka & Hseta & _).
  pose proof (addKey_run uninitialised f 0%nat k1 Ha Hb (Returned None) Hoka Hseta Hkey1)
    as (Hokb & Hsetb & _ & Hleaf1).
  pose proof (addKeys_run uninitialised f 0%nat mid Hb Hc (Returned ignoredMid)
                Hokb Hsetb Hmid) as (Hokc & _ & Hkeep & _).
  apply (addKey_accepts_new_pattern uninitialised f 0%nat k2 Hc Hd k1 Hokc Hkey2).
  eapply leafDeleted_keeps; eassumption.
Qed.

Lemma accepted_patterns_do_not_meet_witness :
  ~ (elementsOf (cleanupString (str "22 F1 90"))
       `prefix_of` elementsOf (cleanupString (str "22 XX 90")))
  /\ ~ (elementsOf (cleanupString (str "22 XX 90"))
          `prefix_of` elementsOf (cleanupString (str "22 F1 90"))).
Proof.
  apply (accepted_patterns_do_not_meet zeroed
           (scriptTable [("22 F1 90", "A"); ("22 XX 90", "B")]%string EmptyString)
           [] [] [] (str "22 F1 90") (str "22 XX 90")
           (fst (buildFrom zeroed [("22 F1 90", "A"); ("22 XX 90", "B")]%string
                   EmptyString))
           0%nat []).
  - vm_compute. reflexivity.
  - intros [].
  - intros [].
Defined.

(** X28.  The keys that a load that returns reports as ignored are keys
    of the table whose cleaned text has an odd number of characters: not
    ending in [*] (reported as having an odd number of digits), or
    ending in [*] with the same wildcard pattern in the tree already.
    Every key with an odd number of characters that does not end in [*]
    is reported, and no key with an even number is. *)
Theorem ignored_keys_and_reasons {T : Type} (uninitialised : ptr -> bool)
    (f : list ascii -> T) (keys : list (list ascii))
    (H : Heap T) (root : ptr) (ignored : list (list ascii * exn)) :
  buildRequestByteTree uninitialised keys f emptyHeap = (H, Returned (root, ignored)) ->
  (forall k ex, In (k, ex) ignored -> In k keys /\ ignoredFor k ex)
  /\ (forall k, In k keys -> (length (cleanupString k) mod 2)%nat <> 0%nat ->
                last (cleanupString k) <> Some "*"%char ->
                In (k, OddNumberOfDigits) ignored)
  /\ (forall k, In k keys -> (length (cleanupString k) mod 2)%nat = 0%nat ->
                ~ In k (map fst ignored)).
Proof.
  intros Hload.
  destruct (buildRequestByteTree_run uninitialised f keys H root ignored Hload)
    as (_ & _ & _ & _ & _ & Hwhy & Hodd).
  split; [exact Hwhy |]. split; [exact Hodd |].
  intros k Hin Heven Hign. apply in_map_iff in Hign as ([k' ex] & Hk & Hign).
  cbn in Hk. subst k'.
  destruct (Hwhy k ex Hign) as [_ [(_ & Hpar & _) | (_ & Hpar & _)]]; contradiction.
Qed.

Lemma ignored_keys_and_reasons_witness :
  In (str "22 F", OddNumberOfDigits)
     (match snd (buildFrom zeroed [("22 F", "A"); ("10 02", "B")]%string EmptyString) with
      | Returned (_, ignored) => ignored
      | _ => []
      end).
Proof.
  refine (proj1 (proj2 (ignored_keys_and_reasons zeroed
            (scriptTable [("22 F", "A"); ("10 02", "B")]%string EmptyString)
            (keysOf [("22 F", "A"); ("10 02", "B")]%string)
            (fst (buildFrom zeroed [("22 F", "A"); ("10 02", "B")]%string EmptyString))
            0%nat [(str "22 F", OddNumberOfDigits)] _)) (str "22 F") _ _ _).
  - vm_compute. reflexivity.
  - left. reflexivity.
  - vm_compute. discriminate.
  - vm_compute. discriminate.
Defined.

(** ** The J1939 lookups on a loaded table *)

(** A lookup of [getJ1939Response] that is defined is the lookup on the
    store. *)
Lemma getJ1939ResponseOnHeap_store (ptr_lt : ptr -> ptr -> bool) (H : Heap Selector)
    (root : ptr) (pgn : Z) (payload : list Z) :
  match getJ1939ResponseOnHeap ptr_lt H root pgn payload with
  | inr response => response = getJ1939Response ptr_lt (nodes H) root pgn payload
  | inl u => u = UseAfterDelete
  end.
Proof.
  unfold getJ1939ResponseOnHeap, getJ1939Response.
  pose proof (getValueFromTreeOnHeap_store ptr_lt H root (pgnBytes pgn ++ payload)) as Hv.
  destruct (getValueFromTreeOnHeap ptr_lt H root (pgnBytes pgn ++ payload))
    as [u | v]; [exact Hv |].
  rewrite <- Hv. destruct v as [[s | g] |]; reflexivity.
Qed.

(** X29.  The tree of the [PGNs] table holds the keys with a [#] only,
    and a lookup of [getJ1939Response] in it yields no response: it finds
    nothing, which gives the empty string, or it uses a deleted node. *)
Theorem getJ1939Response_on_built_tree (uninitialised : ptr -> bool)
    (ptr_lt : ptr -> ptr -> bool) (pgnKeys : list (list ascii))
    (pgnTable : list ascii -> Selector) (H : Heap Selector) (root : ptr)
    (ignored : list (list ascii * exn)) (pgn : Z) (payload : list Z) :
  buildRequestByteTreeFromPGNTable uninitialised pgnKeys pgnTable emptyHeap
  = (H, Returned (root, ignored)) ->
  (getJ1939ResponseOnHeap ptr_lt H root pgn payload = inl UseAfterDelete
   \/ getJ1939ResponseOnHeap ptr_lt H root pgn payload = inr [])
  /\ (forall k, In k pgnKeys -> containsHash k = true -> ~ In k (map fst ignored) ->
        leafDeleted H root k)
  /\ (forall k ex, In (k, ex) ignored -> In k pgnKeys /\ containsHash k = true).
Proof.
  unfold buildRequestByteTreeFromPGNTable. intros Hload.
  destruct (buildRequestByteTree_run uninitialised pgnTable _ H root ignored Hload)
    as (_ & _ & Hok & _ & Hleaf & Hwhy & _).
  split; [| split].
  - unfold getJ1939ResponseOnHeap.
    destruct (getValueFromTreeOnHeap_none ptr_lt H root (pgnBytes pgn ++ payload)
                (ok_answered _ _ _ Hok)) as [-> | ->]; auto.
  - intros k Hin Hhash Hnot. apply Hleaf; [| exact Hnot].
    apply filter_In. auto.
  - intros k ex Hin. destruct (Hwhy k ex Hin) as [Hk _].
    apply filter_In in Hk. exact Hk.
Qed.

Lemma getJ1939Response_on_built_tree_witness :
  getJ1939ResponseOnHeap allocationOrder
    (fst (buildRequestByteTreeFromPGNTable zeroed [str "CA FE 00 # 01"; str "FECA"]
            (fun _ => LuaString (str "01 02")) emptyHeap))
    0%nat 0xFECA [0x01] = inl UseAfterDelete
  \/ getJ1939ResponseOnHeap allocationOrder
       (fst (buildRequestByteTreeFromPGNTable zeroed [str "CA FE 00 # 01"; str "FECA"]
               (fun _ => LuaString (str "01 02")) emptyHeap))
       0%nat 0xFECA [0x01] = inr [].
Proof.
  refine (proj1 (getJ1939Response_on_built_tree zeroed allocationOrder
            [str "CA FE 00 # 01"; str "FECA"] (fun _ => LuaString (str "01 02"))
            _ 0%nat [] 0xFECA [0x01] _)).
  vm_compute. reflexivity.
Defined.

(** ** Literal keys *)

Lemma hexDigit_notSeparator (a : Z) :
  0 <= a < 16 ->
  isSeparator (hexDigit a) = false
  /\ Ascii.eqb (lower (hexDigit a)) "x"%char = false.
Proof. intros Ha. cases16 a Ha; split; vm_compute; reflexivity. Qed.

Lemma cleanupString_hexPairs (bytes : list Z) :
  Forall isByte bytes -> cleanupString (hexPairs bytes) = hexPairs bytes.
Proof.
  induction 1 as [| b rest Hb _ IH]; [reflexivity |].
  destruct (hexDigit_of_byte b Hb) as [Hhi Hlo].
  cbn [hexPairs cleanupString].
  rewrite (proj1 (hexDigit_notSeparator _ Hhi)), (proj1 (hexDigit_notSeparator _ Hlo)).
  now rewrite IH.
Qed.

Lemma cleanupString_removeSpaces (s : list ascii) :
  cleanupString (removeSpaces s) = cleanupString s.
Proof.
  induction s as [| c s IH]; [reflexivity |].
  cbn [removeSpaces cleanupString].
  destruct (Ascii.eqb_spec c " "%char) as [-> | _].
  - rewrite isSeparator_space. exact IH.
  - cbn [cleanupString]. now rewrite IH.
Qed.

Lemma elementsOf_hexPairs (bytes : list Z) :
  Forall isByte bytes -> elementsOf (hexPairs bytes) = map ByteElement bytes.
Proof.
  induction 1 as [| b rest Hb _ IH]; [reflexivity |].
  destruct (hexDigit_of_byte b Hb) as [Hhi Hlo].
  cbn [hexPairs elementsOf map]. unfold isPlaceholder.
  rewrite (proj2 (hexDigit_notSeparator _ Hhi)). cbn [andb].
  rewrite (hexPair_nonempty _ _ (proj2 (hexDigit_plain _ Hhi))
                                (proj2 (hexDigit_plain _ Hlo))).
  rewrite strtol_hex_pair by assumption. cbn [nth]. rewrite IH.
  do 2 f_equal. unfold isByte in Hb. Z.div_mod_to_equations. lia.
Qed.

Lemma patternMatches_literal (bytes : list Z) : forall payload,
  patternMatches (map ByteElement bytes) payload = true -> payload = bytes.
Proof.
  induction bytes as [| b bytes IH]; intros [| x payload] Hm; cbn in Hm;
    try discriminate; [reflexivity |].
  apply andb_true_iff in Hm as [Hx Hm]. apply Z.eqb_eq in Hx.
  now rewrite Hx, (IH payload Hm).
Qed.

Lemma patternMatches_literal_refl (bytes : list Z) :
  patternMatches (map ByteElement bytes) bytes = true.
Proof.
  induction bytes as [| b bytes IH]; [reflexivity |].
  cbn. now rewrite Z.eqb_refl.
Qed.

(** X27.  The hex text of a request, used as a key, is the literal pattern
    of that request: [addRequestToTree] reads it as the bytes of the
    request, and this request is the only one that matches it. *)
Theorem hex_text_is_literal_pattern (bytes : list Z) :
  Forall isByte bytes ->
  elementsOf (cleanupString (intToHexString bytes)) = map ByteElement bytes
  /\ patternMatches (elementsOf (cleanupString (intToHexString bytes))) bytes = true
  /\ forall payload,
       patternMatches (elementsOf (cleanupString (intToHexString bytes))) payload = true ->
       payload = bytes.
Proof.
  intros Hbytes.
  assert (Hel : elementsOf (cleanupString (intToHexString bytes))
                = map ByteElement bytes).
  { rewrite <- cleanupString_removeSpaces, removeSpaces_intToHexString by exact Hbytes.
    rewrite cleanupString_hexPairs by exact Hbytes.
    now apply elementsOf_hexPairs. }
  rewrite Hel. split; [reflexivity |].
  split; [apply patternMatches_literal_refl | apply patternMatches_literal].
Qed.

Lemma hex_text_is_literal_pattern_witness :
  elementsOf (cleanupString (intToHexString [0x22; 0xF1; 0x90]))
  = map ByteElement [0x22; 0xF1; 0x90].
Proof.
  refine (proj1 (hex_text_is_literal_pattern [0x22; 0xF1; 0x90] _)).
  repeat constructor; unfold isByte; lia.
Defined.

(** ** The J1939 lookups *)

Lemma mapInsert_lookup {V} (key key' : list ascii) (v : V) (m : gmap (list ascii) V) :
  mapInsert key v m !! key'
  = match m !! key' with
    | Some v' => Some v'
    | None => if bool_decide (key = key') then Some v else None
    end.
Proof.
  unfold mapInsert. destruct (m !! key) as [v0 |] eqn:Hkey.
  - destruct (m !! key') as [v' |] eqn:Hkey'; [reflexivity |].
    rewrite bool_decide_eq_false_2; [reflexivity | congruence].
  - destruct (decide (key = key')) as [<- | Hne].
    + rewrite lookup_insert_eq, Hkey, bool_decide_eq_true_2; reflexivity.
    + rewrite lookup_insert_ne by exact Hne.
      destruct (m !! key'); [reflexivity |].
      now rewrite bool_decide_eq_false_2.
Qed.

(** X30.  The lookup of a requested PGN: separators count neither in the
    keys of the table nor in the requested PGN, keys that hold a [#] are
    left out, and of several keys with the same characters the first one
    that [getKeys()] lists gives the data; a PGN without key has an empty
    payload and the cycle time 0. *)
Theorem getJ1939RequestPGNData_first_key (pgnKeys : list (list ascii))
    (pgnTable : list ascii -> PGNEntry) (pgn : list ascii) :
  getJ1939RequestPGNData (buildRequestPGNMap pgnKeys pgnTable) pgn
  = match List.find (fun k => negb (containsHash k)
                              && bool_decide (cleanupString k = cleanupString pgn))
                    pgnKeys with
    | Some k => pgnDataOf (pgnTable k)
    | None => {| cycleTime := 0; payload := [] |}
    end.
Proof.
  unfold getJ1939RequestPGNData, buildRequestPGNMap.
  set (key := cleanupString pgn).
  assert (Hgen : forall keys m,
    fold_left
      (fun pgnMap pgnKey =>
         if negb (containsHash pgnKey)
         then mapInsert (cleanupString pgnKey) (pgnTable pgnKey) pgnMap
         else pgnMap)
      (List.filter (fun x => negb (containsHash x)) keys) m !! key
    = match m !! key with
      | Some v => Some v
      | None =>
          option_map pgnTable
            (List.find (fun k => negb (containsHash k)
                                 && bool_decide (cleanupString k = key)) keys)
      end).
  { induction keys as [| k keys IH]; intros m; cbn [List.filter List.find fold_left].
    - destruct (m !! key); reflexivity.
    - destruct (negb (containsHash k)) eqn:Hhash; cbn [andb fold_left]; [| apply IH].
      rewrite Hhash, IH, mapInsert_lookup.
      destruct (m !! key); [reflexivity |].
      destruct (bool_decide (cleanupString k = key)); reflexivity. }
  rewrite Hgen, lookup_empty.
  destruct (List.find _ pgnKeys); reflexivity.
Qed.

